(** * swag-mcp: endpoint normalisation and dynamic dispatch

    A shallow embedding of the discovery and dispatch code of the two
    servers the entry points start, [SimpleSwaggerMcpServer]
    ([src/swagger-mcp-simple.ts]) and [SimplePostmanMcpServer]
    ([src/postman-mcp-simple.ts]), and of parts of their legacy
    variants: the header resolver and the search of [SwaggerMcpServer],
    the tool names and the request headers of [PostmanMcpServer].  The
    properties of the specification that were checked against them follow
    the definitions, and further properties of the code follow these.

    Conventions.
    - A JavaScript string is a [string]: the sequence of the bytes of its
      UTF-8 encoding.  Case conversion and the character classes are the
      ASCII ones.
    - A JavaScript object used as a record of caller data
      ([Record<string, any>]) is an association list in insertion order
      with pairwise distinct keys, which is what [Object.entries] and
      [Object.keys] enumerate.  The one lookup by a name that a file
      chooses, [this.environment[name]], also finds the members every
      object inherits ([constructor], [toString], ...): [JS.inherited]
      gives what is found there.
    - The value [JSON.stringify(x, null, 2)] placed in a tool result is
      kept as the structured value [x].
    - The HTTP transport (axios) is a parameter of the dispatch tools.
    - A relevance score is a rational number: the scores are multiples of
      one half, which floating point adds without error. *)

From Stdlib Require Import String Ascii List ZArith QArith Lia Bool Arith.
From Stdlib Require Import DecimalString Sorted Permutation Setoid.
From Stdlib Require DecimalPos DecimalZ.
Import ListNotations.
Set Warnings "-register-all".
Close Scope Q_scope.
Local Open Scope list_scope.
Local Open Scope string_scope.

(* ================================================================== *)
(** * JavaScript primitives used by the servers *)
(* ================================================================== *)

Module JS.

(** [text.startsWith(word)] *)
Definition startsWith (text word : string) : bool := String.prefix word text.

(** [text.includes(word)]: [word] occurs at some position of [text]. *)
Fixpoint includes (text word : string) {struct text} : bool :=
  String.prefix word text ||
  match text with
  | EmptyString => false
  | String _ rest => includes rest word
  end.

(** [text.endsWith(word)]: some suffix of [text] is [word]. *)
Fixpoint endsWith (text word : string) {struct text} : bool :=
  String.eqb text word ||
  match text with
  | EmptyString => false
  | String _ rest => endsWith rest word
  end.

Definition is_upper (c : ascii) : bool :=
  let n := N_of_ascii c in (65 <=? n)%N && (n <=? 90)%N.

Definition is_lower (c : ascii) : bool :=
  let n := N_of_ascii c in (97 <=? n)%N && (n <=? 122)%N.

Definition is_digit (c : ascii) : bool :=
  let n := N_of_ascii c in (48 <=? n)%N && (n <=? 57)%N.

Definition lower_char (c : ascii) : ascii :=
  if is_upper c then ascii_of_N (N_of_ascii c + 32) else c.

Definition upper_char (c : ascii) : ascii :=
  if is_lower c then ascii_of_N (N_of_ascii c - 32) else c.

Fixpoint map_chars (f : ascii -> ascii) (s : string) : string :=
  match s with
  | EmptyString => EmptyString
  | String c rest => String (f c) (map_chars f rest)
  end.

(** [s.toLowerCase()] and [s.toUpperCase()] *)
Definition toLowerCase (s : string) : string := map_chars lower_char s.
Definition toUpperCase (s : string) : string := map_chars upper_char s.

(** [s.split(sep)] for a one-character separator: never the empty list. *)
Fixpoint split (sep : ascii) (s : string) : list string :=
  match s with
  | EmptyString => [EmptyString]
  | String c rest =>
      if Ascii.eqb c sep then EmptyString :: split sep rest
      else match split sep rest with
           | w :: ws => String c w :: ws
           | [] => [String c EmptyString]
           end
  end.

(** [parts.join(sep)] *)
Definition join (sep : string) (parts : list string) : string :=
  String.concat sep parts.

Fixpoint drop (n : nat) (s : string) : string :=
  match n, s with
  | O, _ => s
  | S _, EmptyString => EmptyString
  | S m, String _ rest => drop m rest
  end.

(** [text.replace(pat, rep)] with a string pattern: the first occurrence of
    [pat] is replaced, the text is unchanged when there is none.  The
    servers only pass replacement texts produced by [encodeURIComponent],
    which hold no dollar sign, so the replacement is literal. *)
Fixpoint replace (text pat rep : string) {struct text} : string :=
  if String.prefix pat text then rep ++ drop (String.length pat) text
  else match text with
       | EmptyString => EmptyString
       | String c rest => String c (replace rest pat rep)
       end.

(** [/\w/]: a letter, a digit or the underscore. *)
Definition is_word_char (c : ascii) : bool :=
  is_upper c || is_lower c || is_digit c || Ascii.eqb c "_"%char.

Definition hex_digit (n : N) : ascii :=
  if (n <? 10)%N then ascii_of_N (48 + n) else ascii_of_N (55 + n).

(** The characters [encodeURIComponent] leaves alone:
    [A-Z a-z 0-9 - _ . ! ~ * ' ( )]. *)
Definition uri_unreserved (c : ascii) : bool :=
  is_upper c || is_lower c || is_digit c ||
  existsb (Ascii.eqb c)
    ["-"; "_"; "."; "!"; "~"; "*"; "'"; "("; ")"]%char.

Definition percent_encode (c : ascii) : string :=
  let n := N_of_ascii c in
  String "%" (String (hex_digit (n / 16)) (String (hex_digit (n mod 16)) EmptyString)).

(** [encodeURIComponent(s)], byte by byte over the UTF-8 encoding. *)
Fixpoint encodeURIComponent (s : string) : string :=
  match s with
  | EmptyString => EmptyString
  | String c rest =>
      (if uri_unreserved c then String c EmptyString else percent_encode c)
      ++ encodeURIComponent rest
  end.

Definition base64_alphabet : string :=
  "ABCDEFGHIJKLMNOPQRSTUVWXYZabcdefghijklmnopqrstuvwxyz0123456789+/".

Definition base64_char (n : N) : ascii :=
  match String.get (N.to_nat n) base64_alphabet with
  | Some c => c
  | None => "="%char
  end.

(** [Buffer.from(s).toString("base64")] *)
Fixpoint base64 (s : string) : string :=
  match s with
  | EmptyString => EmptyString
  | String a EmptyString =>
      let x := N_of_ascii a in
      String (base64_char (x / 4))
        (String (base64_char ((x mod 4) * 16)) "==")
  | String a (String b EmptyString) =>
      let x := N_of_ascii a in
      let y := N_of_ascii b in
      String (base64_char (x / 4))
        (String (base64_char ((x mod 4) * 16 + y / 16))
           (String (base64_char ((y mod 16) * 4)) "="))
  | String a (String b (String c rest)) =>
      let x := N_of_ascii a in
      let y := N_of_ascii b in
      let z := N_of_ascii c in
      String (base64_char (x / 4))
        (String (base64_char ((x mod 4) * 16 + y / 16))
           (String (base64_char ((y mod 16) * 4 + z / 64))
              (String (base64_char (z mod 64)) (base64 rest))))
  end.

(** The values a caller can put in [parameters] or [body]: JSON scalars
    and [undefined].  Numbers are the integers. *)
Inductive value : Type :=
  | VUndefined
  | VNull
  | VBool (b : bool)
  | VNumber (n : Z)
  | VString (s : string).

(** [String(v)] *)
Definition to_string (v : value) : string :=
  match v with
  | VUndefined => "undefined"
  | VNull => "null"
  | VBool true => "true"
  | VBool false => "false"
  | VNumber n => NilZero.string_of_int (Z.to_int n)
  | VString s => s
  end.

(** Truthiness, as tested by [if (v)], [!v] and [v || w]. *)
Definition truthy (v : value) : bool :=
  match v with
  | VUndefined | VNull => false
  | VBool b => b
  | VNumber n => negb (n =? 0)%Z
  | VString s => negb (String.eqb s "")
  end.

(** An optional string field: absent ([undefined]) or a string; the empty
    string is falsy. *)
Definition present (o : option string) : bool :=
  match o with
  | Some s => negb (String.eqb s "")
  | None => false
  end.

(** [o || dflt] on an optional string. *)
Definition or_else (o : option string) (dflt : string) : string :=
  match o with
  | Some s => if String.eqb s "" then dflt else s
  | None => dflt
  end.

(** An optional string inside a template literal. *)
Definition tpl (o : option string) : string :=
  match o with
  | Some s => s
  | None => "undefined"
  end.

(** Objects as association lists in insertion order. *)
Definition obj (V : Type) : Type := list (string * V).

Fixpoint obj_get {V} (o : obj V) (k : string) : option V :=
  match o with
  | [] => None
  | (k', v) :: rest => if String.eqb k' k then Some v else obj_get rest k
  end.

(** [o[k] = v]: an existing key keeps its place, a new key goes last. *)
Fixpoint obj_set {V} (o : obj V) (k : string) (v : V) : obj V :=
  match o with
  | [] => [(k, v)]
  | (k', v') :: rest =>
      if String.eqb k' k then (k', v) :: rest else (k', v') :: obj_set rest k v
  end.

(** [{ ...a, ...b }] *)
Definition spread {V} (a b : obj V) : obj V :=
  fold_left (fun acc kv => obj_set acc (fst kv) (snd kv)) b a.

(** [String(o[name])] for an object literal [o] that has no property of
    its own under [name]: the members of [Object.prototype], as Node
    prints them, and nothing under any other name. *)
Definition inherited (name : string) : option string :=
  if String.eqb name "__proto__" then Some "[object Object]"
  else if String.eqb name "constructor"
  then Some "function Object() { [native code] }"
  else if existsb (String.eqb name)
            ["hasOwnProperty"; "isPrototypeOf"; "propertyIsEnumerable";
             "toLocaleString"; "toString"; "valueOf";
             "__defineGetter__"; "__defineSetter__";
             "__lookupGetter__"; "__lookupSetter__"]
  then Some ("function " ++ name ++ "() { [native code] }")
  else None.

End JS.

(* ================================================================== *)
(** * Credentials ([AuthConfig], src/types.ts) *)
(* ================================================================== *)

(** The type tag of a credential bundle.  [AuthConfig] knows four tags;
    the [auth] argument of the dispatch tools is validated by a schema
    that also admits (and defaults to) ["none"]. *)
Inductive AuthType : Type := none | basic | bearer | apiKey | oauth2.

Inductive ApiKeyIn : Type := header | query.

Record AuthConfig : Type := mkAuth {
  type : AuthType;
  username : option string;
  password : option string;
  token : option string;
  apiKeyValue : option string;   (* field [apiKey] *)
  apiKeyName : option string;
  apiKeyIn : option ApiKeyIn
}.

(** The outcome of the HTTP transport (axios): a response, an error that
    carries a response (the server answered with a failure status), or an
    error without one (network, DNS, timeout). *)
Record HttpResponse : Type := mkResponse {
  status : Z;
  statusText : string;
  responseHeaders : JS.obj string;
  data : string                  (* the body, as JSON text *)
}.

Inductive TransportOutcome : Type :=
  | Responded (r : HttpResponse)
  | FailedWith (r : HttpResponse)
  | Failed (message : string).

(** What a tool handler does: return a result or throw. *)
Inductive outcome (A : Type) : Type :=
  | Returned (a : A)
  | Thrown (message : string).

Arguments Returned {A} a.
Arguments Thrown {A} message.

(** [auth || this.defaultAuth] *)
Definition resolveAuth (auth defaultAuth : option AuthConfig) : option AuthConfig :=
  match auth with
  | Some a => Some a
  | None => defaultAuth
  end.

(** [getAuthQueryParams], the same text in the three servers. *)
Definition getAuthQueryParams (defaultAuth auth : option AuthConfig) : JS.obj string :=
  match resolveAuth auth defaultAuth with
  | None => []
  | Some authConfig =>
      match type authConfig, apiKeyIn authConfig with
      | apiKey, Some query =>
          if JS.present (apiKeyValue authConfig) && JS.present (apiKeyName authConfig)
          then [(JS.tpl (apiKeyName authConfig), JS.tpl (apiKeyValue authConfig))]
          else []
      | _, _ => []
      end
  end.

(** [getAuthHeaders] of the two simple servers. *)
Definition getAuthHeaders (defaultAuth auth : option AuthConfig) : JS.obj string :=
  match resolveAuth auth defaultAuth with
  | None => []
  | Some authConfig =>
      match type authConfig with
      | basic =>
          if JS.present (username authConfig) && JS.present (password authConfig)
          then [("Authorization",
                 "Basic " ++ JS.base64 (JS.tpl (username authConfig) ++ ":"
                                          ++ JS.tpl (password authConfig)))]
          else []
      | bearer | oauth2 =>
          if JS.present (token authConfig)
          then [("Authorization", "Bearer " ++ JS.tpl (token authConfig))]
          else []
      | apiKey =>
          if JS.present (apiKeyValue authConfig) && JS.present (apiKeyName authConfig)
          then match apiKeyIn authConfig with
               | Some header =>
                   [(JS.tpl (apiKeyName authConfig), JS.tpl (apiKeyValue authConfig))]
               | _ => []
               end
          else []
      | none => []
      end
  end.

(* ================================================================== *)
(** * The OpenAPI document *)
(* ================================================================== *)

(** A security requirement object: scheme name to scopes. *)
Definition SecurityRequirement : Type := JS.obj (list string).

(** The fields of an operation object the tools read.  A value under a
    path item that is not an operation object (a [parameters] array, a
    [summary] string) reads as an operation with every field absent. *)
Record Operation : Type := mkOperation {
  operationId : option string;
  summary : option string;
  description : option string;
  tags : option (list string);
  deprecated : option bool;
  security : option (list SecurityRequirement)
}.

(** The entries of a path item: key and value, [None] for a falsy value. *)
Definition PathItem : Type := JS.obj (option Operation).

(** [swaggerSpec.paths]: path template to path item, [None] when falsy. *)
Definition Paths : Type := JS.obj (option PathItem).

(** [op.operationId || `${method}-${path}`] *)
Definition operationIdOf (method path : string) (op : Operation) : string :=
  JS.or_else (operationId op) (method ++ "-" ++ path).

Definition tagsOf (op : Operation) : list string :=
  match tags op with Some ts => ts | None => [] end.

Definition deprecatedOf (op : Operation) : bool :=
  match deprecated op with Some b => b | None => false end.

(** [a?.toLowerCase() === b.toLowerCase()] with [a] optional. *)
Definition same_method (a : option string) (b : string) : bool :=
  match a with
  | Some m => String.eqb (JS.toLowerCase m) (JS.toLowerCase b)
  | None => false
  end.

(** [length >= limit] *)
Definition reached {A} (results : list A) (limit : Z) : bool :=
  (limit <=? Z.of_nat (List.length results))%Z.

(* ================================================================== *)
(** * SimpleSwaggerMcpServer (src/swagger-mcp-simple.ts) *)
(* ================================================================== *)

Module Swagger.

Record Server : Type := mkServer {
  paths : Paths;
  apiBaseUrl : string;
  defaultAuth : option AuthConfig
}.

(** ** Tool 1: list_endpoints *)

Record ListInput : Type := mkListInput {
  list_method : option string;
  list_tag : option string;
  list_limit : Z
}.

Record ListedEndpoint : Type := mkListed {
  le_operationId : string;
  le_method : string;
  le_path : string;
  le_summary : string;
  le_description : string;
  le_tags : list string;
  le_deprecated : bool
}.

(** The two filters: [true] when the operation is skipped. *)
Definition method_filtered (input : ListInput) (method : string) : bool :=
  match list_method input with
  | Some m =>
      JS.present (Some m) &&
      negb (String.eqb (JS.toLowerCase method) (JS.toLowerCase m))
  | None => false
  end.

Definition tag_filtered (input : ListInput) (op : Operation) : bool :=
  match list_tag input with
  | Some t =>
      JS.present (Some t) &&
      match tags op with
      | Some ts => negb (existsb (String.eqb t) ts)
      | None => true
      end
  | None => false
  end.

Definition listed (method path : string) (op : Operation) : ListedEndpoint :=
  {| le_operationId := operationIdOf method path op;
     le_method := JS.toUpperCase method;
     le_path := path;
     le_summary := JS.or_else (summary op) "";
     le_description := JS.or_else (description op) "";
     le_tags := tagsOf op;
     le_deprecated := deprecatedOf op |}.

(** The inner loop, over the entries of one path item. *)
Fixpoint list_operations (input : ListInput) (path : string)
    (entries : PathItem) (endpoints : list ListedEndpoint) : list ListedEndpoint :=
  match entries with
  | [] => endpoints
  | (method, operation) :: rest =>
      match operation with
      | None => list_operations input path rest endpoints
      | Some op =>
          if String.eqb method "$ref" then list_operations input path rest endpoints
          else if method_filtered input method then list_operations input path rest endpoints
          else if tag_filtered input op then list_operations input path rest endpoints
          else
            let endpoints' := (endpoints ++ [listed method path op])%list in
            if reached endpoints' (list_limit input) then endpoints'
            else list_operations input path rest endpoints'
      end
  end.

(** The outer loop, over the entries of [paths]. *)
Fixpoint list_paths (input : ListInput) (ps : Paths)
    (endpoints : list ListedEndpoint) : list ListedEndpoint :=
  match ps with
  | [] => endpoints
  | (path, pathItem) :: rest =>
      match pathItem with
      | None => list_paths input rest endpoints
      | Some entries =>
          let endpoints' := list_operations input path entries endpoints in
          if reached endpoints' (list_limit input) then endpoints'
          else list_paths input rest endpoints'
      end
  end.

(** ** Tool 2: get_endpoint_details, and the lookup shared with Tool 4 *)

Record LookupInput : Type := mkLookup {
  in_operationId : option string;
  in_path : option string;
  in_method : option string
}.

Definition opt_eqb (a : option string) (b : string) : bool :=
  match a with Some s => String.eqb s b | None => false end.

(** The test that selects an operation. *)
Definition selects (input : LookupInput) (method path : string) (op : Operation) : bool :=
  opt_eqb (in_operationId input) (operationIdOf method path op) ||
  (opt_eqb (in_path input) path && same_method (in_method input) method).

Fixpoint find_in_item (input : LookupInput) (path : string) (entries : PathItem)
    : option (string * Operation) :=
  match entries with
  | [] => None
  | (method, operation) :: rest =>
      match operation with
      | None => find_in_item input path rest
      | Some op =>
          if String.eqb method "$ref" then find_in_item input path rest
          else if selects input method path op then Some (method, op)
          else find_in_item input path rest
      end
  end.

(** [(targetPath, targetMethod, targetOperation)], or nothing. *)
Fixpoint find_operation (input : LookupInput) (ps : Paths)
    : option (string * string * Operation) :=
  match ps with
  | [] => None
  | (path, pathItem) :: rest =>
      match pathItem with
      | None => find_operation input rest
      | Some entries =>
          match find_in_item input path entries with
          | Some (method, op) => Some (path, method, op)
          | None => find_operation input rest
          end
      end
  end.

(** The detail record, without the parameter, request-body and response
    schemas, which no property below reads. *)
Record EndpointDetails : Type := mkDetails {
  ed_operationId : string;
  ed_method : string;
  ed_path : string;
  ed_summary : string;
  ed_description : string;
  ed_tags : list string;
  ed_deprecated : bool
}.

Definition details (path method : string) (op : Operation) : EndpointDetails :=
  {| ed_operationId := JS.or_else (operationId op) (method ++ "-" ++ path);
     ed_method := JS.toUpperCase method;
     ed_path := path;
     ed_summary := JS.or_else (summary op) "";
     ed_description := JS.or_else (description op) "";
     ed_tags := tagsOf op;
     ed_deprecated := deprecatedOf op |}.

Definition not_found : string :=
  "Endpoint not found. Use list_endpoints to see available endpoints.".

(** ** Tool 3: search_endpoints *)

Record SearchInput : Type := mkSearchInput {
  search_query : string;
  search_limit : Z
}.

Record SearchHit : Type := mkHit {
  sh_operationId : string;
  sh_method : string;
  sh_path : string;
  sh_summary : string;
  sh_description : string;
  sh_tags : list string
}.

(** The text searched: path, summary, description, the tags and the id,
    joined by spaces, in lower case. *)
Definition searchText (method path : string) (op : Operation) : string :=
  JS.toLowerCase
    (JS.join " "
       ([path; JS.or_else (summary op) ""; JS.or_else (description op) ""]
          ++ tagsOf op ++ [operationIdOf method path op])%list).

Definition hit (method path : string) (op : Operation) : SearchHit :=
  {| sh_operationId := operationIdOf method path op;
     sh_method := JS.toUpperCase method;
     sh_path := path;
     sh_summary := JS.or_else (summary op) "";
     sh_description := JS.or_else (description op) "";
     sh_tags := tagsOf op |}.

Fixpoint search_operations (input : SearchInput) (path : string)
    (entries : PathItem) (results : list SearchHit) : list SearchHit :=
  match entries with
  | [] => results
  | (method, operation) :: rest =>
      match operation with
      | None => search_operations input path rest results
      | Some op =>
          if String.eqb method "$ref" then search_operations input path rest results
          else
            let results' :=
              if JS.includes (searchText method path op)
                   (JS.toLowerCase (search_query input))
              then (results ++ [hit method path op])%list
              else results in
            if reached results' (search_limit input) then results'
            else search_operations input path rest results'
      end
  end.

Fixpoint search_paths (input : SearchInput) (ps : Paths)
    (results : list SearchHit) : list SearchHit :=
  match ps with
  | [] => results
  | (path, pathItem) :: rest =>
      match pathItem with
      | None => search_paths input rest results
      | Some entries =>
          let results' := search_operations input path entries results in
          if reached results' (search_limit input) then results'
          else search_paths input rest results'
      end
  end.

(** ** Tool 4: make_api_call *)

Record CallInput : Type := mkCallInput {
  call_lookup : LookupInput;
  call_parameters : option (JS.obj JS.value);
  call_body : JS.value;
  call_auth : option AuthConfig
}.

Record AxiosConfig : Type := mkConfig {
  cfg_method : string;
  cfg_url : string;
  cfg_headers : JS.obj string;
  cfg_data : JS.value;
  cfg_params : JS.obj JS.value
}.

Fixpoint drop_last (s : string) : string :=
  match s with
  | EmptyString => EmptyString
  | String _ EmptyString => EmptyString
  | String c rest => String c (drop_last rest)
  end.

(** [segment.slice(1, -1)] *)
Definition slice_1_m1 (segment : string) : string := drop_last (JS.drop 1 segment).

(** The set [pathParams]: the names of the [{name}] segments. *)
Definition pathParams (targetPath : string) : list string :=
  map slice_1_m1
    (filter (fun segment => JS.startsWith segment "{" && JS.endsWith segment "}")
       (JS.split "/" targetPath)).

Definition has (names : list string) (key : string) : bool :=
  existsb (String.eqb key) names.

(** The loop that fills the path parameters in. *)
Definition substitute (names : list string) (params : JS.obj JS.value)
    (url : string) : string :=
  fold_left
    (fun url kv =>
       if has names (fst kv)
       then JS.replace url ("{" ++ fst kv ++ "}")
              (JS.encodeURIComponent (JS.to_string (snd kv)))
       else url)
    params url.

(** [queryParams]: the entries whose key is no path parameter. *)
Definition queryParams (names : list string) (params : JS.obj JS.value)
    : JS.obj JS.value :=
  fold_left (fun acc kv => JS.obj_set acc (fst kv) (snd kv))
    (filter (fun kv => negb (has names (fst kv))) params) [].

(** [input.auth?.type !== "none" ? input.auth : undefined] *)
Definition call_credentials (auth : option AuthConfig) : option AuthConfig :=
  match auth with
  | Some a => match type a with none => None | _ => Some a end
  | None => None
  end.

Definition as_values (o : JS.obj string) : JS.obj JS.value :=
  map (fun kv => (fst kv, JS.VString (snd kv))) o.

(** The request handed to axios for the operation found. *)
Definition request_config (s : Server) (targetPath targetMethod : string)
    (input : CallInput) : AxiosConfig :=
  let params := match call_parameters input with Some p => p | None => [] end in
  let names := pathParams targetPath in
  let url := substitute names params (apiBaseUrl s ++ targetPath) in
  let auth := call_credentials (call_auth input) in
  {| cfg_method := targetMethod;
     cfg_url := url;
     cfg_headers := getAuthHeaders (defaultAuth s) auth;
     cfg_data := call_body input;
     cfg_params :=
       JS.spread (queryParams names params)
         (as_values (getAuthQueryParams (defaultAuth s) auth)) |}.

(** ** The four tools *)

Inductive Result : Type :=
  | Listing (total : nat) (endpoints : list ListedEndpoint)
  | Details (d : EndpointDetails)
  | Hits (query : string) (total : nat) (results : list SearchHit)
  | Message (text : string)
  | ApiResponse (body : string) (statusLine : string).

Definition list_endpoints (s : Server) (input : ListInput) : outcome Result :=
  let endpoints := list_paths input (paths s) [] in
  Returned (Listing (List.length endpoints) endpoints).

Definition get_endpoint_details (s : Server) (input : LookupInput) : outcome Result :=
  match find_operation input (paths s) with
  | None => Returned (Message not_found)
  | Some (targetPath, targetMethod, targetOperation) =>
      Returned (Details (details targetPath targetMethod targetOperation))
  end.

Definition search_endpoints (s : Server) (input : SearchInput) : outcome Result :=
  let results := search_paths input (paths s) [] in
  Returned (Hits (search_query input) (List.length results) results).

Definition make_api_call (axios : AxiosConfig -> TransportOutcome)
    (s : Server) (input : CallInput) : outcome Result :=
  match find_operation (call_lookup input) (paths s) with
  | None => Returned (Message not_found)
  | Some (targetPath, targetMethod, _) =>
      match axios (request_config s targetPath targetMethod input) with
      | Responded r =>
          Returned (ApiResponse (data r)
                      ("HTTP Status Code: " ++ JS.to_string (JS.VNumber (status r))))
      | FailedWith r =>
          Returned (Message ("Error " ++ JS.to_string (JS.VNumber (status r))
                               ++ ": " ++ data r))
      | Failed message => Returned (Message ("Error: " ++ message))
      end
  end.

(** A tool invocation and its effect on the server: the handlers read
    [this.swaggerSpec] and the other fields and assign none of them. *)
Inductive ToolCall : Type :=
  | CallList (input : ListInput)
  | CallDetails (input : LookupInput)
  | CallSearch (input : SearchInput)
  | CallMake (input : CallInput).

Definition invoke (axios : AxiosConfig -> TransportOutcome)
    (s : Server) (c : ToolCall) : outcome Result * Server :=
  match c with
  | CallList input => (list_endpoints s input, s)
  | CallDetails input => (get_endpoint_details s input, s)
  | CallSearch input => (search_endpoints s input, s)
  | CallMake input => (make_api_call axios s input, s)
  end.

End Swagger.

(* ================================================================== *)
(** * The header resolver of the legacy SwaggerMcpServer *)
(* ================================================================== *)

Module Legacy.

(** [operation?.security || swaggerSpec?.security || []]: an array is
    truthy, the empty one too. *)
Definition requiredSchemes (specSecurity : option (list SecurityRequirement))
    (operation : option Operation) : list SecurityRequirement :=
  match match operation with Some op => security op | None => None end with
  | Some required => required
  | None => match specSecurity with Some required => required | None => [] end
  end.

Definition getAuthHeaders (defaultAuth : option AuthConfig)
    (specSecurity : option (list SecurityRequirement))
    (auth : option AuthConfig) (operation : option Operation) : JS.obj string :=
  match resolveAuth auth defaultAuth with
  | None => []
  | Some authConfig =>
      match requiredSchemes specSecurity operation with
      | [] => []
      | _ :: _ =>
          match type authConfig with
          | basic =>
              if JS.present (username authConfig) && JS.present (password authConfig)
              then [("Authorization",
                     "Basic " ++ JS.base64 (JS.tpl (username authConfig) ++ ":"
                                              ++ JS.tpl (password authConfig)))]
              else []
          | bearer | oauth2 =>
              if JS.present (token authConfig)
              then [("Authorization", "Bearer " ++ JS.tpl (token authConfig))]
              else []
          | apiKey =>
              if JS.present (apiKeyValue authConfig)
              then [("api_key", JS.tpl (apiKeyValue authConfig))]
              else []
          | none => []
          end
      end
  end.

(** The credentials of one [make_api_call] of the legacy server: the
    headers and the query parameters added to the request. *)
Definition call_headers (defaultAuth : option AuthConfig)
    (specSecurity : option (list SecurityRequirement))
    (auth : option AuthConfig) (targetOperation : Operation) : JS.obj string :=
  getAuthHeaders defaultAuth specSecurity auth (Some targetOperation).

Definition call_query (defaultAuth auth : option AuthConfig) : JS.obj string :=
  getAuthQueryParams defaultAuth auth.

End Legacy.

(* ================================================================== *)
(** * SimplePostmanMcpServer (src/postman-mcp-simple.ts) *)
(* ================================================================== *)

Module Postman.

(** A request description: a string, or an object that may have a
    [content]. *)
Inductive Description : Type :=
  | DescText (s : string)
  | DescObject (content : option string).

(** What the server reads of a collection request: [url] is the text
    [request.url.toString()] gives. *)
Record PmRequest : Type := mkPmRequest {
  pm_method : option string;
  pm_url : option string;
  pm_description : option Description
}.

(** The item tree: a leaf [Item], or an [ItemGroup] (a folder). *)
Inductive Item : Type :=
  | Leaf (name : option string) (request : option PmRequest)
  | Folder (name : option string) (items : list Item).

(** An element of [this.requests]. *)
Record Request : Type := mkRequest {
  id : string;
  name : string;
  method : string;
  url : string;
  description : string;
  folder : string;
  request : PmRequest
}.

Record Server : Type := mkServer {
  requests : list Request;
  environment : JS.obj JS.value;
  defaultAuth : option AuthConfig
}.

(** [.replace(/[^a-zA-Z0-9_]/g, "_").toLowerCase()] *)
Definition slug (s : string) : string :=
  JS.toLowerCase
    (JS.map_chars (fun c => if JS.is_word_char c then c else "_"%char) s).

Definition descriptionOf (r : PmRequest) : string :=
  match pm_description r with
  | Some (DescText s) => s
  | Some (DescObject (Some content)) => content
  | Some (DescObject None) => ""
  | None => ""
  end.

(** [parseItem]; an absent [folderPath] argument takes the default [""]. *)
Fixpoint parseItem (item : Item) (folderPath : string) : list Request :=
  match item with
  | Leaf itemName (Some r) =>
      [ {| id := slug (folderPath ++ JS.tpl itemName);
           name := JS.or_else itemName "Unnamed Request";
           method := JS.or_else (pm_method r) "GET";
           url := JS.or_else (pm_url r) "";
           description := descriptionOf r;
           folder := folderPath;
           request := r |} ]
  | Leaf _ None => []
  | Folder itemName items =>
      let newFolderPath :=
        if String.eqb folderPath ""
        then match itemName with Some n => n | None => "" end
        else folderPath ++ "/" ++ JS.tpl itemName in
      flat_map (fun subItem => parseItem subItem newFolderPath) items
  end.

(** [parseAllRequests]: the value given to [this.requests]. *)
Definition parseAllRequests (collection : list Item) : list Request :=
  flat_map (fun item => parseItem item "") collection.

(** ** Variables *)

(** The longest run of word characters at the head, and what follows. *)
Fixpoint word_run (s : string) : string * string :=
  match s with
  | EmptyString => (EmptyString, EmptyString)
  | String c rest =>
      if JS.is_word_char c
      then let (w, t) := word_run rest in (String c w, t)
      else (EmptyString, s)
  end.

(** A match of [/\{\{(\w+)\}\}/] at the head: two opening braces, the
    longest run of word characters, not empty, and two closing braces.
    The result is the variable name. *)
Definition match_token (s : string) : option string :=
  if JS.startsWith s "{{" then
    let (w, t) := word_run (JS.drop 2 s) in
    if negb (String.eqb w "") && JS.startsWith t "}}" then Some w else None
  else None.

(** [this.environment[variableName] || match], as the string that takes
    the place of the match.  The environment is an object literal: a name
    it has no entry for is looked up in [Object.prototype], whose members
    are functions or objects, all truthy. *)
Definition lookup_variable (env : JS.obj JS.value) (variableName : string) : string :=
  match JS.obj_get env variableName with
  | Some v => if JS.truthy v then JS.to_string v else "{{" ++ variableName ++ "}}"
  | None =>
      match JS.inherited variableName with
      | Some text => text
      | None => "{{" ++ variableName ++ "}}"
      end
  end.

(** The global replace, left to right: [skip] counts the characters of the
    current match still to pass over. *)
Fixpoint resolve (env : JS.obj JS.value) (skip : nat) (text : string) : string :=
  match text with
  | EmptyString => EmptyString
  | String c rest =>
      match skip with
      | S k => resolve env k rest
      | O =>
          match match_token text with
          | Some variableName =>
              lookup_variable env variableName
              ++ resolve env (String.length variableName + 3) rest
          | None => String c (resolve env 0 rest)
          end
      end
  end.

Definition resolveVariables (env : JS.obj JS.value) (text : string) : string :=
  resolve env 0 text.

(** ** Relevance *)

(** The body of the [forEach] of [calculateRelevance]. *)
Definition score_word (text : string) (score : Q) (word : string) : Q :=
  if JS.includes text word then
    let score := (score + 1)%Q in
    if JS.includes text (" " ++ word ++ " ")
       || JS.startsWith text word || JS.endsWith text word
    then (score + (1 # 2))%Q
    else score
  else score.

Definition calculateRelevance (query text : string) : Q :=
  fold_left (score_word text) (JS.split " " query) 0%Q.

(** ** Tool 3: search_requests *)

Record SearchInput : Type := mkSearchInput {
  search_query : string;
  search_limit : Z
}.

Record SearchHit : Type := mkHit {
  sh_id : string;
  sh_name : string;
  sh_method : string;
  sh_url : string;
  sh_folder : string;
  sh_description : string
}.

Definition searchText (req : Request) : string :=
  JS.toLowerCase
    (JS.join " " [name req; description req; url req; folder req; method req]).

(** [d.substring(0, 100) + (d.length > 100 ? "..." : "")] *)
Definition short_description (d : string) : string :=
  String.substring 0 100 d ++ (if (100 <? String.length d)%nat then "..." else "").

Definition hit (req : Request) : SearchHit :=
  {| sh_id := id req;
     sh_name := name req;
     sh_method := method req;
     sh_url := url req;
     sh_folder := folder req;
     sh_description := short_description (description req) |}.

(** The scan: a match is pushed with its relevance, and the scan stops
    when the results have reached the limit. *)
Fixpoint collect (query : string) (limit : Z) (reqs : list Request)
    (results : list (SearchHit * Q)) : list (SearchHit * Q) :=
  match reqs with
  | [] => results
  | req :: rest =>
      if JS.includes (searchText req) query then
        let results' :=
          (results ++ [(hit req, calculateRelevance query (searchText req))])%list in
        if reached results' limit then results'
        else collect query limit rest results'
      else collect query limit rest results
  end.

(** [results.sort((a, b) => b.relevance - a.relevance)].  The comparator
    puts [a] before [b] when it is negative; [Array.prototype.sort] is
    stable, so elements that compare equal keep their order.  [before a b]
    says that the comparator does not put [b] first. *)
Definition before (a b : SearchHit * Q) : bool := Qle_bool (snd b) (snd a).

Fixpoint insert (a : SearchHit * Q) (sorted : list (SearchHit * Q))
    : list (SearchHit * Q) :=
  match sorted with
  | [] => [a]
  | b :: rest => if before a b then a :: b :: rest else b :: insert a rest
  end.

Definition sort (results : list (SearchHit * Q)) : list (SearchHit * Q) :=
  fold_right insert [] results.

(** The results in the order of the output, relevance still attached. *)
Definition ranked (s : Server) (input : SearchInput) : list (SearchHit * Q) :=
  sort (collect (JS.toLowerCase (search_query input)) (search_limit input)
          (requests s) []).

(** ** Tools 2 and 4: the lookup *)

Record LookupInput : Type := mkLookup {
  in_requestId : option string;
  in_name : option string
}.

Definition selects (input : LookupInput) (req : Request) : bool :=
  match in_requestId input with
  | Some i => String.eqb (id req) i
  | None => false
  end
  || match in_name input with
     | Some n => String.eqb (JS.toLowerCase (name req)) (JS.toLowerCase n)
     | None => false
     end.

Definition find_request (input : LookupInput) (reqs : list Request) : option Request :=
  find (selects input) reqs.

Definition not_found : string :=
  "Request not found. Use list_requests to see available requests.".

(** The detail record, without the query, path, header and body listings
    taken from the collection request. *)
Record RequestDetails : Type := mkDetails {
  rd_id : string;
  rd_name : string;
  rd_method : string;
  rd_url : string;
  rd_folder : string;
  rd_description : string
}.

(** ** executeRequest *)

Record AxiosConfig : Type := mkConfig {
  cfg_method : string;
  cfg_url : string;
  cfg_headers : JS.obj JS.value;
  cfg_params : JS.obj JS.value;
  cfg_data : option string
}.

Definition defined (v : JS.value) : bool :=
  match v with JS.VUndefined => false | _ => true end.

(** The first loop: the three spellings of a path variable. *)
Definition substitute_one (url : string) (kv : string * JS.value) : string :=
  if defined (snd kv) then
    let encoded := JS.encodeURIComponent (JS.to_string (snd kv)) in
    let url := JS.replace url (":" ++ fst kv) encoded in
    let url := JS.replace url ("{{" ++ fst kv ++ "}}") encoded in
    JS.replace url ("{" ++ fst kv ++ "}") encoded
  else url.

Definition substitute (parameters : JS.obj JS.value) (url : string) : string :=
  fold_left substitute_one parameters url.

(** The second loop: the query parameters, started from the credentials. *)
Definition add_query (url : string) (queryParams : JS.obj JS.value)
    (kv : string * JS.value) : JS.obj JS.value :=
  if defined (snd kv)
     && negb (JS.includes url (":" ++ fst kv))
     && negb (JS.includes url ("{{" ++ fst kv ++ "}}"))
  then JS.obj_set queryParams (fst kv) (snd kv)
  else queryParams.

(** The third loop: parameters whose name mentions "header". *)
Definition add_header (headers : JS.obj JS.value) (kv : string * JS.value)
    : JS.obj JS.value :=
  if defined (snd kv) && JS.includes (JS.toLowerCase (fst kv)) "header"
  then JS.obj_set headers (fst kv) (snd kv)
  else headers.

Definition as_values (o : JS.obj string) : JS.obj JS.value :=
  map (fun kv => (fst kv, JS.VString (snd kv))) o.

Definition final_url (s : Server) (r : PmRequest) (parameters : JS.obj JS.value) : string :=
  substitute parameters (resolveVariables (environment s) (JS.or_else (pm_url r) "")).

(** The configuration handed to axios. *)
Definition request_config (s : Server) (r : PmRequest)
    (parameters : JS.obj JS.value) (body : JS.value) (auth : option AuthConfig)
    : AxiosConfig :=
  let url := final_url s r parameters in
  let queryParams :=
    fold_left (add_query url) parameters
      (as_values (getAuthQueryParams (defaultAuth s) auth)) in
  let headers :=
    fold_left add_header parameters
      (as_values (getAuthHeaders (defaultAuth s) auth)) in
  let headers :=
    if JS.truthy body
       && negb (match JS.obj_get headers "Content-Type" with
                | Some v => JS.truthy v
                | None => false
                end)
    then JS.obj_set headers "Content-Type" (JS.VString "application/json")
    else headers in
  {| cfg_method := JS.or_else (pm_method r) "GET";
     cfg_url := url;
     cfg_headers := headers;
     cfg_params := queryParams;
     cfg_data :=
       if JS.truthy body then Some (JS.to_string body) else None |}.

Record Executed : Type := mkExecuted {
  ex_response : HttpResponse;
  ex_error : bool
}.

Definition executeRequest (axios : AxiosConfig -> TransportOutcome)
    (s : Server) (r : PmRequest) (parameters : JS.obj JS.value)
    (body : JS.value) (auth : option AuthConfig) : outcome Executed :=
  match axios (request_config s r parameters body auth) with
  | Responded resp => Returned {| ex_response := resp; ex_error := false |}
  | FailedWith resp => Returned {| ex_response := resp; ex_error := true |}
  | Failed message => Thrown message
  end.

(** ** The tools *)

Record CallInput : Type := mkCallInput {
  call_lookup : LookupInput;
  call_parameters : option (JS.obj JS.value);
  call_body : JS.value;
  call_auth : option AuthConfig
}.

Inductive Result : Type :=
  | Details (d : RequestDetails)
  | Hits (query : string) (total : nat) (results : list SearchHit)
  | Message (text : string)
  | Execution (e : Executed).

Definition get_request_details (s : Server) (input : LookupInput) : outcome Result :=
  match find_request input (requests s) with
  | None => Returned (Message not_found)
  | Some targetRequest =>
      Returned (Details {| rd_id := id targetRequest;
                           rd_name := name targetRequest;
                           rd_method := method targetRequest;
                           rd_url := url targetRequest;
                           rd_folder := folder targetRequest;
                           rd_description := description targetRequest |})
  end.

Definition search_requests (s : Server) (input : SearchInput) : outcome Result :=
  let results := ranked s input in
  Returned (Hits (search_query input) (List.length results) (map fst results)).

Definition make_request (axios : AxiosConfig -> TransportOutcome)
    (s : Server) (input : CallInput) : outcome Result :=
  match find_request (call_lookup input) (requests s) with
  | None => Returned (Message not_found)
  | Some targetRequest =>
      match executeRequest axios s (request targetRequest)
              (match call_parameters input with Some p => p | None => [] end)
              (call_body input) (call_auth input) with
      | Returned e => Returned (Execution e)
      | Thrown message => Returned (Message ("Error: " ++ message))
      end
  end.

Inductive ToolCall : Type :=
  | CallDetails (input : LookupInput)
  | CallSearch (input : SearchInput)
  | CallMake (input : CallInput).

(** The handlers read [this.requests] and [this.environment] and assign
    neither. *)
Definition invoke (axios : AxiosConfig -> TransportOutcome)
    (s : Server) (c : ToolCall) : outcome Result * Server :=
  match c with
  | CallDetails input => (get_request_details s input, s)
  | CallSearch input => (search_requests s input, s)
  | CallMake input => (make_request axios s input, s)
  end.

End Postman.

(* ================================================================== *)
(** * The tool names of the legacy PostmanMcpServer *)
(* ================================================================== *)

Module LegacyPostman.

(** [.replace(/_+/g, "_")] *)
Fixpoint collapse (s : string) : string :=
  match s with
  | EmptyString => EmptyString
  | String c rest =>
      if Ascii.eqb c "_"%char && JS.startsWith rest "_" then collapse rest
      else String c (collapse rest)
  end.

Fixpoint trim_left (s : string) : string :=
  match s with
  | EmptyString => EmptyString
  | String c rest => if Ascii.eqb c "_"%char then trim_left rest else s
  end.

Fixpoint trim_right (s : string) : string :=
  match s with
  | EmptyString => EmptyString
  | String c rest =>
      let r := trim_right rest in
      if Ascii.eqb c "_"%char && String.eqb r "" then EmptyString else String c r
  end.

(** The name before it is made unique. *)
Definition toolNameOf (baseName : string) : string :=
  let toolName := Postman.slug baseName in
  let toolName := collapse toolName in
  let toolName := trim_right (trim_left toolName) in
  let toolName :=
    match toolName with
    | String c _ => if JS.is_digit c then "api_" ++ toolName else toolName
    | EmptyString => toolName
    end in
  if String.eqb toolName "" then "unnamed_request" else toolName.

(** The [while] loop: [fuel] bounds the number of turns; one more than
    the number of names in use is enough. *)
Fixpoint unique (fuel : nat) (used : list string) (toolName uniqueName : string)
    (counter : Z) : string :=
  if existsb (String.eqb uniqueName) used then
    match fuel with
    | O => uniqueName
    | S fuel' =>
        unique fuel' used toolName
          (toolName ++ "_" ++ JS.to_string (JS.VNumber counter)) (counter + 1)%Z
    end
  else uniqueName.

Definition generateUniqueToolName (used : list string) (baseName : string) : string :=
  let toolName := toolNameOf baseName in
  unique (S (List.length used)) used toolName toolName 1%Z.

(** [registerItem]: the names in use after the item has been registered,
    in the order of registration. *)
Fixpoint registerItem (item : Postman.Item) (prefix : string) (used : list string)
    : list string :=
  match item with
  | Postman.Leaf itemName (Some _) =>
      (used ++ [generateUniqueToolName used (prefix ++ JS.tpl itemName)])%list
  | Postman.Leaf _ None => used
  | Postman.Folder itemName items =>
      let folderPrefix := Postman.slug (prefix ++ JS.tpl itemName ++ "_") in
      fold_left (fun used subItem => registerItem subItem folderPrefix used) items used
  end.

Definition registerTools (collection : list Postman.Item) : list string :=
  fold_left (fun used item => registerItem item "" used) collection [].

End LegacyPostman.

(* ================================================================== *)
(** * SimplePostmanMcpServer: the listing tool and the environment *)
(* ================================================================== *)

Module PostmanListing.

(** ** Tool 1: list_requests *)

Record ListInput : Type := mkListInput {
  list_method : option string;
  list_folder : option string;
  list_limit : Z
}.

Record ListedRequest : Type := mkListed {
  lr_id : string;
  lr_name : string;
  lr_method : string;
  lr_url : string;
  lr_folder : string;
  lr_description : string
}.

Record Listing : Type := mkListing {
  listing_total : nat;
  listing_requests : list ListedRequest
}.

(** [l.slice(0, limit)]: a negative limit counts from the end. *)
Definition slice_0 {A} (limit : Z) (l : list A) : list A :=
  if (limit <? 0)%Z
  then firstn (Z.to_nat (Z.of_nat (List.length l) + limit)) l
  else firstn (Z.to_nat limit) l.

(** The two filters: an absent or empty filter keeps every request. *)
Definition filteredRequests (input : ListInput) (requests : list Postman.Request)
    : list Postman.Request :=
  let filteredRequests := requests in
  let filteredRequests :=
    if JS.present (list_method input)
    then filter
           (fun req =>
              String.eqb (JS.toLowerCase (Postman.method req))
                (JS.toLowerCase (JS.tpl (list_method input))))
           filteredRequests
    else filteredRequests in
  if JS.present (list_folder input)
  then filter
         (fun req =>
            JS.includes (JS.toLowerCase (Postman.folder req))
              (JS.toLowerCase (JS.tpl (list_folder input))))
         filteredRequests
  else filteredRequests.

Definition listed (req : Postman.Request) : ListedRequest :=
  {| lr_id := Postman.id req;
     lr_name := Postman.name req;
     lr_method := Postman.method req;
     lr_url := Postman.url req;
     lr_folder := Postman.folder req;
     lr_description := Postman.short_description (Postman.description req) |}.

Definition list_requests (s : Postman.Server) (input : ListInput) : outcome Listing :=
  let limitedRequests :=
    slice_0 (list_limit input) (filteredRequests input (Postman.requests s)) in
  Returned {| listing_total := List.length limitedRequests;
              listing_requests := map listed limitedRequests |}.

(** ** loadEnvironment *)

(** The loop over [environmentData.values], [None] when the field is
    absent: each variable is assigned to [this.environment], which is
    not emptied first. *)
Definition loadEnvironment (values : option (list (string * JS.value)))
    (s : Postman.Server) : Postman.Server :=
  match values with
  | Some variables =>
      Postman.mkServer (Postman.requests s)
        (fold_left
           (fun environment variable =>
              JS.obj_set environment (fst variable) (snd variable))
           variables (Postman.environment s))
        (Postman.defaultAuth s)
  | None => s
  end.

End PostmanListing.

(* ================================================================== *)
(** * The search of the legacy SwaggerMcpServer *)
(* ================================================================== *)

Module LegacySearch.

(** The scan of [search_endpoints]: the loops of the simple server, each
    match with its relevance beside it.  [calculateRelevance] has the
    text of the Postman server's. *)
Fixpoint search_operations (input : Swagger.SearchInput) (path : string)
    (entries : PathItem) (results : list (Swagger.SearchHit * Q))
    : list (Swagger.SearchHit * Q) :=
  match entries with
  | [] => results
  | (method, operation) :: rest =>
      match operation with
      | None => search_operations input path rest results
      | Some op =>
          if String.eqb method "$ref" then search_operations input path rest results
          else
            let query := JS.toLowerCase (Swagger.search_query input) in
            let searchText := Swagger.searchText method path op in
            let results' :=
              if JS.includes searchText query
              then (results ++ [(Swagger.hit method path op,
                                 Postman.calculateRelevance query searchText)])%list
              else results in
            if reached results' (Swagger.search_limit input) then results'
            else search_operations input path rest results'
      end
  end.

Fixpoint search_paths (input : Swagger.SearchInput) (ps : Paths)
    (results : list (Swagger.SearchHit * Q)) : list (Swagger.SearchHit * Q) :=
  match ps with
  | [] => results
  | (path, pathItem) :: rest =>
      match pathItem with
      | None => search_paths input rest results
      | Some entries =>
          let results' := search_operations input path entries results in
          if reached results' (Swagger.search_limit input) then results'
          else search_paths input rest results'
      end
  end.

(** [results.sort((a, b) => b.relevance - a.relevance)], stable. *)
Definition before (a b : Swagger.SearchHit * Q) : bool := Qle_bool (snd b) (snd a).

Fixpoint insert (a : Swagger.SearchHit * Q) (sorted : list (Swagger.SearchHit * Q))
    : list (Swagger.SearchHit * Q) :=
  match sorted with
  | [] => [a]
  | b :: rest => if before a b then a :: b :: rest else b :: insert a rest
  end.

Definition sort (results : list (Swagger.SearchHit * Q)) : list (Swagger.SearchHit * Q) :=
  fold_right insert [] results.

(** The results in the order of the output, relevance still attached. *)
Definition ranked (ps : Paths) (input : Swagger.SearchInput)
    : list (Swagger.SearchHit * Q) :=
  sort (search_paths input ps []).

Definition search_endpoints (ps : Paths) (input : Swagger.SearchInput)
    : outcome Swagger.Result :=
  let results := ranked ps input in
  Returned (Swagger.Hits (Swagger.search_query input) (List.length results)
              (map fst results)).

End LegacySearch.

(* ================================================================== *)
(** * The request of the legacy PostmanMcpServer *)
(* ================================================================== *)

Module LegacyRequest.

(** The body of the loops of [executeRequest] over the keys of the tool
    input that start with [query_] or [header_]: the prefix is taken
    off, and a defined value is assigned under the name that is left. *)
Definition add_prefixed (prefix : string) (target : JS.obj JS.value)
    (kv : string * JS.value) : JS.obj JS.value :=
  if JS.startsWith (fst kv) prefix then
    let name := JS.replace (fst kv) prefix "" in
    if Postman.defined (snd kv) then JS.obj_set target name (snd kv) else target
  else target.

(** [config.params] *)
Definition queryParams (defaultAuth : option AuthConfig) (input : JS.obj JS.value)
    (auth : option AuthConfig) : JS.obj JS.value :=
  fold_left (add_prefixed "query_") input
    (Postman.as_values (getAuthQueryParams defaultAuth auth)).

(** [config.headers] *)
Definition headers (defaultAuth : option AuthConfig) (input : JS.obj JS.value)
    (body : JS.value) (auth : option AuthConfig) : JS.obj JS.value :=
  let headers :=
    fold_left (add_prefixed "header_") input
      (Postman.as_values (getAuthHeaders defaultAuth auth)) in
  if JS.truthy body
     && negb (match JS.obj_get headers "Content-Type" with
              | Some v => JS.truthy v
              | None => false
              end)
  then JS.obj_set headers "Content-Type" (JS.VString "application/json")
  else headers.

End LegacyRequest.

(* ================================================================== *)
(** * Notions used to state the properties *)
(* ================================================================== *)

(** The operations of a document in the order the four tools scan them:
    falsy path items, the [$ref] key and falsy values are passed over. *)
Definition item_operations (path : string) (entries : PathItem)
    : list (string * string * Operation) :=
  flat_map
    (fun entry =>
       match snd entry with
       | Some op =>
           if String.eqb (fst entry) "$ref" then [] else [(path, fst entry, op)]
       | None => []
       end)
    entries.

Definition operations (ps : Paths) : list (string * string * Operation) :=
  flat_map
    (fun entry =>
       match snd entry with
       | Some entries => item_operations (fst entry) entries
       | None => []
       end)
    ps.

(** The output the specification documents for a credential bundle:
    headers and query parameters.  A field is present when it is a
    non-empty string. *)
Inductive documented_output : AuthConfig -> JS.obj string -> JS.obj string -> Prop :=
  | doc_basic a u p :
      type a = basic -> username a = Some u -> password a = Some p ->
      u <> "" -> p <> "" ->
      documented_output a [("Authorization", "Basic " ++ JS.base64 (u ++ ":" ++ p))] []
  | doc_bearer a t :
      type a = bearer \/ type a = oauth2 -> token a = Some t -> t <> "" ->
      documented_output a [("Authorization", "Bearer " ++ t)] []
  | doc_key_header a k n :
      type a = apiKey -> apiKeyValue a = Some k -> apiKeyName a = Some n ->
      k <> "" -> n <> "" -> apiKeyIn a = Some header ->
      documented_output a [(n, k)] []
  | doc_key_query a k n :
      type a = apiKey -> apiKeyValue a = Some k -> apiKeyName a = Some n ->
      k <> "" -> n <> "" -> apiKeyIn a = Some query ->
      documented_output a [] [(n, k)]
  | doc_missing a :
      missing_field a -> documented_output a [] []

with missing_field : AuthConfig -> Prop :=
  | miss_none a : type a = none -> missing_field a
  | miss_username a : type a = basic -> JS.present (username a) = false -> missing_field a
  | miss_password a : type a = basic -> JS.present (password a) = false -> missing_field a
  | miss_token a :
      type a = bearer \/ type a = oauth2 -> JS.present (token a) = false ->
      missing_field a
  | miss_key a : type a = apiKey -> JS.present (apiKeyValue a) = false -> missing_field a
  | miss_name a : type a = apiKey -> JS.present (apiKeyName a) = false -> missing_field a
  | miss_in a : type a = apiKey -> apiKeyIn a = None -> missing_field a.

(** The hits of the matching operations of a document, in scan order. *)
Definition operation_matches (input : Swagger.SearchInput)
    (x : string * string * Operation) : bool :=
  JS.includes (Swagger.searchText (snd (fst x)) (fst (fst x)) (snd x))
    (JS.toLowerCase (Swagger.search_query input)).

Definition operation_hit (x : string * string * Operation) : Swagger.SearchHit :=
  Swagger.hit (snd (fst x)) (fst (fst x)) (snd x).

Definition matching_operations (input : Swagger.SearchInput) (ops : list (string * string * Operation))
    : list Swagger.SearchHit :=
  map operation_hit (filter (operation_matches input) ops).

(** The matching requests with their relevance, in the order of
    [this.requests]. *)
Definition matching_requests (query : string) (reqs : list Postman.Request)
    : list (Postman.SearchHit * Q) :=
  map (fun req => (Postman.hit req,
                   Postman.calculateRelevance query (Postman.searchText req)))
    (filter (fun req => JS.includes (Postman.searchText req) query) reqs).

(** The Postman search as the specification words it: every match of the
    full scan, sorted by relevance, and only then cut to the limit. *)
Definition sort_then_truncate (s : Postman.Server) (input : Postman.SearchInput)
    : list (Postman.SearchHit * Q) :=
  firstn (Z.to_nat (Postman.search_limit input))
    (Postman.sort
       (matching_requests (JS.toLowerCase (Postman.search_query input))
          (Postman.requests s))).

(** What one query word adds to the score. *)
Definition contribution (text word : string) : Q := Postman.score_word text 0%Q word.

Definition total (scores : list Q) : Q := fold_right Qplus 0%Q scores.

(** [word] is at the head of [text] and is followed by a space or by the
    end of the text. *)
Definition word_at_head (text word : string) : bool :=
  String.prefix word text &&
  match JS.drop (String.length word) text with
  | EmptyString => true
  | String c _ => Ascii.eqb c " "%char
  end.

(** A whole-word occurrence: [word] occurs in [text] between two
    boundaries, each a space or an end of the text.  [boundary] tells
    whether the position reached is preceded by one. *)
Fixpoint whole_word_from (boundary : bool) (text word : string) {struct text} : bool :=
  (boundary && word_at_head text word) ||
  match text with
  | EmptyString => false
  | String c rest => whole_word_from (Ascii.eqb c " "%char) rest word
  end.

Definition whole_word (text word : string) : bool := whole_word_from true text word.

(** The score as the specification words it: one point for each distinct
    query word found in the text, and half a point more when the word
    occurs as a whole word. *)
Definition spec_relevance (query text : string) : Q :=
  total
    (map (fun word =>
            if JS.includes text word
            then if whole_word text word then (1 + (1 # 2))%Q else 1%Q
            else 0%Q)
       (nodup string_dec (JS.split " " query))).

(** The results that have a given score. *)
Definition with_score (v : Q) (results : list (Postman.SearchHit * Q))
    : list (Postman.SearchHit * Q) :=
  filter (fun r => Qeq_bool (snd r) v) results.

(** [a] does not rank below [b]. *)
Definition outranks (a b : Postman.SearchHit * Q) : Prop := (snd b <= snd a)%Q.

(** A collection of two requests and the server loaded from a collection. *)
Definition named (n : string) : Postman.Item :=
  Postman.Leaf (Some n) (Some (Postman.mkPmRequest (Some "GET") None None)).

Definition loaded (collection : list Postman.Item) : Postman.Server :=
  Postman.mkServer (Postman.parseAllRequests collection) [] None.

(** An operation that declares an empty security requirement list, in a
    server configured with default credentials. *)
Definition open_operation : Operation :=
  mkOperation (Some "ping") None None None None (Some []).

Definition open_server (credentials : AuthConfig) : Swagger.Server :=
  Swagger.mkServer [("/ping", Some [("get", Some open_operation)])]
    "https://api.example.com" (Some credentials).

Definition key_in_query : AuthConfig :=
  mkAuth apiKey None None None (Some "secret") (Some "api_key") (Some query).

Definition bearer_token : AuthConfig :=
  mkAuth bearer None None (Some "secret") None None None.

Definition ping : Swagger.CallInput :=
  Swagger.mkCallInput (Swagger.mkLookup (Some "ping") None None) None JS.VUndefined None.

(** A leaf item with a name and a URL. *)
Definition request_to (n u : string) : Postman.Item :=
  Postman.Leaf (Some n) (Some (Postman.mkPmRequest (Some "GET") (Some u) None)).

(** Every character of a string satisfies a test. *)
Fixpoint every (P : ascii -> bool) (s : string) : bool :=
  match s with
  | EmptyString => true
  | String c rest => P c && every P rest
  end.

Definition is_brace (c : ascii) : bool := Ascii.eqb c "{"%char || Ascii.eqb c "}"%char.

(** A text without braces, and a text of word characters. *)
Definition brace_free (s : string) : bool := every (fun c => negb (is_brace c)) s.
Definition word (s : string) : bool := every JS.is_word_char s.

(** The name a path segment declares, by the test of [make_api_call]:
    the segment starts with an opening and ends with a closing brace. *)
Definition param_name (segment : string) : option string :=
  if JS.startsWith segment "{" && JS.endsWith segment "}"
  then Some (Swagger.slice_1_m1 segment)
  else None.

(** A text without a slash. *)
Definition no_slash (s : string) : bool :=
  every (fun c => negb (Ascii.eqb c "/"%char)) s.

(** A segment that suits the substitution of the parameters [names]: a
    parameter [{name}] whose name has no brace, or any other text in which
    [{k}] occurs for no [k] of [names]. *)
Definition segment_fits (names : list string) (segment : string) : bool :=
  match param_name segment with
  | Some n => brace_free n
  | None => forallb (fun k => negb (JS.includes segment ("{" ++ k ++ "}"))) names
  end.

(** The segment as the specification fills it: a [{name}] segment whose
    name the caller supplies becomes the URL-encoded value. *)
Definition fill (params : JS.obj JS.value) (segment : string) : string :=
  match param_name segment with
  | Some n =>
      match JS.obj_get params n with
      | Some v => JS.encodeURIComponent (JS.to_string v)
      | None => segment
      end
  | None => segment
  end.

(** The URL as the specification describes it: the base URL and the
    template with every [{name}] segment the caller supplies filled in. *)
Definition filled_url (s : Swagger.Server) (targetPath : string)
    (params : JS.obj JS.value) : string :=
  Swagger.apiBaseUrl s ++ JS.join "/" (map (fill params) (JS.split "/" targetPath)).

(** The names the segments of a template declare. *)
Definition names_of (segments : list string) : list string :=
  flat_map
    (fun segment => match param_name segment with Some n => [n] | None => [] end)
    segments.

(** One step of the substitution seen on the segments: the segment
    [{k}] becomes [rep]. *)
Definition fill_one (k rep segment : string) : string :=
  if String.eqb segment ("{" ++ k ++ "}") then rep else segment.

(** The token [{{v}}]. *)
Definition var_token (v : string) : string := "{{" ++ v ++ "}}".





(** What a token becomes by the entries of the environment: the entry as
    a string when it is truthy, the token itself when the entry is falsy
    or there is none. *)
Definition entry_or_token (env : JS.obj JS.value) (v : string) : string :=
  match JS.obj_get env v with
  | Some value => if JS.truthy value then JS.to_string value else var_token v
  | None => var_token v
  end.





(** [inert pat p]: no occurrence of [pat] starts inside [p], whatever
    follows, so the replacement passes over [p]. *)
Definition inert (pat p : string) : Prop :=
  forall rest rep, JS.replace (p ++ rest) pat rep = p ++ JS.replace rest pat rep.

(* ================================================================== *)
(** * Further notions *)
(* ================================================================== *)

(** The operations [list_endpoints] does not filter out, as entries of
    its output. *)
Definition operation_listed (input : Swagger.ListInput)
    (x : string * string * Operation) : bool :=
  negb (Swagger.method_filtered input (snd (fst x)))
  && negb (Swagger.tag_filtered input (snd x)).

Definition operation_entry (x : string * string * Operation) : Swagger.ListedEndpoint :=
  Swagger.listed (snd (fst x)) (fst (fst x)) (snd x).

Definition listed_operations (input : Swagger.ListInput)
    (ops : list (string * string * Operation)) : list Swagger.ListedEndpoint :=
  map operation_entry (filter (operation_listed input) ops).

(** The test of the lookup on an element of [operations]. *)
Definition operation_selected (input : Swagger.LookupInput)
    (x : string * string * Operation) : bool :=
  Swagger.selects input (snd (fst x)) (fst (fst x)) (snd x).

(** The characters of a slug: [a-z0-9_]. *)
Definition slug_char (c : ascii) : bool :=
  JS.is_lower c || JS.is_digit c || Ascii.eqb c "_"%char.

(** The leaves of an item that carry a request, left to right, each with
    the names of the folders around it, outermost first. *)
Fixpoint leaves (item : Postman.Item) (ancestors : list string)
    : list (list string * Postman.PmRequest) :=
  match item with
  | Postman.Leaf _ (Some r) => [(ancestors, r)]
  | Postman.Leaf _ None => []
  | Postman.Folder itemName items =>
      flat_map (fun subItem => leaves subItem (ancestors ++ [JS.tpl itemName])%list) items
  end.

(** Every folder of the item has a name, and the name is not empty. *)
Fixpoint folders_named (item : Postman.Item) : bool :=
  match item with
  | Postman.Leaf _ _ => true
  | Postman.Folder itemName items => JS.present itemName && forallb folders_named items
  end.

(** The names the [while] loop of [generateUniqueToolName] tries, in
    order: the name itself, then the name with the suffixes 1, 2, ... *)
Definition candidate (toolName : string) (i : nat) : string :=
  match i with
  | O => toolName
  | S _ => toolName ++ "_" ++ JS.to_string (JS.VNumber (Z.of_nat i))
  end.

(** The names every object inherits from [Object.prototype].  In an
    object that has no property of its own under such a name a lookup
    finds the inherited value, and an assignment to [__proto__] makes no
    property: these names are outside the association lists. *)
Definition inherited_names : list string :=
  ["constructor"; "hasOwnProperty"; "isPrototypeOf"; "propertyIsEnumerable";
   "toLocaleString"; "toString"; "valueOf"; "__proto__";
   "__defineGetter__"; "__defineSetter__"; "__lookupGetter__"; "__lookupSetter__"].

(** No token of the text names an inherited property. *)
Definition own_tokens (text : string) : bool :=
  forallb (fun n => negb (JS.includes text (var_token n))) inherited_names.

(** [a] does not rank below [b], for the hits of the legacy search. *)
Definition hit_outranks (a b : Swagger.SearchHit * Q) : Prop := (snd b <= snd a)%Q.

(** The text the searches look in, read off a hit, and the relevance the
    legacy search gives the hit. *)
Definition hit_text (h : Swagger.SearchHit) : string :=
  JS.toLowerCase
    (JS.join " "
       ([Swagger.sh_path h; Swagger.sh_summary h; Swagger.sh_description h]
          ++ Swagger.sh_tags h ++ [Swagger.sh_operationId h])%list).

Definition scored (input : Swagger.SearchInput) (h : Swagger.SearchHit)
    : Swagger.SearchHit * Q :=
  (h, Postman.calculateRelevance (JS.toLowerCase (Swagger.search_query input))
        (hit_text h)).

(** The scored hits that have a given score. *)
Definition hits_with_score (v : Q) (results : list (Swagger.SearchHit * Q))
    : list (Swagger.SearchHit * Q) :=
  filter (fun r => Qeq_bool (snd r) v) results.

(* ================================================================== *)
(** * Properties *)
(* ================================================================== *)

(** ** Strings *)

Lemma present_some (s : string) : JS.present (Some s) = true <-> s <> "".
Proof.
  unfold JS.present. destruct (String.eqb_spec s ""); simpl; split; congruence.
Qed.

Lemma or_else_absent (o : option string) (dflt : string) :
  JS.present o = false -> JS.or_else o dflt = dflt.
Proof.
  destruct o as [s|]; simpl; [|reflexivity].
  destruct (String.eqb s ""); simpl; [reflexivity|discriminate].
Qed.

Lemma append_nil_r (s : string) : s ++ "" = s.
Proof. induction s; simpl; congruence. Qed.

Lemma append_assoc (a b c : string) : (a ++ b) ++ c = a ++ (b ++ c).
Proof. induction a; simpl; congruence. Qed.

Lemma length_append (a b : string) :
  String.length (a ++ b) = (String.length a + String.length b)%nat.
Proof. induction a; simpl; congruence. Qed.

Lemma prefix_nil (s : string) : String.prefix "" s = true.
Proof. destruct s; reflexivity. Qed.

Lemma prefix_cons (c d : ascii) (w s : string) :
  String.prefix (String c w) (String d s) = Ascii.eqb c d && String.prefix w s.
Proof.
  simpl. destruct (ascii_dec c d) as [->|Hn].
  - rewrite Ascii.eqb_refl. reflexivity.
  - apply Ascii.eqb_neq in Hn. rewrite Hn. reflexivity.
Qed.

Lemma prefix_append (w r : string) : String.prefix w (w ++ r) = true.
Proof.
  induction w as [|c w IH]; [apply prefix_nil|].
  simpl append. rewrite prefix_cons, Ascii.eqb_refl. exact IH.
Qed.

Lemma drop_append (w r : string) : JS.drop (String.length w) (w ++ r) = r.
Proof. induction w; simpl; [destruct r; reflexivity|assumption]. Qed.

Lemma prefix_split (w s : string) :
  String.prefix w s = true -> s = w ++ JS.drop (String.length w) s.
Proof.
  revert s. induction w as [|c w IH]; intros s H.
  - destruct s; reflexivity.
  - destruct s as [|d s]; [discriminate|].
    rewrite prefix_cons in H. apply andb_prop in H. destruct H as [Hc Hw].
    apply Ascii.eqb_eq in Hc. subst d. simpl. f_equal. apply IH. exact Hw.
Qed.

Lemma includes_unfold (c : ascii) (text word : string) :
  JS.includes (String c text) word
  = String.prefix word (String c text) || JS.includes text word.
Proof. reflexivity. Qed.

Lemma endsWith_unfold (c : ascii) (text word : string) :
  JS.endsWith (String c text) word
  = String.eqb (String c text) word || JS.endsWith text word.
Proof. reflexivity. Qed.

Lemma includes_iff (text word : string) :
  JS.includes text word = true <-> exists pre post, text = pre ++ word ++ post.
Proof.
  split.
  - induction text as [|c text IH]; intro H.
    + destruct word; [exists "", ""; reflexivity|discriminate].
    + rewrite includes_unfold in H. apply orb_prop in H. destruct H as [H|H].
      * apply prefix_split in H. exists "". eexists. exact H.
      * apply IH in H. destruct H as (pre & post & ->). exists (String c pre), post. reflexivity.
  - intros (pre & post & ->). induction pre as [|c pre IH].
    + change ("" ++ word ++ post) with (word ++ post).
      destruct (word ++ post) as [|c t] eqn:E.
      * destruct word; [reflexivity|discriminate].
      * rewrite includes_unfold, <- E, prefix_append. reflexivity.
    + change (String c pre ++ word ++ post) with (String c (pre ++ word ++ post)).
      rewrite includes_unfold, IH. apply orb_true_r.
Qed.

Lemma endsWith_iff (text word : string) :
  JS.endsWith text word = true <-> exists pre, text = pre ++ word.
Proof.
  split.
  - induction text as [|c text IH]; intro H.
    + destruct word; [exists ""; reflexivity|discriminate].
    + rewrite endsWith_unfold in H. apply orb_prop in H. destruct H as [H|H].
      * apply String.eqb_eq in H. exists "". exact H.
      * apply IH in H. destruct H as (pre & ->). exists (String c pre). reflexivity.
  - intros (pre & ->). induction pre as [|c pre IH].
    + change ("" ++ word) with word. destruct word as [|c w]; [reflexivity|].
      rewrite endsWith_unfold, String.eqb_refl. reflexivity.
    + change (String c pre ++ word) with (String c (pre ++ word)).
      rewrite endsWith_unfold, IH. apply orb_true_r.
Qed.

Lemma includes_cons (c : ascii) (text word : string) :
  JS.includes text word = true -> JS.includes (String c text) word = true.
Proof. intro H. rewrite includes_unfold, H. apply orb_true_r. Qed.

Lemma endsWith_cons (c : ascii) (text word : string) :
  JS.endsWith text word = true -> JS.endsWith (String c text) word = true.
Proof. intro H. rewrite endsWith_unfold, H. apply orb_true_r. Qed.

Lemma startsWith_includes (text word : string) :
  JS.startsWith text word = true -> JS.includes text word = true.
Proof.
  unfold JS.startsWith. intro H. apply includes_iff.
  apply prefix_split in H. exists "". eexists. exact H.
Qed.

Lemma includes_inner (text a word b : string) :
  JS.includes text (a ++ word ++ b) = true -> JS.includes text word = true.
Proof.
  rewrite !includes_iff. intros (pre & post & ->).
  exists (pre ++ a), (b ++ post). rewrite !append_assoc. reflexivity.
Qed.

Lemma endsWith_includes (text word : string) :
  JS.endsWith text word = true -> JS.includes text word = true.
Proof.
  rewrite endsWith_iff, includes_iff. intros (pre & ->).
  exists pre, "". rewrite append_nil_r. reflexivity.
Qed.

Lemma endsWith_tail (text : string) (c : ascii) (word : string) :
  JS.endsWith text (String c word) = true -> JS.endsWith text word = true.
Proof.
  rewrite !endsWith_iff. intros (pre & ->).
  exists (pre ++ String c ""). rewrite append_assoc. reflexivity.
Qed.

(** ** Credentials *)

Lemma not_present (o : option string) :
  JS.present o = false -> o = None \/ o = Some "".
Proof.
  destruct o as [s|]; [|auto]. simpl.
  destruct (String.eqb_spec s ""); [subst; auto|discriminate].
Qed.

Lemma present_value (o : option string) :
  JS.present o = true -> exists s, o = Some s /\ s <> "" /\ JS.tpl o = s.
Proof.
  destruct o as [s|]; [|discriminate]. intro H. apply present_some in H. eauto.
Qed.

Lemma headers_documented (d : option AuthConfig) (a : AuthConfig) :
  documented_output a (getAuthHeaders d (Some a)) (getAuthQueryParams d (Some a)).
Proof.
  unfold getAuthHeaders, getAuthQueryParams, resolveAuth.
  destruct (type a) eqn:Ht.
  - apply doc_missing, miss_none; assumption.
  - destruct (JS.present (username a)) eqn:Hu;
      [|apply doc_missing, miss_username; assumption].
    destruct (JS.present (password a)) eqn:Hp;
      [|apply doc_missing, miss_password; assumption].
    apply present_value in Hu. destruct Hu as (u & Hu & Hun & ->).
    apply present_value in Hp. destruct Hp as (p & Hp & Hpn & ->).
    eapply doc_basic; eauto.
  - destruct (JS.present (token a)) eqn:Hk;
      [|apply doc_missing, miss_token; auto].
    apply present_value in Hk. destruct Hk as (t & Hk & Hkn & ->).
    eapply doc_bearer; eauto.
  - destruct (JS.present (apiKeyValue a)) eqn:Hk;
      [|destruct (apiKeyIn a) as [[]|]; apply doc_missing, miss_key; assumption].
    destruct (JS.present (apiKeyName a)) eqn:Hn;
      [|destruct (apiKeyIn a) as [[]|]; apply doc_missing, miss_name; assumption].
    apply present_value in Hk. destruct Hk as (k & Hk & Hkn & ->).
    apply present_value in Hn. destruct Hn as (n & Hn & Hnn & ->).
    cbn [andb]. destruct (apiKeyIn a) as [[]|] eqn:Hi.
    + eapply doc_key_header; eauto.
    + eapply doc_key_query; eauto.
    + apply doc_missing, miss_in; assumption.
  - destruct (JS.present (token a)) eqn:Hk;
      [|apply doc_missing, miss_token; auto].
    apply present_value in Hk. destruct Hk as (t & Hk & Hkn & ->).
    eapply doc_bearer; eauto.
Qed.

(** C4.  The auth resolvers of the simple servers: a per-call [AuthConfig]
    is used in preference to the default one; with neither, headers and
    query parameters are both empty; the bundle selected maps to the
    documented output (basic: one Basic header when user name and password
    are present; bearer and oauth2: one Bearer header when the token is
    present; apiKey in a header: one header named by [apiKeyName] and no
    query parameter; apiKey in the query: no header and one query
    parameter), and a missing field gives empty output, never an error. *)
Theorem auth_resolution (defaultAuth auth : option AuthConfig) :
  (forall a, auth = Some a ->
     documented_output a (getAuthHeaders defaultAuth auth)
       (getAuthQueryParams defaultAuth auth)) /\
  (forall a, auth = None -> defaultAuth = Some a ->
     documented_output a (getAuthHeaders defaultAuth auth)
       (getAuthQueryParams defaultAuth auth)) /\
  (auth = None -> defaultAuth = None ->
     getAuthHeaders defaultAuth auth = [] /\
     getAuthQueryParams defaultAuth auth = []).
Proof.
  split; [|split].
  - intros a ->. apply headers_documented.
  - intros a -> ->. apply (headers_documented None a).
  - intros -> ->. split; reflexivity.
Qed.

Lemma auth_resolution_witness :
  documented_output
    (mkAuth apiKey None None None (Some "k") (Some "X") (Some header))
    [("X", "k")] [].
Proof.
  exact (proj1 (auth_resolution None
                  (Some (mkAuth apiKey None None None (Some "k") (Some "X") (Some header))))
           _ eq_refl).
Defined.

Lemma present_nonempty (s : string) : s <> "" -> JS.present (Some s) = false -> False.
Proof. intros Hs Hf. apply present_some in Hs. congruence. Qed.

(** The documented output is a function of the bundle. *)
Lemma documented_output_functional (a : AuthConfig) (h h' q q' : JS.obj string) :
  documented_output a h q -> documented_output a h' q' -> h = h' /\ q = q'.
Proof.
  intros H1 H2.
  destruct H1; destruct H2;
    repeat match goal with
           | H : missing_field _ |- _ => destruct H
           | H : _ \/ _ |- _ => destruct H
           end;
    try (split; reflexivity); try congruence;
    try solve [exfalso;
               match goal with
               | Hx : JS.present ?f = false, He : ?f = Some ?s |- _ =>
                   rewrite He in Hx;
                   match goal with
                   | Hs : s <> "" |- _ => exact (present_nonempty s Hs Hx)
                   end
               end].
  all: split; congruence.
Qed.

Example api_key_in_header :
  let a := mkAuth apiKey None None None (Some "k") (Some "X") (Some header) in
  getAuthHeaders None (Some a) = [("X", "k")] /\ getAuthQueryParams None (Some a) = [].
Proof. split; reflexivity. Qed.

Example api_key_in_query :
  let a := mkAuth apiKey None None None (Some "k") (Some "X") (Some query) in
  getAuthHeaders None (Some a) = [] /\ getAuthQueryParams None (Some a) = [("X", "k")].
Proof. split; reflexivity. Qed.

Example basic_header :
  getAuthHeaders None (Some (mkAuth basic (Some "user") (Some "pass") None None None None))
  = [("Authorization", "Basic dXNlcjpwYXNz")].
Proof. reflexivity. Qed.

Example per_call_auth_wins :
  getAuthHeaders (Some (mkAuth bearer None None (Some "default") None None None))
    (Some (mkAuth bearer None None (Some "mine") None None None))
  = [("Authorization", "Bearer mine")].
Proof. reflexivity. Qed.

(** ** The scan of an OpenAPI document *)

Lemma in_item_operations (path : string) (entries : PathItem) (p m : string) (op : Operation) :
  In (p, m, op) (item_operations path entries) <->
  p = path /\ In (m, Some op) entries /\ m <> "$ref".
Proof.
  unfold item_operations. rewrite in_flat_map. split.
  - intros [[k [o|]] [Hin H]]; simpl in H; [|contradiction].
    destruct (String.eqb_spec k "$ref"); simpl in H; [contradiction|].
    destruct H as [H|[]]. inversion H; subst. auto.
  - intros (-> & Hin & Hm). exists (m, Some op). split; [assumption|]. simpl.
    destruct (String.eqb_spec m "$ref"); [contradiction|]. left; reflexivity.
Qed.

Lemma in_operations (ps : Paths) (p m : string) (op : Operation) :
  In (p, m, op) (operations ps) <->
  exists entries, In (p, Some entries) ps /\ In (m, Some op) entries /\ m <> "$ref".
Proof.
  unfold operations. rewrite in_flat_map. split.
  - intros [[k [entries|]] [Hin H]]; simpl in H; [|contradiction].
    apply in_item_operations in H. destruct H as (-> & H1 & H2). eauto.
  - intros (entries & H1 & H2 & H3). exists (p, Some entries). split; [assumption|].
    simpl. apply in_item_operations. auto.
Qed.

Lemma find_in_item_some (input : Swagger.LookupInput) (path : string)
    (entries : PathItem) (m : string) (op : Operation) :
  Swagger.find_in_item input path entries = Some (m, op) ->
  In (path, m, op) (item_operations path entries) /\
  Swagger.selects input m path op = true.
Proof.
  induction entries as [|[k [o|]] rest IH]; simpl; [discriminate| |].
  - unfold item_operations; simpl. fold (item_operations path rest).
    destruct (String.eqb k "$ref"); simpl.
    + intro H. apply IH in H. exact H.
    + destruct (Swagger.selects input k path o) eqn:Hs.
      * intro H. inversion H; subst. split; [left; reflexivity|assumption].
      * intro H. apply IH in H. destruct H. split; [right|]; assumption.
  - exact IH.
Qed.

Lemma find_in_item_none (input : Swagger.LookupInput) (path : string) (entries : PathItem) :
  Swagger.find_in_item input path entries = None <->
  forall p m op, In (p, m, op) (item_operations path entries) ->
                 Swagger.selects input m p op = false.
Proof.
  induction entries as [|[k [o|]] rest IH]; simpl.
  - split; [intros _ p m op []|reflexivity].
  - unfold item_operations; simpl. fold (item_operations path rest).
    destruct (String.eqb k "$ref"); simpl; [exact IH|].
    destruct (Swagger.selects input k path o) eqn:Hs.
    + split; [discriminate|]. intro H. rewrite (H path k o) in Hs; [discriminate|].
      left; reflexivity.
    + rewrite IH. split.
      * intros H p m op [Heq|Hin]; [inversion Heq; subst; assumption|auto].
      * intros H p m op Hin. apply H. right; assumption.
  - exact IH.
Qed.

Lemma find_operation_some (input : Swagger.LookupInput) (ps : Paths)
    (p m : string) (op : Operation) :
  Swagger.find_operation input ps = Some (p, m, op) ->
  In (p, m, op) (operations ps) /\ Swagger.selects input m p op = true.
Proof.
  induction ps as [|[k [entries|]] rest IH]; simpl; [discriminate| |].
  - unfold operations; simpl. fold (operations rest).
    destruct (Swagger.find_in_item input k entries) as [[m' op']|] eqn:Hf.
    + intro H. inversion H; subst. apply find_in_item_some in Hf.
      destruct Hf. split; [apply in_or_app; left|]; assumption.
    + intro H. apply IH in H. destruct H. split; [apply in_or_app; right|]; assumption.
  - exact IH.
Qed.

Lemma find_operation_none (input : Swagger.LookupInput) (ps : Paths) :
  Swagger.find_operation input ps = None <->
  forall p m op, In (p, m, op) (operations ps) -> Swagger.selects input m p op = false.
Proof.
  induction ps as [|[k [entries|]] rest IH]; simpl.
  - split; [intros _ p m op []|reflexivity].
  - unfold operations; simpl. fold (operations rest).
    destruct (Swagger.find_in_item input k entries) as [[m' op']|] eqn:Hf.
    + split; [discriminate|]. intro H. apply find_in_item_some in Hf.
      destruct Hf as [Hin Hs]. rewrite H in Hs; [discriminate|].
      apply in_or_app; left; assumption.
    + rewrite IH. rewrite find_in_item_none in Hf. split.
      * intros H p m op Hin. apply in_app_or in Hin. destruct Hin; auto.
      * intros H p m op Hin. apply H. apply in_or_app; right; assumption.
  - exact IH.
Qed.

Lemma list_operations_sound (input : Swagger.ListInput) (path : string)
    (entries : PathItem) (acc : list Swagger.ListedEndpoint) (e : Swagger.ListedEndpoint) :
  In e (Swagger.list_operations input path entries acc) ->
  In e acc \/
  exists m op, In (path, m, op) (item_operations path entries) /\
               e = Swagger.listed m path op.
Proof.
  revert acc.
  induction entries as [|[k [o|]] rest IH]; simpl; intros acc H; [auto| |].
  - unfold item_operations; simpl. fold (item_operations path rest).
    assert (Hskip : In e (Swagger.list_operations input path rest acc) ->
                    In e acc \/
                    exists m op,
                      In (path, m, op)
                         ((if String.eqb k "$ref" then [] else [(path, k, o)])
                            ++ item_operations path rest)%list /\
                      e = Swagger.listed m path op).
    { intro H'. apply IH in H'. destruct H' as [H'|(m & op & H1 & H2)]; [auto|].
      right. exists m, op. split; [apply in_or_app; right|]; assumption. }
    destruct (String.eqb k "$ref"); [auto|].
    destruct (Swagger.method_filtered input k); [auto|].
    destruct (Swagger.tag_filtered input o); [auto|].
    assert (Hnew : In e (acc ++ [Swagger.listed k path o])%list ->
                   In e acc \/
                   exists m op,
                     In (path, m, op) ([(path, k, o)] ++ item_operations path rest)%list /\
                     e = Swagger.listed m path op).
    { intro H'. apply in_app_or in H'. destruct H' as [H'|[H'|[]]]; [auto|].
      right. exists k, o. split; [left; reflexivity|auto]. }
    destruct (reached _ _); [auto|].
    apply IH in H. destruct H as [H|(m & op & H1 & H2)]; [auto|].
    right. exists m, op. split; [right|]; assumption.
  - apply IH in H. exact H.
Qed.

Lemma list_paths_sound (input : Swagger.ListInput) (ps : Paths)
    (acc : list Swagger.ListedEndpoint) (e : Swagger.ListedEndpoint) :
  In e (Swagger.list_paths input ps acc) ->
  In e acc \/
  exists p m op, In (p, m, op) (operations ps) /\ e = Swagger.listed m p op.
Proof.
  revert acc.
  induction ps as [|[k [entries|]] rest IH]; simpl; intros acc H; [auto| |].
  - unfold operations; simpl. fold (operations rest).
    assert (Hitem : In e (Swagger.list_operations input k entries acc) ->
                    In e acc \/
                    exists p m op,
                      In (p, m, op) (item_operations k entries ++ operations rest)%list /\
                      e = Swagger.listed m p op).
    { intro H'. apply list_operations_sound in H'.
      destruct H' as [H'|(m & op & H1 & H2)]; [auto|].
      right. exists k, m, op. split; [apply in_or_app; left|]; assumption. }
    destruct (reached _ _); [auto|].
    apply IH in H. destruct H as [H|(p & m & op & H1 & H2)]; [auto|].
    right. exists p, m, op. split; [apply in_or_app; right|]; assumption.
  - apply IH in H. exact H.
Qed.

Lemma search_operations_sound (input : Swagger.SearchInput) (path : string)
    (entries : PathItem) (acc : list Swagger.SearchHit) (e : Swagger.SearchHit) :
  In e (Swagger.search_operations input path entries acc) ->
  In e acc \/
  exists m op, In (path, m, op) (item_operations path entries) /\
               e = Swagger.hit m path op.
Proof.
  revert acc.
  induction entries as [|[k [o|]] rest IH]; simpl; intros acc H; [auto| |].
  - unfold item_operations; simpl. fold (item_operations path rest).
    destruct (String.eqb k "$ref").
    + apply IH in H. exact H.
    + assert (Hnew : forall acc',
                 In e acc' ->
                 acc' = (acc ++ [Swagger.hit k path o])%list \/ acc' = acc ->
                 In e acc \/
                 exists m op,
                   In (path, m, op) ([(path, k, o)] ++ item_operations path rest)%list /\
                   e = Swagger.hit m path op).
      { intros acc' H' [->| ->]; [|auto].
        apply in_app_or in H'. destruct H' as [H'|[H'|[]]]; [auto|].
        right. exists k, o. split; [left; reflexivity|auto]. }
      assert (Hacc : forall acc',
                 acc' = (if JS.includes (Swagger.searchText k path o)
                              (JS.toLowerCase (Swagger.search_query input))
                         then (acc ++ [Swagger.hit k path o])%list else acc) ->
                 acc' = (acc ++ [Swagger.hit k path o])%list \/ acc' = acc).
      { intros acc' ->. destruct (JS.includes _ _); auto. }
      destruct (reached _ _).
      * eapply Hnew; [exact H|]. apply Hacc. reflexivity.
      * apply IH in H. destruct H as [H|(m & op & H1 & H2)].
        -- eapply Hnew; [exact H|]. apply Hacc. reflexivity.
        -- right. exists m, op. split; [right|]; assumption.
  - apply IH in H. exact H.
Qed.

Lemma search_paths_sound (input : Swagger.SearchInput) (ps : Paths)
    (acc : list Swagger.SearchHit) (e : Swagger.SearchHit) :
  In e (Swagger.search_paths input ps acc) ->
  In e acc \/
  exists p m op, In (p, m, op) (operations ps) /\ e = Swagger.hit m p op.
Proof.
  revert acc.
  induction ps as [|[k [entries|]] rest IH]; simpl; intros acc H; [auto| |].
  - unfold operations; simpl. fold (operations rest).
    assert (Hitem : In e (Swagger.search_operations input k entries acc) ->
                    In e acc \/
                    exists p m op,
                      In (p, m, op) (item_operations k entries ++ operations rest)%list /\
                      e = Swagger.hit m p op).
    { intro H'. apply search_operations_sound in H'.
      destruct H' as [H'|(m & op & H1 & H2)]; [auto|].
      right. exists k, m, op. split; [apply in_or_app; left|]; assumption. }
    destruct (reached _ _); [auto|].
    apply IH in H. destruct H as [H|(p & m & op & H1 & H2)]; [auto|].
    right. exists p, m, op. split; [apply in_or_app; right|]; assumption.
  - apply IH in H. exact H.
Qed.

Lemma derived_id (method path : string) (op : Operation) :
  JS.present (operationId op) = false ->
  operationIdOf method path op = method ++ "-" ++ path.
Proof. intro H. unfold operationIdOf. apply or_else_absent. exact H. Qed.

(** C1.  An operation without an explicit [operationId] has the id
    [method ++ "-" ++ path], the key of its verb, a hyphen and its path
    template, byte for byte: in every entry of [list_endpoints] and of
    [search_endpoints], in the record of [get_endpoint_details], and as the
    key by which [get_endpoint_details] finds it. *)
Theorem derived_operation_id (s : Swagger.Server) :
  (forall input total endpoints e,
     Swagger.list_endpoints s input = Returned (Swagger.Listing total endpoints) ->
     In e endpoints ->
     exists p m op,
       In (p, m, op) (operations (Swagger.paths s)) /\ e = Swagger.listed m p op /\
       (JS.present (operationId op) = false ->
        Swagger.le_operationId e = m ++ "-" ++ p)) /\
  (forall input q total results e,
     Swagger.search_endpoints s input = Returned (Swagger.Hits q total results) ->
     In e results ->
     exists p m op,
       In (p, m, op) (operations (Swagger.paths s)) /\ e = Swagger.hit m p op /\
       (JS.present (operationId op) = false ->
        Swagger.sh_operationId e = m ++ "-" ++ p)) /\
  (forall input d,
     Swagger.get_endpoint_details s input = Returned (Swagger.Details d) ->
     exists p m op,
       In (p, m, op) (operations (Swagger.paths s)) /\ d = Swagger.details p m op /\
       (JS.present (operationId op) = false ->
        Swagger.ed_operationId d = m ++ "-" ++ p)) /\
  (forall p m op,
     In (p, m, op) (operations (Swagger.paths s)) ->
     JS.present (operationId op) = false ->
     exists d,
       Swagger.get_endpoint_details s (Swagger.mkLookup (Some (m ++ "-" ++ p)) None None)
       = Returned (Swagger.Details d) /\
       Swagger.ed_operationId d = m ++ "-" ++ p).
Proof.
  repeat split.
  - intros input total endpoints e H Hin. unfold Swagger.list_endpoints in H.
    inversion H; subst. apply list_paths_sound in Hin.
    destruct Hin as [[]|(p & m & op & H1 & H2)].
    exists p, m, op. repeat split; try assumption.
    intro Hp. subst e. simpl. apply derived_id. exact Hp.
  - intros input q total results e H Hin. unfold Swagger.search_endpoints in H.
    inversion H; subst. apply search_paths_sound in Hin.
    destruct Hin as [[]|(p & m & op & H1 & H2)].
    exists p, m, op. repeat split; try assumption.
    intro Hp. subst e. simpl. apply derived_id. exact Hp.
  - intros input d H. unfold Swagger.get_endpoint_details in H.
    destruct (Swagger.find_operation input (Swagger.paths s)) as [[[p m] op]|] eqn:Hf;
      [|discriminate].
    inversion H; subst. apply find_operation_some in Hf. destruct Hf as [Hin _].
    exists p, m, op. repeat split; try assumption.
    intro Hp. simpl. apply or_else_absent. exact Hp.
  - intros p m op Hin Hp. unfold Swagger.get_endpoint_details.
    destruct (Swagger.find_operation (Swagger.mkLookup (Some (m ++ "-" ++ p)) None None)
                (Swagger.paths s)) as [[[p' m'] op']|] eqn:Hf.
    + eexists. split; [reflexivity|]. simpl.
      apply find_operation_some in Hf. destruct Hf as [_ Hs].
      unfold Swagger.selects in Hs. simpl in Hs. rewrite orb_false_r in Hs.
      apply String.eqb_eq in Hs. symmetry. exact Hs.
    + exfalso. rewrite find_operation_none in Hf. specialize (Hf p m op Hin).
      unfold Swagger.selects in Hf. simpl in Hf.
      rewrite (derived_id m p op Hp), String.eqb_refl in Hf. discriminate.
Qed.

Lemma derived_operation_id_witness :
  exists d,
    Swagger.get_endpoint_details
      (Swagger.mkServer
         [("/pets", Some [("get", Some (mkOperation None (Some "List pets") None None None None))])]
         "https://api.example.com" None)
      (Swagger.mkLookup (Some "get-/pets") None None)
    = Returned (Swagger.Details d) /\
    Swagger.ed_operationId d = "get-/pets".
Proof.
  exact (proj2 (proj2 (proj2 (derived_operation_id
           (Swagger.mkServer
              [("/pets", Some [("get", Some (mkOperation None (Some "List pets") None None None None))])]
              "https://api.example.com" None))))
           "/pets" "get" (mkOperation None (Some "List pets") None None None None)
           (or_introl eq_refl) eq_refl).
Defined.

(** ** Lookup failure *)

Lemma find_request_none (input : Postman.LookupInput) (reqs : list Postman.Request) :
  (forall req, In req reqs -> Postman.selects input req = false) ->
  Postman.find_request input reqs = None.
Proof.
  intro H. unfold Postman.find_request.
  induction reqs as [|r rest IH]; simpl; [reflexivity|].
  rewrite (H r (or_introl eq_refl)). apply IH. intros req Hin. apply H. right; assumption.
Qed.

(** C8.  A get-details or dispatch invocation whose id and fallback key
    (path and method for OpenAPI, name for Postman) select no endpoint
    returns a text that points to the list tool; it does not throw, and
    the server is left as it was. *)
Theorem lookup_failure_is_reported :
  (forall axios s input,
     (forall p m op, In (p, m, op) (operations (Swagger.paths s)) ->
                     Swagger.selects input m p op = false) ->
     Swagger.invoke axios s (Swagger.CallDetails input)
     = (Returned (Swagger.Message Swagger.not_found), s) /\
     forall parameters body auth,
       Swagger.invoke axios s
         (Swagger.CallMake (Swagger.mkCallInput input parameters body auth))
       = (Returned (Swagger.Message Swagger.not_found), s)) /\
  (forall axios s input,
     (forall req, In req (Postman.requests s) -> Postman.selects input req = false) ->
     Postman.invoke axios s (Postman.CallDetails input)
     = (Returned (Postman.Message Postman.not_found), s) /\
     forall parameters body auth,
       Postman.invoke axios s
         (Postman.CallMake (Postman.mkCallInput input parameters body auth))
       = (Returned (Postman.Message Postman.not_found), s)) /\
  JS.includes Swagger.not_found "Use list_endpoints" = true /\
  JS.includes Postman.not_found "Use list_requests" = true.
Proof.
  split; [|split; [|split; reflexivity]].
  - intros axios s input H. apply find_operation_none in H.
    unfold Swagger.invoke, Swagger.get_endpoint_details, Swagger.make_api_call.
    simpl. rewrite H. split; reflexivity.
  - intros axios s input H. apply find_request_none in H.
    unfold Postman.invoke, Postman.get_request_details, Postman.make_request.
    simpl. rewrite H. split; reflexivity.
Qed.

Lemma lookup_failure_is_reported_witness :
  (let s := Swagger.mkServer
              [("/pets", Some [("get", Some (mkOperation (Some "listPets") None None None None None))])]
              "https://api.example.com" None in
   Swagger.invoke (fun _ => Failed "unreachable") s
     (Swagger.CallDetails (Swagger.mkLookup (Some "nope") None None))
   = (Returned (Swagger.Message Swagger.not_found), s)) /\
  (let s := loaded [named "Get User"] in
   Postman.invoke (fun _ => Failed "unreachable") s
     (Postman.CallMake
        (Postman.mkCallInput (Postman.mkLookup (Some "nope") None) None JS.VUndefined None))
   = (Returned (Postman.Message Postman.not_found), s)).
Proof.
  split.
  - refine (proj1 (proj1 lookup_failure_is_reported (fun _ => Failed "unreachable") _
                     (Swagger.mkLookup (Some "nope") None None) _)).
    intros p m op [H|[]]. inversion H; subst. reflexivity.
  - refine (proj2 (proj1 (proj2 lookup_failure_is_reported) (fun _ => Failed "unreachable")
                     (loaded [named "Get User"])
                     (Postman.mkLookup (Some "nope") None) _) None JS.VUndefined None).
    intros req [H|[]]. subst req. reflexivity.
Defined.

(** ** Truncation of the searches *)

Lemma reached_true {A} (l : list A) (limit : Z) :
  reached l limit = true <-> (limit <= Z.of_nat (List.length l))%Z.
Proof. unfold reached. apply Z.leb_le. Qed.

Lemma reached_false {A} (l : list A) (limit : Z) :
  reached l limit = false <-> (Z.of_nat (List.length l) < limit)%Z.
Proof. unfold reached. apply Z.leb_gt. Qed.

Lemma firstn_app_long {A} (n : nat) (l1 l2 : list A) :
  (n <= List.length l1)%nat -> firstn n (l1 ++ l2) = firstn n l1.
Proof.
  intro H. rewrite firstn_app. replace (n - List.length l1)%nat with 0%nat by lia.
  simpl. apply app_nil_r.
Qed.

Lemma firstn_snoc_full {A} (n : nat) (l : list A) (x : A) (rest : list A) :
  List.length (l ++ [x]) = n -> firstn n (l ++ x :: rest) = (l ++ [x])%list.
Proof.
  intro H. replace (l ++ x :: rest)%list with ((l ++ [x]) ++ rest)%list
    by (rewrite <- app_assoc; reflexivity).
  rewrite firstn_app_long by lia. apply firstn_all2. lia.
Qed.

Lemma item_operations_cons (path k : string) (o : option Operation) (rest : PathItem) :
  item_operations path ((k, o) :: rest)
  = ((match o with
      | Some op => if String.eqb k "$ref" then [] else [(path, k, op)]
      | None => []
      end) ++ item_operations path rest)%list.
Proof. reflexivity. Qed.

Lemma operations_cons (k : string) (o : option PathItem) (rest : Paths) :
  operations ((k, o) :: rest)
  = ((match o with Some entries => item_operations k entries | None => [] end)
       ++ operations rest)%list.
Proof. reflexivity. Qed.

Lemma matching_operations_app (input : Swagger.SearchInput)
    (l1 l2 : list (string * string * Operation)) :
  matching_operations input (l1 ++ l2)
  = (matching_operations input l1 ++ matching_operations input l2)%list.
Proof. unfold matching_operations. rewrite filter_app, map_app. reflexivity. Qed.

Section OpenApiSearch.

Variable input : Swagger.SearchInput.
Let L : nat := Z.to_nat (Swagger.search_limit input).
Hypothesis positive : (1 <= Swagger.search_limit input)%Z.

Lemma search_operations_prefix (path : string) (entries : PathItem)
    (results : list Swagger.SearchHit) :
  (List.length results < L)%nat ->
  Swagger.search_operations input path entries results
  = firstn L (results ++ matching_operations input (item_operations path entries)).
Proof.
  revert results.
  induction entries as [|[k [o|]] rest IH]; intros results Hlt.
  - simpl. rewrite app_nil_r. symmetry. apply firstn_all2. lia.
  - simpl Swagger.search_operations. rewrite item_operations_cons.
    destruct (String.eqb k "$ref"); [apply IH; assumption|].
    rewrite matching_operations_app.
    unfold matching_operations at 1. simpl filter.
    unfold operation_matches at 1. simpl fst; simpl snd.
    destruct (JS.includes (Swagger.searchText k path o)
                (JS.toLowerCase (Swagger.search_query input))).
    + simpl map. unfold operation_hit at 1. simpl fst; simpl snd.
      destruct (reached (results ++ [Swagger.hit k path o]) (Swagger.search_limit input))
        eqn:Hr.
      * apply reached_true in Hr. rewrite length_app in Hr. simpl in Hr.
        simpl app. symmetry. apply firstn_snoc_full.
        rewrite length_app. simpl. subst L. lia.
      * apply reached_false in Hr. rewrite length_app in Hr. simpl in Hr.
        rewrite IH by (rewrite length_app; simpl; subst L; lia).
        rewrite <- app_assoc. reflexivity.
    + simpl map. simpl app.
      destruct (reached results (Swagger.search_limit input)) eqn:Hr.
      * apply reached_true in Hr. subst L. lia.
      * apply IH. assumption.
  - simpl Swagger.search_operations. rewrite item_operations_cons. simpl app.
    apply IH. assumption.
Qed.

Lemma search_paths_prefix (ps : Paths) (results : list Swagger.SearchHit) :
  (List.length results < L)%nat ->
  Swagger.search_paths input ps results
  = firstn L (results ++ matching_operations input (operations ps)).
Proof.
  revert results.
  induction ps as [|[k [entries|]] rest IH]; intros results Hlt.
  - simpl. rewrite app_nil_r. symmetry. apply firstn_all2. lia.
  - simpl Swagger.search_paths. rewrite operations_cons, matching_operations_app.
    rewrite search_operations_prefix by assumption.
    set (X := (results ++ matching_operations input (item_operations k entries))%list).
    rewrite app_assoc. fold X.
    destruct (reached (firstn L X) (Swagger.search_limit input)) eqn:Hr.
    + apply reached_true in Hr. rewrite length_firstn in Hr.
      symmetry. apply firstn_app_long. subst L. lia.
    + apply reached_false in Hr. rewrite length_firstn in Hr.
      assert (HX : (List.length X < L)%nat) by (subst L; lia).
      rewrite (firstn_all2 X) by lia. apply IH. assumption.
  - simpl Swagger.search_paths. rewrite operations_cons. simpl app.
    apply IH. assumption.
Qed.

End OpenApiSearch.

Lemma collect_prefix (query : string) (limit : Z) (reqs : list Postman.Request)
    (results : list (Postman.SearchHit * Q)) :
  (List.length results < Z.to_nat (Z.max 1 limit))%nat ->
  Postman.collect query limit reqs results
  = firstn (Z.to_nat (Z.max 1 limit)) (results ++ matching_requests query reqs).
Proof.
  revert results.
  induction reqs as [|req rest IH]; intros results Hlt.
  - simpl. rewrite app_nil_r. symmetry. apply firstn_all2. lia.
  - simpl Postman.collect. unfold matching_requests. simpl filter.
    destruct (JS.includes (Postman.searchText req) query).
    + simpl map. fold (matching_requests query rest).
      destruct (reached _ limit) eqn:Hr.
      * apply reached_true in Hr. rewrite length_app in Hr. simpl in Hr.
        symmetry. apply firstn_snoc_full. rewrite length_app. simpl. lia.
      * apply reached_false in Hr. rewrite length_app in Hr. simpl in Hr.
        rewrite IH by (rewrite length_app; simpl; lia).
        rewrite <- app_assoc. reflexivity.
    + fold (matching_requests query rest). apply IH. assumption.
Qed.

(** C3, as amended.  Both searches stop collecting as soon as the results
    reach the limit.  An OpenAPI search with a limit of at least one
    returns the first [limit] matching operations in scan order, unsorted.
    A Postman search keeps the first [max 1 limit] matching requests in
    scan order and sorts only these by relevance. *)
Theorem search_truncation :
  (forall s input,
     (1 <= Swagger.search_limit input)%Z ->
     let results :=
       firstn (Z.to_nat (Swagger.search_limit input))
         (matching_operations input (operations (Swagger.paths s))) in
     Swagger.search_endpoints s input
     = Returned (Swagger.Hits (Swagger.search_query input) (List.length results) results)) /\
  (forall s input,
     let results :=
       Postman.sort
         (firstn (Z.to_nat (Z.max 1 (Postman.search_limit input)))
            (matching_requests (JS.toLowerCase (Postman.search_query input))
               (Postman.requests s))) in
     Postman.search_requests s input
     = Returned (Postman.Hits (Postman.search_query input) (List.length results)
                   (map fst results))).
Proof.
  split.
  - intros s input Hpos results. unfold Swagger.search_endpoints.
    rewrite search_paths_prefix by (simpl; lia). reflexivity.
  - intros s input results. unfold Postman.search_requests, Postman.ranked.
    rewrite collect_prefix by (simpl; lia). reflexivity.
Qed.

Lemma search_truncation_witness :
  Swagger.search_endpoints
    (Swagger.mkServer
       [("/pets", Some [("get", Some (mkOperation None None None None None None));
                        ("post", Some (mkOperation None None None None None None))])]
       "https://api.example.com" None)
    (Swagger.mkSearchInput "pets" 1)
  = Returned (Swagger.Hits "pets" 1
                [Swagger.mkHit "get-/pets" "GET" "/pets" "" "" []]).
Proof.
  exact (proj1 search_truncation
           (Swagger.mkServer
              [("/pets", Some [("get", Some (mkOperation None None None None None None));
                               ("post", Some (mkOperation None None None None None None))])]
              "https://api.example.com" None)
           (Swagger.mkSearchInput "pets" 1) ltac:(simpl; lia)).
Defined.

(** The Postman search does not sort before it truncates: with a limit of
    one, the first match is returned even when a later one ranks higher. *)
Lemma postman_truncates_before_sorting :
  let s := loaded [named "list users and roles"; named "get user"] in
  let input := Postman.mkSearchInput "user" 1 in
  map Postman.sh_name (map fst (Postman.ranked s input)) = ["list users and roles"] /\
  map Postman.sh_name (map fst (sort_then_truncate s input)) = ["get user"] /\
  Postman.search_requests s input
  <> Returned (Postman.Hits "user" (List.length (sort_then_truncate s input))
                 (map fst (sort_then_truncate s input))).
Proof.
  split; [reflexivity|split; [reflexivity|]].
  vm_compute. intro H. inversion H.
Qed.

(** ** Relevance and ranking *)

Lemma score_word_adds (text : string) (score : Q) (word : string) :
  (Postman.score_word text score word == score + contribution text word)%Q.
Proof.
  unfold contribution, Postman.score_word.
  destruct (JS.includes text word); [|ring].
  destruct (_ || _ || _); ring.
Qed.

Lemma relevance_from (text : string) (words : list string) (score : Q) :
  (fold_left (Postman.score_word text) words score
   == score + total (map (contribution text) words))%Q.
Proof.
  revert score. induction words as [|w ws IH]; intro score; simpl.
  - ring.
  - rewrite IH, score_word_adds. ring.
Qed.

Lemma word_at_head_cases (text word : string) :
  word_at_head text word = true ->
  JS.startsWith text word = true /\
  (text = word \/ String.prefix (word ++ " ") text = true).
Proof.
  unfold word_at_head, JS.startsWith. intro H.
  apply andb_prop in H. destruct H as [Hp Hd]. split; [exact Hp|].
  apply prefix_split in Hp.
  destruct (JS.drop (String.length word) text) as [|c r].
  - left. rewrite Hp. apply append_nil_r.
  - right. apply Ascii.eqb_eq in Hd. subst c. rewrite Hp.
    change (String " " r) with (" " ++ r). rewrite <- append_assoc.
    apply prefix_append.
Qed.

Lemma whole_word_from_found (word text : string) (boundary : bool) :
  whole_word_from boundary text word = true ->
  (boundary = true /\ word_at_head text word = true) \/
  JS.includes text (" " ++ word ++ " ") = true \/
  JS.endsWith text (" " ++ word) = true.
Proof.
  revert boundary. induction text as [|c text IH]; intros boundary H.
  - simpl in H. rewrite orb_false_r in H. apply andb_prop in H. left. exact H.
  - change (whole_word_from boundary (String c text) word)
      with ((boundary && word_at_head (String c text) word)
            || whole_word_from (Ascii.eqb c " "%char) text word) in H.
    apply orb_prop in H. destruct H as [H|H].
    + left. apply andb_prop in H. exact H.
    + right. apply IH in H. destruct H as [[Hc Hw]|[Hi|He]].
      * apply Ascii.eqb_eq in Hc. subst c.
        apply word_at_head_cases in Hw. destruct Hw as [_ [->|Hp]].
        -- right. apply endsWith_iff. exists "". reflexivity.
        -- left. apply includes_iff. apply prefix_split in Hp.
           exists "". eexists. rewrite Hp at 1. reflexivity.
      * left. apply includes_cons. exact Hi.
      * right. apply endsWith_cons. exact He.
Qed.

(** A whole-word occurrence earns the bonus. *)
Lemma whole_word_bonus (text word : string) :
  whole_word text word = true ->
  JS.includes text word = true /\
  JS.includes text (" " ++ word ++ " ") || JS.startsWith text word
    || JS.endsWith text word = true.
Proof.
  intro H. apply whole_word_from_found in H. destruct H as [[_ Hw]|[Hi|He]].
  - apply word_at_head_cases in Hw. destruct Hw as [Hs _]. split.
    + apply startsWith_includes. exact Hs.
    + rewrite Hs. rewrite orb_true_r. reflexivity.
  - split.
    + eapply includes_inner. exact Hi.
    + rewrite Hi. reflexivity.
  - apply endsWith_tail in He. split.
    + apply endsWith_includes. exact He.
    + rewrite He. apply orb_true_r.
Qed.

Lemma contribution_cases (text word : string) :
  (JS.includes text word = false -> contribution text word == 0)%Q /\
  (JS.includes text word = true ->
   contribution text word == 1 \/ contribution text word == 3 # 2)%Q /\
  (whole_word text word = true -> contribution text word == 3 # 2)%Q.
Proof.
  unfold contribution, Postman.score_word. repeat split.
  - intros ->. reflexivity.
  - intros ->. destruct (_ || _ || _); [right|left]; reflexivity.
  - intro H. apply whole_word_bonus in H. destruct H as [-> ->]. reflexivity.
Qed.

Lemma insert_perm (a : Postman.SearchHit * Q) (l : list (Postman.SearchHit * Q)) :
  Permutation (Postman.insert a l) (a :: l).
Proof.
  induction l as [|b l IH]; simpl; [reflexivity|].
  destruct (Postman.before a b); [reflexivity|].
  rewrite IH. apply perm_swap.
Qed.

Lemma sort_perm (l : list (Postman.SearchHit * Q)) : Permutation (Postman.sort l) l.
Proof.
  induction l as [|a l IH]; simpl; [reflexivity|].
  rewrite insert_perm. apply perm_skip. exact IH.
Qed.

Lemma outranks_trans (a b c : Postman.SearchHit * Q) :
  outranks a b -> outranks b c -> outranks a c.
Proof. unfold outranks. intros H1 H2. eapply Qle_trans; eassumption. Qed.

Lemma insert_sorted (a : Postman.SearchHit * Q) (l : list (Postman.SearchHit * Q)) :
  StronglySorted outranks l -> StronglySorted outranks (Postman.insert a l).
Proof.
  induction l as [|b l IH]; simpl; intro Hs.
  - constructor; constructor.
  - apply StronglySorted_inv in Hs. destruct Hs as [Hl Hb].
    destruct (Postman.before a b) eqn:Hab.
    + unfold Postman.before in Hab. apply Qle_bool_iff in Hab.
      constructor; [constructor; assumption|].
      constructor; [exact Hab|].
      eapply Forall_impl; [|exact Hb]. intros c Hc. eapply outranks_trans; eassumption.
    + assert (Hba : outranks b a).
      { unfold outranks. apply Qlt_le_weak. apply Qnot_le_lt. intro Hle.
        apply Qle_bool_iff in Hle. unfold Postman.before in Hab. congruence. }
      constructor; [apply IH; assumption|].
      eapply Permutation_Forall; [symmetry; apply insert_perm|].
      constructor; assumption.
Qed.

Lemma sort_sorted (l : list (Postman.SearchHit * Q)) :
  StronglySorted outranks (Postman.sort l).
Proof.
  induction l as [|a l IH]; simpl; [constructor|]. apply insert_sorted. exact IH.
Qed.

Lemma insert_with_score (v : Q) (a : Postman.SearchHit * Q)
    (l : list (Postman.SearchHit * Q)) :
  with_score v (Postman.insert a l) = with_score v (a :: l).
Proof.
  unfold with_score. induction l as [|b l IH]; simpl; [reflexivity|].
  destruct (Postman.before a b) eqn:Hab; [reflexivity|].
  simpl. rewrite IH. simpl.
  destruct (Qeq_bool (snd a) v) eqn:Ha; [|reflexivity].
  destruct (Qeq_bool (snd b) v) eqn:Hb; [|reflexivity].
  exfalso. apply Qeq_bool_iff in Ha. apply Qeq_bool_iff in Hb.
  assert (Hle : (snd b <= snd a)%Q) by (rewrite Ha, Hb; apply Qle_refl).
  apply Qle_bool_iff in Hle. unfold Postman.before in Hab. congruence.
Qed.

(** The sort is stable: the results of one score keep their order. *)
Lemma sort_stable (v : Q) (l : list (Postman.SearchHit * Q)) :
  with_score v (Postman.sort l) = with_score v l.
Proof.
  induction l as [|a l IH]; simpl; [reflexivity|].
  rewrite insert_with_score. unfold with_score in *. simpl. rewrite IH. reflexivity.
Qed.

(** C2, as amended.  The relevance of a text for a query is the sum, over
    the words of the query split at single spaces, each counted as often
    as it occurs, of what the word contributes: nothing when the text does
    not contain it, and else one point, or one and a half; it is one and a
    half whenever the word occurs in the text as a whole word, between
    spaces or the ends of the text.  The results of [search_requests] are
    the collected matches sorted by descending relevance, results of equal
    relevance in the order they were met.  For the query "user", "get user"
    scores 1.5, "list users and roles" scores 1, and "update profile" does
    not match and scores 0. *)
Theorem relevance_ranking :
  (forall query text,
     (Postman.calculateRelevance query text
      == total (map (contribution text) (JS.split " " query)))%Q /\
     forall word,
       (JS.includes text word = false -> contribution text word == 0)%Q /\
       (JS.includes text word = true ->
        contribution text word == 1 \/ contribution text word == 3 # 2)%Q /\
       (whole_word text word = true -> contribution text word == 3 # 2)%Q) /\
  (forall s input,
     let collected :=
       firstn (Z.to_nat (Z.max 1 (Postman.search_limit input)))
         (matching_requests (JS.toLowerCase (Postman.search_query input))
            (Postman.requests s)) in
     let results := Postman.ranked s input in
     Postman.search_requests s input
     = Returned (Postman.Hits (Postman.search_query input) (List.length results)
                   (map fst results)) /\
     Permutation results collected /\
     StronglySorted outranks results /\
     forall v, with_score v results = with_score v collected) /\
  (Postman.calculateRelevance "user" "get user" == 3 # 2)%Q /\
  (Postman.calculateRelevance "user" "list users and roles" == 1)%Q /\
  (Postman.calculateRelevance "user" "update profile" == 0)%Q /\
  JS.includes "update profile" "user" = false /\
  map Postman.sh_name
    (map fst
       (Postman.ranked
          (loaded [named "update profile"; named "list users and roles"; named "get user"])
          (Postman.mkSearchInput "user" 20)))
  = ["get user"; "list users and roles"].
Proof.
  split; [|split; [|repeat split; reflexivity]].
  - intros query text. split.
    + unfold Postman.calculateRelevance. rewrite relevance_from. ring.
    + intro word. apply contribution_cases.
  - intros s input collected results. subst results. unfold Postman.ranked.
    rewrite collect_prefix by (simpl; lia). simpl app. fold collected.
    split; [|split; [|split]].
    + unfold Postman.search_requests, Postman.ranked.
      rewrite collect_prefix by (simpl; lia). reflexivity.
    + apply sort_perm.
    + apply sort_sorted.
    + intro v. apply sort_stable.
Qed.

Lemma relevance_ranking_witness : (contribution "get user" "user" == 3 # 2)%Q.
Proof.
  exact (proj2 (proj2 (proj2 (proj1 relevance_ranking "user" "get user") "user")) eq_refl).
Defined.

(** The score is not one point per distinct word: a word written twice
    counts twice.  Nor is the bonus kept for whole words: a text that only
    starts with the word earns it. *)
Lemma relevance_is_not_per_distinct_word :
  map Postman.searchText (Postman.parseAllRequests [named "user user"; named "users"])
  = ["user user    get"; "users    get"] /\
  JS.includes "user user    get" "user user" = true /\
  (Postman.calculateRelevance "user user" "user user    get" == 3)%Q /\
  (spec_relevance "user user" "user user    get" == 3 # 2)%Q /\
  ~ (Postman.calculateRelevance "user user" "user user    get"
     == spec_relevance "user user" "user user    get")%Q /\
  whole_word "users    get" "user" = false /\
  (Postman.calculateRelevance "user" "users    get" == 3 # 2)%Q /\
  (spec_relevance "user" "users    get" == 1)%Q.
Proof.
  repeat split; try reflexivity.
  intro H. vm_compute in H. discriminate.
Qed.

(** ** Objects *)

Lemma obj_get_set_same {V} (o : JS.obj V) (k : string) (v : V) :
  JS.obj_get (JS.obj_set o k v) k = Some v.
Proof.
  induction o as [|[k' v'] o IH]; simpl.
  - rewrite String.eqb_refl. reflexivity.
  - destruct (String.eqb k' k) eqn:E; simpl; rewrite E; [reflexivity|exact IH].
Qed.

Lemma obj_get_set_other {V} (o : JS.obj V) (k k' : string) (v : V) :
  k <> k' -> JS.obj_get (JS.obj_set o k v) k' = JS.obj_get o k'.
Proof.
  intro Hne. induction o as [|[k0 v0] o IH]; simpl.
  - apply String.eqb_neq in Hne. rewrite Hne. reflexivity.
  - destruct (String.eqb k0 k) eqn:E; simpl.
    + apply String.eqb_eq in E. subst k0. apply String.eqb_neq in Hne.
      rewrite Hne. reflexivity.
    + rewrite IH. reflexivity.
Qed.

(** ** Credentials and the security requirement of an endpoint *)

Lemma query_key_resolved (defaultAuth auth : option AuthConfig) (a : AuthConfig)
    (key name : string) :
  resolveAuth auth defaultAuth = Some a ->
  type a = apiKey -> apiKeyValue a = Some key -> apiKeyName a = Some name ->
  key <> "" -> name <> "" -> apiKeyIn a = Some query ->
  getAuthQueryParams defaultAuth auth = [(name, key)].
Proof.
  intros Hr Ht Hk Hn Hke Hne Hi. unfold getAuthQueryParams.
  rewrite Hr, Ht, Hi, Hk, Hn.
  apply present_some in Hke. apply present_some in Hne. rewrite Hke, Hne. reflexivity.
Qed.

(** C5, as amended.  The header resolver of the legacy server gives no
    header for an endpoint whose effective security requirement list (the
    operation's, else the document's, else none) is empty, also when a
    default [AuthConfig] is configured.  The query parameter of an API key
    does not depend on the requirement list: whenever the credentials
    resolved for the call are an apiKey bundle with [apiKeyIn = query] and
    key and name present, the request carries it, in the legacy and in the
    simplified server. *)
Theorem credentials_and_security :
  (forall defaultAuth specSecurity auth op,
     Legacy.requiredSchemes specSecurity (Some op) = [] ->
     Legacy.call_headers defaultAuth specSecurity auth op = []) /\
  (forall specSecurity op,
     security op = Some [] -> Legacy.requiredSchemes specSecurity (Some op) = []) /\
  (forall defaultAuth auth a key name,
     resolveAuth auth defaultAuth = Some a ->
     type a = apiKey -> apiKeyValue a = Some key -> apiKeyName a = Some name ->
     key <> "" -> name <> "" -> apiKeyIn a = Some query ->
     Legacy.call_query defaultAuth auth = [(name, key)]) /\
  (forall s targetPath targetMethod input a key name,
     resolveAuth (Swagger.call_credentials (Swagger.call_auth input))
       (Swagger.defaultAuth s) = Some a ->
     type a = apiKey -> apiKeyValue a = Some key -> apiKeyName a = Some name ->
     key <> "" -> name <> "" -> apiKeyIn a = Some query ->
     JS.obj_get (Swagger.cfg_params (Swagger.request_config s targetPath targetMethod input))
       name
     = Some (JS.VString key)).
Proof.
  repeat split.
  - intros d sec auth op H. unfold Legacy.call_headers, Legacy.getAuthHeaders.
    rewrite H. destruct (resolveAuth auth d); reflexivity.
  - intros sec op H. unfold Legacy.requiredSchemes. rewrite H. reflexivity.
  - intros d auth a key name Hr Ht Hk Hn Hke Hne Hi.
    unfold Legacy.call_query. eapply query_key_resolved; eassumption.
  - intros s p m input a key name Hr Ht Hk Hn Hke Hne Hi.
    unfold Swagger.request_config. simpl Swagger.cfg_params.
    rewrite (query_key_resolved _ _ a key name Hr Ht Hk Hn Hke Hne Hi).
    unfold JS.spread. simpl. apply obj_get_set_same.
Qed.

Lemma credentials_and_security_witness :
  Legacy.call_headers (Some bearer_token) None None open_operation = [] /\
  JS.obj_get (Swagger.cfg_params
                (Swagger.request_config (open_server key_in_query) "/ping" "get" ping))
    "api_key"
  = Some (JS.VString "secret").
Proof.
  split.
  - exact (proj1 credentials_and_security (Some bearer_token) None None open_operation
             eq_refl).
  - refine (proj2 (proj2 (proj2 credentials_and_security))
              (open_server key_in_query) "/ping" "get" ping key_in_query
              "secret" "api_key" eq_refl eq_refl eq_refl eq_refl _ _ eq_refl);
      discriminate.
Defined.

(** A call of the simplified server to an endpoint that declares an empty
    security requirement list carries the default credentials. *)
Lemma credentials_reach_open_endpoint :
  security open_operation = Some [] /\
  Swagger.find_operation (Swagger.call_lookup ping)
    (Swagger.paths (open_server key_in_query))
  = Some ("/ping", "get", open_operation) /\
  Swagger.cfg_params (Swagger.request_config (open_server key_in_query) "/ping" "get" ping)
  = [("api_key", JS.VString "secret")] /\
  Swagger.cfg_headers (Swagger.request_config (open_server bearer_token) "/ping" "get" ping)
  = [("Authorization", "Bearer secret")].
Proof. repeat split; reflexivity. Qed.

(** ** Identifiers of Postman requests *)

(** C9 at a collection with two requests of one name: both get the same
    id, no suffix is added, and a lookup by that id gives the first. *)
Theorem postman_ids_collide :
  let collection :=
    [request_to "Get User" "https://api.test/users/1";
     request_to "Get User" "https://api.test/users/2"] in
  let requests := Postman.parseAllRequests collection in
  map Postman.id requests = ["get_user"; "get_user"] /\
  ~ NoDup (map Postman.id requests) /\
  map Postman.url requests = ["https://api.test/users/1"; "https://api.test/users/2"] /\
  option_map Postman.url
    (Postman.find_request (Postman.mkLookup (Some "get_user") None) requests)
  = Some "https://api.test/users/1".
Proof.
  repeat split; try reflexivity.
  simpl. intro H. inversion H as [|x l Hin Hnd]; subst. apply Hin. left; reflexivity.
Qed.

(** The legacy server tells the two requests apart by a numeric suffix. *)
Example legacy_tool_names_are_suffixed :
  LegacyPostman.registerTools
    [request_to "Get User" "https://api.test/users/1";
     request_to "Get User" "https://api.test/users/2";
     Postman.Folder (Some "Users") [request_to "Get User" "https://api.test/users/3"]]
  = ["get_user"; "get_user_1"; "users_get_user"].
Proof. reflexivity. Qed.

(** An explicit [operationId] can also equal the id derived for another
    operation. *)
Example openapi_ids_can_collide :
  map (fun x => operationIdOf (snd (fst x)) (fst (fst x)) (snd x))
    (operations
       [("/a", Some [("get", Some (mkOperation (Some "get-/b") None None None None None))]);
        ("/b", Some [("get", Some (mkOperation None None None None None None))])])
  = ["get-/b"; "get-/b"].
Proof. reflexivity. Qed.

(** ** Query parameters of a Postman dispatch *)

(** The test of the second loop of [executeRequest] on the name alone. *)
Lemma add_query_blocked (url : string) (q : JS.obj JS.value) (kv : string * JS.value) :
  JS.includes url (":" ++ fst kv) = true \/
  JS.includes url ("{{" ++ fst kv ++ "}}") = true ->
  Postman.add_query url q kv = q.
Proof.
  unfold Postman.add_query. intros [H|H]; rewrite H; simpl.
  - rewrite andb_false_r. reflexivity.
  - rewrite andb_false_r. reflexivity.
Qed.

Lemma add_query_other (url : string) (q : JS.obj JS.value) (kv : string * JS.value)
    (k : string) :
  fst kv <> k -> JS.obj_get (Postman.add_query url q kv) k = JS.obj_get q k.
Proof.
  intro Hne. unfold Postman.add_query.
  destruct (_ && _ && _); [|reflexivity]. apply obj_get_set_other. exact Hne.
Qed.

Lemma fold_add_query_other (url : string) (parameters : JS.obj JS.value)
    (q : JS.obj JS.value) (k : string) :
  ~ In k (map fst parameters) ->
  JS.obj_get (fold_left (Postman.add_query url) parameters q) k = JS.obj_get q k.
Proof.
  revert q. induction parameters as [|kv rest IH]; intros q Hn; simpl; [reflexivity|].
  rewrite IH by (intro H; apply Hn; right; exact H).
  apply add_query_other. intro H. apply Hn. left. exact H.
Qed.

Lemma fold_add_query_blocked (url : string) (parameters : JS.obj JS.value)
    (q : JS.obj JS.value) (k : string) :
  JS.includes url (":" ++ k) = true \/ JS.includes url ("{{" ++ k ++ "}}") = true ->
  JS.obj_get (fold_left (Postman.add_query url) parameters q) k = JS.obj_get q k.
Proof.
  intro Hb. revert q. induction parameters as [|kv rest IH]; intro q; simpl; [reflexivity|].
  rewrite IH. destruct (string_dec (fst kv) k) as [E|Hne].
  - rewrite add_query_blocked by (rewrite E; exact Hb). reflexivity.
  - apply add_query_other. exact Hne.
Qed.

Lemma fold_add_query_sent (url : string) (parameters : JS.obj JS.value)
    (q : JS.obj JS.value) (k : string) (v : JS.value) :
  NoDup (map fst parameters) -> In (k, v) parameters -> v <> JS.VUndefined ->
  JS.includes url (":" ++ k) = false ->
  JS.includes url ("{{" ++ k ++ "}}") = false ->
  JS.obj_get (fold_left (Postman.add_query url) parameters q) k = Some v.
Proof.
  intros Hnd Hin Hv H1 H2. revert q Hnd Hin.
  induction parameters as [|kv rest IH]; intros q Hnd Hin; [contradiction|].
  simpl. inversion Hnd as [|x l Hnotin Hnd']; subst.
  destruct Hin as [->|Hin].
  - rewrite fold_add_query_other by exact Hnotin.
    unfold Postman.add_query. cbn [fst snd]. rewrite H1, H2.
    destruct v; try (simpl; apply obj_get_set_same). contradiction.
  - apply IH; assumption.
Qed.

(** C10, as amended.  A caller-supplied parameter with a defined value is
    added to the query parameters exactly when the URL, inspected after the
    variables and the path parameters have been substituted, contains
    neither [:name] nor [{{name}}].  A parameter that was substituted into
    the path is therefore sent in the query too when no such text is left,
    as [id] is for [{{baseUrl}}/users/:id]; when the text is still there
    the query holds for that name only what the credentials put. *)
Theorem substituted_parameters_in_query :
  (forall s r parameters body auth k v,
     NoDup (map fst parameters) -> In (k, v) parameters -> v <> JS.VUndefined ->
     JS.includes (Postman.final_url s r parameters) (":" ++ k) = false ->
     JS.includes (Postman.final_url s r parameters) ("{{" ++ k ++ "}}") = false ->
     JS.obj_get (Postman.cfg_params (Postman.request_config s r parameters body auth)) k
     = Some v) /\
  (forall s r parameters body auth k,
     JS.includes (Postman.final_url s r parameters) (":" ++ k) = true \/
     JS.includes (Postman.final_url s r parameters) ("{{" ++ k ++ "}}") = true ->
     JS.obj_get (Postman.cfg_params (Postman.request_config s r parameters body auth)) k
     = JS.obj_get
         (Postman.as_values (getAuthQueryParams (Postman.defaultAuth s) auth)) k) /\
  (let cfg :=
     Postman.request_config
       (Postman.mkServer [] [("baseUrl", JS.VString "https://api.test")] None)
       (Postman.mkPmRequest None (Some "{{baseUrl}}/users/:id") None)
       [("id", JS.VString "7")] JS.VUndefined None in
   Postman.cfg_url cfg = "https://api.test/users/7" /\
   Postman.cfg_params cfg = [("id", JS.VString "7")]).
Proof.
  split; [|split; [|split; reflexivity]].
  - intros s r parameters body auth k v Hnd Hin Hv H1 H2.
    unfold Postman.request_config. simpl Postman.cfg_params.
    apply fold_add_query_sent; assumption.
  - intros s r parameters body auth k H.
    unfold Postman.request_config. simpl Postman.cfg_params.
    apply fold_add_query_blocked. exact H.
Qed.

Lemma substituted_parameters_in_query_witness :
  JS.obj_get
    (Postman.cfg_params
       (Postman.request_config
          (Postman.mkServer [] [("baseUrl", JS.VString "https://api.test")] None)
          (Postman.mkPmRequest None (Some "{{baseUrl}}/users/:id") None)
          [("id", JS.VString "7"); ("verbose", JS.VBool true)] JS.VUndefined None))
    "verbose"
  = Some (JS.VBool true).
Proof.
  refine (proj1 substituted_parameters_in_query
            (Postman.mkServer [] [("baseUrl", JS.VString "https://api.test")] None)
            (Postman.mkPmRequest None (Some "{{baseUrl}}/users/:id") None)
            [("id", JS.VString "7"); ("verbose", JS.VBool true)] JS.VUndefined None
            "verbose" (JS.VBool true) _ (or_intror (or_introl eq_refl)) _ eq_refl eq_refl).
  - repeat constructor; simpl; intuition discriminate.
  - discriminate.
Defined.

(** A parameter that was substituted into the path is not sent in the
    query when the URL still holds a longer token that starts like its
    own, or a second occurrence of it. *)
Lemma substituted_parameter_not_in_query :
  (let cfg :=
     Postman.request_config (Postman.mkServer [] [] None)
       (Postman.mkPmRequest None (Some "https://api.test/users/:id/posts/:idx") None)
       [("id", JS.VString "7")] JS.VUndefined None in
   Postman.cfg_url cfg = "https://api.test/users/7/posts/:idx" /\
   JS.obj_get (Postman.cfg_params cfg) "id" = None) /\
  (let cfg :=
     Postman.request_config (Postman.mkServer [] [] None)
       (Postman.mkPmRequest None (Some "https://api.test/a/:id/b/:id") None)
       [("id", JS.VString "7")] JS.VUndefined None in
   Postman.cfg_url cfg = "https://api.test/a/7/b/:id" /\
   JS.obj_get (Postman.cfg_params cfg) "id" = None).
Proof. repeat split; reflexivity. Qed.

(** ** Replacement of the first occurrence *)

Lemma replace_match (text pat rep : string) :
  String.prefix pat text = true ->
  JS.replace text pat rep = rep ++ JS.drop (String.length pat) text.
Proof. intro H. destruct text; cbn [JS.replace]; rewrite H; reflexivity. Qed.

Lemma replace_miss (c : ascii) (text pat rep : string) :
  String.prefix pat (String c text) = false ->
  JS.replace (String c text) pat rep = String c (JS.replace text pat rep).
Proof. intro H. cbn [JS.replace]. rewrite H. reflexivity. Qed.

Lemma replace_empty (c : ascii) (pat rep : string) :
  JS.replace "" (String c pat) rep = "".
Proof. reflexivity. Qed.

Lemma replace_head (pat rest rep : string) :
  JS.replace (pat ++ rest) pat rep = rep ++ rest.
Proof. rewrite replace_match by apply prefix_append. rewrite drop_append. reflexivity. Qed.


Lemma every_append (P : ascii -> bool) (a b : string) :
  every P (a ++ b) = every P a && every P b.
Proof. induction a as [|c a IH]; simpl; [reflexivity|]. rewrite IH. apply andb_assoc. Qed.

Lemma every_weaken (P Q : ascii -> bool) (s : string) :
  (forall c, P c = true -> Q c = true) -> every P s = true -> every Q s = true.
Proof.
  intro H. induction s as [|c s IH]; simpl; [reflexivity|].
  intro E. apply andb_prop in E. destruct E as [E1 E2].
  rewrite (H c E1), (IH E2). reflexivity.
Qed.



Lemma inert_nil (pat : string) : inert pat "".
Proof. intros rest rep. reflexivity. Qed.

Lemma inert_append (pat p q : string) : inert pat p -> inert pat q -> inert pat (p ++ q).
Proof.
  intros Hp Hq rest rep. rewrite !append_assoc, Hp, Hq. reflexivity.
Qed.

Lemma inert_char (p0 : ascii) (pat : string) (c : ascii) :
  Ascii.eqb p0 c = false -> inert (String p0 pat) (String c "").
Proof.
  intros H rest rep. change (String c "" ++ rest) with (String c rest).
  apply replace_miss. rewrite prefix_cons, H. reflexivity.
Qed.

Lemma inert_other_chars (p0 : ascii) (pat s : string) :
  every (fun c => negb (Ascii.eqb p0 c)) s = true -> inert (String p0 pat) s.
Proof.
  induction s as [|c s IH]; intro H; [apply inert_nil|].
  simpl in H. apply andb_prop in H. destruct H as [Hc Hs].
  change (String c s) with (String c "" ++ s). apply inert_append.
  - apply inert_char. apply negb_true_iff. exact Hc.
  - apply IH. exact Hs.
Qed.

Lemma brace_free_no_open (s : string) :
  brace_free s = true -> every (fun c => negb (Ascii.eqb "{"%char c)) s = true.
Proof.
  apply every_weaken. intros c H. unfold is_brace in H.
  rewrite Ascii.eqb_sym. destruct (Ascii.eqb c "{"); [discriminate|reflexivity].
Qed.

Lemma brace_free_no_close (s : string) :
  brace_free s = true -> every (fun c => negb (Ascii.eqb c "}"%char)) s = true.
Proof.
  apply every_weaken. intros c H. unfold is_brace in H.
  destruct (Ascii.eqb c "}"); [rewrite orb_true_r in H; discriminate|reflexivity].
Qed.

(** Two names closed by a brace: one is a prefix of the other only when
    the names are the same. *)
Lemma closed_name_prefix (k n x y : string) :
  every (fun c => negb (Ascii.eqb c "}"%char)) k = true ->
  every (fun c => negb (Ascii.eqb c "}"%char)) n = true ->
  String.prefix (k ++ String "}" x) (n ++ String "}" y) = true -> k = n.
Proof.
  revert n. induction k as [|c k IH]; intros n Hk Hn H.
  - destruct n as [|d n]; [reflexivity|]. exfalso.
    change ("" ++ String "}" x) with (String "}" x) in H.
    change (String d n ++ String "}" y) with (String d (n ++ String "}" y)) in H.
    rewrite prefix_cons in H. apply andb_prop in H. destruct H as [H _].
    simpl in Hn. apply andb_prop in Hn. destruct Hn as [Hd _].
    rewrite Ascii.eqb_sym in H. rewrite H in Hd. discriminate.
  - simpl in Hk. apply andb_prop in Hk. destruct Hk as [Hc Hk].
    change (String c k ++ String "}" x) with (String c (k ++ String "}" x)) in H.
    destruct n as [|d n].
    + exfalso. change ("" ++ String "}" y) with (String "}" y) in H.
      rewrite prefix_cons in H. apply andb_prop in H. destruct H as [H _].
      rewrite H in Hc. discriminate.
    + change (String d n ++ String "}" y) with (String d (n ++ String "}" y)) in H.
      rewrite prefix_cons in H. apply andb_prop in H. destruct H as [Hcd H].
      apply Ascii.eqb_eq in Hcd. subst d.
      simpl in Hn. apply andb_prop in Hn. destruct Hn as [_ Hn].
      f_equal. apply IH; assumption.
Qed.

(** A parameter [{n}] is inert for the pattern of another name. *)
Lemma inert_other_param (k n : string) :
  brace_free k = true -> brace_free n = true -> k <> n ->
  inert ("{" ++ k ++ "}") ("{" ++ n ++ "}").
Proof.
  intros Hk Hn Hne rest rep.
  change (("{" ++ n ++ "}") ++ rest) with (String "{" ((n ++ "}") ++ rest)).
  change ("{" ++ k ++ "}") with (String "{" (k ++ "}")).
  rewrite replace_miss.
  - cbn [append]. f_equal. apply inert_other_chars.
    rewrite every_append. rewrite (brace_free_no_open n Hn). reflexivity.
  - rewrite prefix_cons, Ascii.eqb_refl. cbn [andb].
    destruct (String.prefix (k ++ "}") ((n ++ "}") ++ rest)) eqn:E; [|reflexivity].
    exfalso. apply Hne. rewrite append_assoc in E.
    eapply closed_name_prefix; [apply brace_free_no_close; exact Hk
                               |apply brace_free_no_close; exact Hn|exact E].
Qed.

(** ** Path templates *)

Lemma split_not_nil (sep : ascii) (s : string) : JS.split sep s <> [].
Proof.
  destruct s as [|c s]; simpl; [discriminate|].
  destruct (Ascii.eqb c sep); [discriminate|].
  destruct (JS.split sep s); discriminate.
Qed.

Lemma join_cons (x : string) (l : list string) :
  JS.join "/" (x :: l)
  = x ++ match l with [] => "" | _ :: _ => "/" ++ JS.join "/" l end.
Proof.
  unfold JS.join. destruct l; simpl; [symmetry; apply append_nil_r|reflexivity].
Qed.

Lemma join_split (path : string) : JS.join "/" (JS.split "/" path) = path.
Proof.
  induction path as [|c path IH]; [reflexivity|].
  simpl JS.split. destruct (Ascii.eqb_spec c "/"%char) as [->|Hc].
  - rewrite join_cons. destruct (JS.split "/" path) eqn:E.
    + exfalso. eapply split_not_nil. exact E.
    + rewrite IH. reflexivity.
  - destruct (JS.split "/" path) as [|w ws] eqn:E.
    + exfalso. eapply split_not_nil. exact E.
    + rewrite join_cons. rewrite join_cons in IH. rewrite <- IH. reflexivity.
Qed.

Lemma drop_last_cons (d : ascii) (t : string) :
  t <> "" -> Swagger.drop_last (String d t) = String d (Swagger.drop_last t).
Proof. destruct t; [congruence|reflexivity]. Qed.

Lemma drop_last_snoc (s : string) (c : ascii) :
  Swagger.drop_last (s ++ String c "") = s.
Proof.
  induction s as [|d s IH]; [reflexivity|].
  change (String d s ++ String c "") with (String d (s ++ String c "")).
  rewrite drop_last_cons by (destruct s; discriminate).
  rewrite IH. reflexivity.
Qed.

Lemma param_name_some (segment n : string) :
  param_name segment = Some n -> segment = "{" ++ n ++ "}".
Proof.
  unfold param_name. destruct (JS.startsWith segment "{") eqn:Hs; [|discriminate].
  destruct (JS.endsWith segment "}") eqn:He; [|discriminate].
  simpl. intro H. inversion H; subst n. clear H.
  unfold JS.startsWith in Hs. apply prefix_split in Hs. simpl in Hs.
  apply endsWith_iff in He. destruct He as [pre He].
  destruct pre as [|c pre].
  - rewrite He in Hs. destruct segment; discriminate.
  - rewrite He. rewrite He in Hs. simpl in Hs. inversion Hs; subst c.
    unfold Swagger.slice_1_m1. simpl JS.drop.
    rewrite drop_last_snoc. reflexivity.
Qed.

Lemma param_name_braces (n : string) : param_name ("{" ++ n ++ "}") = Some n.
Proof.
  unfold param_name.
  assert (Hs : JS.startsWith ("{" ++ n ++ "}") "{" = true).
  { unfold JS.startsWith. apply (prefix_append "{" (n ++ "}")). }
  assert (He : JS.endsWith ("{" ++ n ++ "}") "}" = true).
  { apply endsWith_iff. exists ("{" ++ n). rewrite append_assoc. reflexivity. }
  rewrite Hs, He. simpl. f_equal. unfold Swagger.slice_1_m1. simpl JS.drop.
  destruct n; [reflexivity|]. apply drop_last_snoc.
Qed.

Lemma param_name_plain (s : string) : brace_free s = true -> param_name s = None.
Proof.
  intro H. unfold param_name, JS.startsWith.
  destruct s as [|c s]; [reflexivity|].
  simpl in H. apply andb_prop in H. destruct H as [Hc _].
  rewrite prefix_cons. unfold is_brace in Hc.
  rewrite Ascii.eqb_sym. destruct (Ascii.eqb c "{"); [discriminate|reflexivity].
Qed.

Lemma pathParams_names (path : string) :
  Swagger.pathParams path = names_of (JS.split "/" path).
Proof.
  unfold Swagger.pathParams, names_of.
  induction (JS.split "/" path) as [|x l IH]; [reflexivity|].
  simpl. unfold param_name at 1.
  destruct (JS.startsWith x "{" && JS.endsWith x "}"); simpl; rewrite IH; reflexivity.
Qed.

Lemma has_in (names : list string) (k : string) :
  Swagger.has names k = true <-> In k names.
Proof.
  unfold Swagger.has. rewrite existsb_exists. split.
  - intros (x & Hin & E). apply String.eqb_eq in E. subst x. exact Hin.
  - intro H. exists k. split; [exact H|apply String.eqb_refl].
Qed.

Lemma includes_false_cons (c : ascii) (text pat : string) :
  JS.includes (String c text) pat = false ->
  String.prefix pat (String c text) = false /\ JS.includes text pat = false.
Proof. rewrite includes_unfold. apply orb_false_elim. Qed.

(** A text in which the pattern does not occur is left alone. *)
Lemma replace_absent (text pat rep : string) :
  JS.includes text pat = false -> JS.replace text pat rep = text.
Proof.
  induction text as [|c text IH]; intro H.
  - cbn [JS.replace]. cbn [JS.includes] in H. apply orb_false_elim in H.
    destruct H as [H _]. rewrite H. reflexivity.
  - apply includes_false_cons in H. destruct H as [Hp Hi].
    rewrite replace_miss by exact Hp. rewrite IH by exact Hi. reflexivity.
Qed.

(** A pattern without a slash that matches at the head of [a/...] matches
    inside [a]. *)
Lemma prefix_before_slash (pat a rest : string) :
  no_slash pat = true -> String.prefix pat (a ++ String "/" rest) = true ->
  String.prefix pat a = true.
Proof.
  revert a. induction pat as [|p pat IH]; intros a Hs H.
  - apply prefix_nil.
  - unfold no_slash in Hs. cbn [every] in Hs. apply andb_prop in Hs.
    destruct Hs as [Hp Hs]. destruct a as [|c a].
    + exfalso. change ("" ++ String "/" rest) with (String "/" rest) in H.
      rewrite prefix_cons in H. apply andb_prop in H. destruct H as [H _].
      rewrite H in Hp. discriminate.
    + change (String c a ++ String "/" rest) with (String c (a ++ String "/" rest)) in H.
      rewrite prefix_cons in H |- *. apply andb_prop in H. destruct H as [H1 H2].
      rewrite H1. cbn [andb]. apply IH; assumption.
Qed.

(** A segment in which the pattern does not occur, with the slash that
    follows it, is inert. *)
Lemma inert_before_slash (pat x : string) :
  pat <> "" -> no_slash pat = true -> JS.includes x pat = false ->
  inert pat (x ++ "/").
Proof.
  intros Hne Hs. induction x as [|c x IH]; intros Hi rest rep.
  - change (("" ++ "/") ++ rest) with (String "/" rest).
    rewrite replace_miss; [reflexivity|].
    destruct pat as [|p pat]; [congruence|].
    unfold no_slash in Hs. cbn [every] in Hs. apply andb_prop in Hs.
    destruct Hs as [Hp _]. rewrite prefix_cons.
    destruct (Ascii.eqb p "/"); [discriminate|reflexivity].
  - apply includes_false_cons in Hi. destruct Hi as [Hp Hi].
    change ((String c x ++ "/") ++ rest) with (String c ((x ++ "/") ++ rest)).
    rewrite replace_miss.
    + rewrite (IH Hi). reflexivity.
    + destruct (String.prefix pat (String c ((x ++ "/") ++ rest))) eqn:E; [|reflexivity].
      exfalso. rewrite append_assoc in E.
      change (String c (x ++ "/" ++ rest)) with (String c x ++ String "/" rest) in E.
      apply prefix_before_slash in E; [|exact Hs]. congruence.
Qed.

Lemma brace_free_no_token (s k : string) :
  brace_free s = true -> JS.includes s ("{" ++ k ++ "}") = false.
Proof.
  intro H. induction s as [|c s IH]; [reflexivity|].
  unfold brace_free in H. cbn [every] in H. apply andb_prop in H. destruct H as [Hc Hs].
  rewrite includes_unfold, (IH Hs), orb_false_r.
  change ("{" ++ k ++ "}") with (String "{" (k ++ "}")). rewrite prefix_cons.
  unfold is_brace in Hc. rewrite Ascii.eqb_sym.
  destruct (Ascii.eqb c "{"); [discriminate|reflexivity].
Qed.

Lemma token_no_slash (k : string) : no_slash k = true -> no_slash ("{" ++ k ++ "}") = true.
Proof.
  intro H. unfold no_slash in *. change ("{" ++ k ++ "}") with (String "{" (k ++ "}")).
  cbn [every]. rewrite every_append, H. reflexivity.
Qed.

Lemma includes_open_false (s : string) :
  JS.includes s "{" = false -> every (fun c => negb (Ascii.eqb "{"%char c)) s = true.
Proof.
  induction s as [|c s IH]; intro H; [reflexivity|].
  apply includes_false_cons in H. destruct H as [Hp Hi].
  cbn [every]. rewrite (IH Hi), andb_true_r.
  change "{" with (String "{" "") in Hp. rewrite prefix_cons, prefix_nil, andb_true_r in Hp.
  rewrite Hp. reflexivity.
Qed.

Lemma split_no_slash (s w : string) : In w (JS.split "/" s) -> no_slash w = true.
Proof.
  revert w. induction s as [|c s IH]; intros w Hin.
  - destruct Hin as [<-|[]]. reflexivity.
  - cbn [JS.split] in Hin. destruct (Ascii.eqb c "/") eqn:Hc.
    + destruct Hin as [<-|Hin]; [reflexivity|apply IH; exact Hin].
    + destruct (JS.split "/" s) as [|w0 ws] eqn:E.
      * destruct Hin as [<-|[]]. unfold no_slash. cbn [every]. rewrite Hc. reflexivity.
      * destruct Hin as [<-|Hin].
        -- unfold no_slash. cbn [every]. rewrite Hc. cbn [negb andb].
           apply (IH w0). left. reflexivity.
        -- apply IH. right. exact Hin.
Qed.

Lemma names_no_slash (path n : string) :
  In n (names_of (JS.split "/" path)) -> no_slash n = true.
Proof.
  intro Hin. unfold names_of in Hin. apply in_flat_map in Hin.
  destruct Hin as (seg & Hseg & Hn).
  destruct (param_name seg) as [m|] eqn:E; [|contradiction].
  destruct Hn as [->|[]]. apply param_name_some in E.
  apply split_no_slash in Hseg. subst seg. unfold no_slash in *.
  change ("{" ++ n ++ "}") with (String "{" (n ++ "}")) in Hseg.
  cbn [every] in Hseg. rewrite every_append in Hseg.
  apply andb_prop in Hseg. destruct Hseg as [_ Hseg].
  apply andb_prop in Hseg. apply Hseg.
Qed.

Lemma obj_get_spread_other {V} (a b : JS.obj V) (k : string) :
  ~ In k (map fst b) -> JS.obj_get (JS.spread a b) k = JS.obj_get a k.
Proof.
  unfold JS.spread. revert a. induction b as [|[k' v'] b IH]; intros a H; [reflexivity|].
  cbn [fold_left fst snd]. rewrite IH by (intro E; apply H; right; exact E).
  apply obj_get_set_other. intro E. apply H. left. exact E.
Qed.

Lemma names_brace_free (names segments : list string) (n : string) :
  Forall (fun seg => segment_fits names seg = true) segments ->
  In n (names_of segments) -> brace_free n = true.
Proof.
  intros Hok Hin. unfold names_of in Hin. apply in_flat_map in Hin.
  destruct Hin as (seg & Hseg & Hn).
  rewrite Forall_forall in Hok. specialize (Hok seg Hseg).
  unfold segment_fits in Hok. destruct (param_name seg) as [m|]; [|contradiction].
  destruct Hn as [->|[]]. exact Hok.
Qed.

(** A fitting segment other than [{k}] is passed over by the replacement
    of [{k}]: alone at the end of the URL, and before a slash. *)
Lemma segment_inert (names : list string) (k segment : string) :
  In k names -> brace_free k = true -> no_slash k = true ->
  segment_fits names segment = true -> segment <> "{" ++ k ++ "}" ->
  (forall rep, JS.replace segment ("{" ++ k ++ "}") rep = segment) /\
  inert ("{" ++ k ++ "}") (segment ++ "/").
Proof.
  intros Hin Hk Hs Hok Hne. unfold segment_fits in Hok.
  destruct (param_name segment) as [n|] eqn:E.
  - apply param_name_some in E. subst segment.
    assert (Hi : inert ("{" ++ k ++ "}") ("{" ++ n ++ "}")).
    { apply inert_other_param; [assumption|assumption|]. intros ->. apply Hne. reflexivity. }
    split.
    + intro rep. pose proof (Hi "" rep) as H. rewrite append_nil_r in H. rewrite H.
      change (JS.replace "" ("{" ++ k ++ "}") rep) with "". apply append_nil_r.
    + apply inert_append; [exact Hi|].
      change ("{" ++ k ++ "}") with (String "{" (k ++ "}")). apply inert_char. reflexivity.
  - rewrite forallb_forall in Hok. specialize (Hok k Hin).
    apply negb_true_iff in Hok. split.
    + intro rep. apply replace_absent. exact Hok.
    + apply inert_before_slash; [discriminate|apply token_no_slash; exact Hs|exact Hok].
Qed.

Lemma names_of_cons (x : string) (l : list string) :
  names_of (x :: l)
  = ((match param_name x with Some n => [n] | None => [] end) ++ names_of l)%list.
Proof. reflexivity. Qed.

Lemma fill_one_absent (k rep : string) (segments : list string) :
  ~ In k (names_of segments) -> map (fill_one k rep) segments = segments.
Proof.
  induction segments as [|x l IH]; intro H; [reflexivity|].
  rewrite names_of_cons in H. cbn [map].
  rewrite IH by (intro Hin; apply H; apply in_or_app; right; exact Hin).
  f_equal. unfold fill_one. destruct (String.eqb_spec x ("{" ++ k ++ "}")) as [->|]; [|reflexivity].
  exfalso. apply H. rewrite param_name_braces. left. reflexivity.
Qed.

(** One replacement on a URL made of an inert prefix and the segments of
    a fitting template changes the segment [{k}] and nothing else. *)
Lemma replace_in_segments (names : list string) (k rep : string)
    (segments : list string) (prefix : string) :
  In k names -> brace_free k = true -> no_slash k = true ->
  Forall (fun seg => segment_fits names seg = true) segments ->
  NoDup (names_of segments) ->
  inert ("{" ++ k ++ "}") prefix ->
  JS.replace (prefix ++ JS.join "/" segments) ("{" ++ k ++ "}") rep
  = prefix ++ JS.join "/" (map (fill_one k rep) segments).
Proof.
  intros Hin Hk Hs. revert prefix.
  induction segments as [|x l IH]; intros prefix Hok Hnd Hp.
  - unfold JS.join. simpl. rewrite Hp. reflexivity.
  - inversion Hok as [|x' l' Hx Hl]; subst.
    cbn [map]. rewrite !join_cons. unfold fill_one at 1.
    destruct (String.eqb_spec x ("{" ++ k ++ "}")) as [->|Hne].
    + rewrite Hp, replace_head.
      rewrite fill_one_absent.
      * destruct l; reflexivity.
      * rewrite names_of_cons, param_name_braces in Hnd.
        inversion Hnd; assumption.
    + assert (Hnd' : NoDup (names_of l)).
      { rewrite names_of_cons in Hnd.
        apply NoDup_app_remove_l in Hnd. exact Hnd. }
      destruct (segment_inert names k x Hin Hk Hs Hx Hne) as [Hq Hix].
      destruct l as [|y l'].
      * simpl map. rewrite !append_nil_r. rewrite Hp, Hq. reflexivity.
      * cbn [map].
        set (J := JS.join "/" (y :: l')).
        set (J' := JS.join "/" (fill_one k rep y :: map (fill_one k rep) l')).
        replace (prefix ++ x ++ "/" ++ J) with ((prefix ++ x ++ "/") ++ J)
          by (rewrite !append_assoc; reflexivity).
        replace (prefix ++ x ++ "/" ++ J') with ((prefix ++ x ++ "/") ++ J')
          by (rewrite !append_assoc; reflexivity).
        subst J J'. apply (IH (prefix ++ x ++ "/")); [assumption|assumption|].
        apply inert_append; [exact Hp|exact Hix].
Qed.

Lemma unreserved_no_brace (c : ascii) : JS.uri_unreserved c = true -> is_brace c = false.
Proof. destruct c as [[] [] [] [] [] [] [] []]; vm_compute; congruence. Qed.

Lemma percent_encode_brace_free (c : ascii) : brace_free (JS.percent_encode c) = true.
Proof. destruct c as [[] [] [] [] [] [] [] []]; reflexivity. Qed.

Lemma encode_brace_free (s : string) : brace_free (JS.encodeURIComponent s) = true.
Proof.
  unfold brace_free. induction s as [|c s IH]; [reflexivity|].
  simpl JS.encodeURIComponent. rewrite every_append, IH, andb_true_r.
  destruct (JS.uri_unreserved c) eqn:E.
  - simpl. rewrite (unreserved_no_brace c E). reflexivity.
  - apply percent_encode_brace_free.
Qed.

Lemma names_of_fill_one (k rep : string) (segments : list string) :
  brace_free rep = true ->
  names_of (map (fill_one k rep) segments)
  = filter (fun n => negb (String.eqb n k)) (names_of segments).
Proof.
  intro Hr. induction segments as [|x l IH]; [reflexivity|].
  cbn [map]. rewrite !names_of_cons, filter_app, IH. f_equal.
  unfold fill_one. destruct (String.eqb_spec x ("{" ++ k ++ "}")) as [->|Hne].
  - rewrite (param_name_plain rep Hr), param_name_braces. simpl.
    rewrite String.eqb_refl. reflexivity.
  - destruct (param_name x) as [n|] eqn:E; [|reflexivity].
    simpl. destruct (String.eqb_spec n k) as [->|]; [|reflexivity].
    exfalso. apply Hne. apply param_name_some. exact E.
Qed.

Lemma segments_fit_fill_one (names : list string) (k rep : string) (segments : list string) :
  brace_free rep = true ->
  Forall (fun seg => segment_fits names seg = true) segments ->
  Forall (fun seg => segment_fits names seg = true) (map (fill_one k rep) segments).
Proof.
  intros Hr H. induction H as [|x l Hx Hl IH]; [constructor|].
  cbn [map]. constructor; [|exact IH].
  unfold fill_one. destruct (String.eqb x ("{" ++ k ++ "}")); [|exact Hx].
  unfold segment_fits. rewrite (param_name_plain rep Hr).
  apply forallb_forall. intros n _. rewrite brace_free_no_token by exact Hr. reflexivity.
Qed.

Lemma fill_skip (k : string) (v : JS.value) (rest : JS.obj JS.value) (segment : string) :
  (forall n, param_name segment = Some n -> n <> k) ->
  fill ((k, v) :: rest) segment = fill rest segment.
Proof.
  intro H. unfold fill. destruct (param_name segment) as [n|]; [|reflexivity].
  simpl. specialize (H n eq_refl).
  destruct (String.eqb_spec k n) as [->|]; [contradiction|reflexivity].
Qed.

Lemma fill_after_one (k : string) (v : JS.value) (rest : JS.obj JS.value)
    (segment : string) :
  fill rest (fill_one k (JS.encodeURIComponent (JS.to_string v)) segment)
  = fill ((k, v) :: rest) segment.
Proof.
  unfold fill_one. destruct (String.eqb_spec segment ("{" ++ k ++ "}")) as [->|Hne].
  - unfold fill at 2. rewrite param_name_braces. simpl. rewrite String.eqb_refl.
    unfold fill. rewrite param_name_plain by apply encode_brace_free. reflexivity.
  - symmetry. apply fill_skip. intros n E ->. apply Hne. apply param_name_some. exact E.
Qed.

(** The loop of [make_api_call] on a fitting template fills the
    segments. *)
Lemma substitute_segments (names : list string) (base : string)
    (params : JS.obj JS.value) (segments : list string) :
  JS.includes base "{" = false ->
  Forall (fun seg => segment_fits names seg = true) segments ->
  NoDup (names_of segments) ->
  incl (names_of segments) names ->
  (forall n, In n names -> brace_free n = true /\ no_slash n = true) ->
  Swagger.substitute names params (base ++ JS.join "/" segments)
  = base ++ JS.join "/" (map (fill params) segments).
Proof.
  intros Hb Hok Hnd Hincl Hnames. revert segments Hok Hnd Hincl.
  unfold Swagger.substitute.
  induction params as [|[k v] rest IH]; intros segments Hok Hnd Hincl.
  - simpl. f_equal. f_equal. symmetry. rewrite <- (map_id segments) at 2.
    apply map_ext. intro seg. unfold fill.
    destruct (param_name seg); reflexivity.
  - cbn [fold_left fst snd].
    destruct (Swagger.has names k) eqn:Hhas.
    + apply has_in in Hhas. destruct (Hnames k Hhas) as [Hk Hs].
      rewrite (replace_in_segments names);
        [|exact Hhas|exact Hk|exact Hs|exact Hok|exact Hnd|].
      * rewrite IH.
        -- rewrite map_map. f_equal. f_equal. apply map_ext. intro seg.
           apply fill_after_one.
        -- apply segments_fit_fill_one; [apply encode_brace_free|exact Hok].
        -- rewrite names_of_fill_one by apply encode_brace_free.
           apply NoDup_filter. exact Hnd.
        -- rewrite names_of_fill_one by apply encode_brace_free.
           intros n Hn. apply filter_In in Hn. apply Hincl. apply Hn.
      * change ("{" ++ k ++ "}") with (String "{" (k ++ "}")).
        apply inert_other_chars. apply includes_open_false. exact Hb.
    + rewrite IH by assumption. f_equal. f_equal. apply map_ext_in.
      intros seg Hseg. symmetry. apply fill_skip. intros n E ->.
      assert (Hin : In k names).
      { apply Hincl. unfold names_of. apply in_flat_map. exists seg.
        split; [exact Hseg|]. rewrite E. left. reflexivity. }
      apply has_in in Hin. congruence.
Qed.

(** ** Query parameters of an OpenAPI dispatch *)

Lemma obj_set_new {V} (o : JS.obj V) (k : string) (v : V) :
  ~ In k (map fst o) -> JS.obj_set o k v = (o ++ [(k, v)])%list.
Proof.
  induction o as [|[k' v'] o IH]; intro H; [reflexivity|].
  simpl. destruct (String.eqb_spec k' k) as [->|Hne].
  - exfalso. apply H. left. reflexivity.
  - rewrite IH; [reflexivity|]. intro Hin. apply H. right. exact Hin.
Qed.

Lemma fold_obj_set {V} (l acc : JS.obj V) :
  NoDup (map fst (acc ++ l)) ->
  fold_left (fun acc kv => JS.obj_set acc (fst kv) (snd kv)) l acc = (acc ++ l)%list.
Proof.
  revert acc. induction l as [|[k v] l IH]; intros acc H; simpl.
  - symmetry. apply app_nil_r.
  - rewrite obj_set_new.
    + rewrite IH; rewrite <- app_assoc; [reflexivity|exact H].
    + rewrite map_app in H. simpl in H. apply NoDup_remove_2 in H.
      intro Hin. apply H. apply in_or_app. left. exact Hin.
Qed.

Lemma NoDup_keys_filter {V} (f : string * V -> bool) (l : JS.obj V) :
  NoDup (map fst l) -> NoDup (map fst (filter f l)).
Proof.
  induction l as [|x l IH]; intro H; [constructor|].
  simpl in H. inversion H as [|y m Hx Hl]; subst.
  simpl. destruct (f x); [|apply IH; exact Hl].
  simpl. constructor; [|apply IH; exact Hl].
  intro Hin. apply Hx. apply in_map_iff in Hin. destruct Hin as (z & Hz & Hf).
  apply filter_In in Hf. apply in_map_iff. exists z. split; [exact Hz|apply Hf].
Qed.

Lemma queryParams_remaining (names : list string) (params : JS.obj JS.value) :
  NoDup (map fst params) ->
  Swagger.queryParams names params
  = filter (fun kv => negb (Swagger.has names (fst kv))) params.
Proof.
  intro H. unfold Swagger.queryParams. rewrite fold_obj_set; [reflexivity|].
  simpl. apply NoDup_keys_filter. exact H.
Qed.

(** C6, as amended.  The base URL holds no opening brace; in the path
    template the [{name}] segments have pairwise distinct names without
    braces, and no other segment contains the text [{name}] of one of
    them.  Then the URL of an OpenAPI dispatch is the base URL followed by
    the template in which every [{name}] segment whose name the caller
    supplies is replaced by the URL-encoded value; the caller's query
    parameters are exactly the remaining parameters, in order, and the
    query parameters of the credentials are put over them.  For
    [/users/{id}] and [{id: "42", verbose: true}] the URL ends in
    [/users/42], and the query holds, under every name the credentials do
    not use, what [{verbose: true}] holds: [verbose=true] and no [id]. *)
Theorem path_parameters_substituted :
  (forall s targetPath targetMethod input,
     let params :=
       match Swagger.call_parameters input with Some p => p | None => [] end in
     let names := Swagger.pathParams targetPath in
     let remaining := filter (fun kv => negb (Swagger.has names (fst kv))) params in
     let cfg := Swagger.request_config s targetPath targetMethod input in
     JS.includes (Swagger.apiBaseUrl s) "{" = false ->
     Forall (fun seg => segment_fits names seg = true) (JS.split "/" targetPath) ->
     NoDup names ->
     NoDup (map fst params) ->
     Swagger.cfg_url cfg = filled_url s targetPath params /\
     Swagger.queryParams names params = remaining /\
     Swagger.cfg_params cfg
     = JS.spread remaining
         (Swagger.as_values
            (getAuthQueryParams (Swagger.defaultAuth s)
               (Swagger.call_credentials (Swagger.call_auth input))))) /\
  (forall s targetMethod lookup body auth,
     let params := [("id", JS.VString "42"); ("verbose", JS.VBool true)] in
     let cfg :=
       Swagger.request_config s "/users/{id}" targetMethod
         (Swagger.mkCallInput lookup (Some params) body auth) in
     JS.includes (Swagger.apiBaseUrl s) "{" = false ->
     Swagger.cfg_url cfg = Swagger.apiBaseUrl s ++ "/users/42" /\
     JS.endsWith (Swagger.cfg_url cfg) "/users/42" = true /\
     Swagger.queryParams (Swagger.pathParams "/users/{id}") params
     = [("verbose", JS.VBool true)] /\
     (forall name,
        ~ In name
            (map fst (getAuthQueryParams (Swagger.defaultAuth s)
                        (Swagger.call_credentials auth))) ->
        JS.obj_get (Swagger.cfg_params cfg) name
        = JS.obj_get [("verbose", JS.VBool true)] name)).
Proof.
  assert (General : forall s targetPath targetMethod input,
     let params :=
       match Swagger.call_parameters input with Some p => p | None => [] end in
     JS.includes (Swagger.apiBaseUrl s) "{" = false ->
     Forall (fun seg => segment_fits (Swagger.pathParams targetPath) seg = true)
       (JS.split "/" targetPath) ->
     NoDup (Swagger.pathParams targetPath) ->
     Swagger.cfg_url (Swagger.request_config s targetPath targetMethod input)
     = filled_url s targetPath params).
  { intros s targetPath targetMethod input params Hb Hok Hnd.
    unfold Swagger.request_config, filled_url. cbn [Swagger.cfg_url]. fold params.
    rewrite <- (join_split targetPath) at 2.
    rewrite pathParams_names in Hnd, Hok |- *.
    apply substitute_segments; try assumption.
    - apply incl_refl.
    - intros n Hn. split; [eapply names_brace_free; eassumption|].
      eapply names_no_slash; eassumption. }
  split.
  - intros s targetPath targetMethod input params names remaining cfg Hb Hok Hnd Hkeys.
    split; [apply General; assumption|]. split.
    + apply queryParams_remaining. exact Hkeys.
    + subst cfg. unfold Swagger.request_config. cbn [Swagger.cfg_params]. fold params.
      fold names. rewrite queryParams_remaining by exact Hkeys. reflexivity.
  - intros s targetMethod lookup body auth params cfg Hb.
    assert (Hurl : Swagger.cfg_url cfg = Swagger.apiBaseUrl s ++ "/users/42").
    { subst cfg. rewrite General; [reflexivity|exact Hb| |].
      - repeat constructor.
      - repeat constructor. simpl. tauto. }
    split; [exact Hurl|]. split.
    + rewrite Hurl. apply endsWith_iff. exists (Swagger.apiBaseUrl s). reflexivity.
    + split; [reflexivity|]. intros name Hname.
      subst cfg. unfold Swagger.request_config. cbn [Swagger.cfg_params Swagger.call_auth].
      apply obj_get_spread_other.
      unfold Swagger.as_values. rewrite map_map. cbn [fst]. exact Hname.
Qed.

Lemma path_parameters_substituted_witness :
  let s := Swagger.mkServer [] "https://api.example.com/v1" None in
  let params := [("x", JS.VString "a b"); ("id", JS.VNumber 7)] in
  let input :=
    Swagger.mkCallInput (Swagger.mkLookup None None None) (Some params)
      JS.VUndefined None in
  Swagger.cfg_url (Swagger.request_config s "/statuses/{x}/show/{id}.json" "get" input)
  = "https://api.example.com/v1/statuses/a%20b/show/{id}.json" /\
  Swagger.queryParams (Swagger.pathParams "/statuses/{x}/show/{id}.json") params
  = [("id", JS.VNumber 7)].
Proof.
  intros s params input.
  refine ((fun H => conj (proj1 H) (proj1 (proj2 H)))
            (proj1 path_parameters_substituted s "/statuses/{x}/show/{id}.json" "get"
               input eq_refl _ _ _)).
  - vm_compute. repeat constructor.
  - vm_compute. repeat constructor. simpl. tauto.
  - repeat constructor; simpl; intuition discriminate.
Defined.

(** The claim as it is stated fails where the hypotheses above do: a name
    that labels two segments is filled in once; a base URL that holds
    [{id}] takes the value and leaves the path as it is; the text [{id}]
    inside an earlier segment is what the replacement finds; an API key
    sent in the query under the name [id] puts an [id] into the query. *)
Lemma repeated_path_parameter_is_left :
  let s := Swagger.mkServer [] "https://api.example.com" None in
  let call := fun params =>
    Swagger.mkCallInput (Swagger.mkLookup None None None) (Some params)
      JS.VUndefined None in
  let users := [("id", JS.VString "42"); ("verbose", JS.VBool true)] in
  (Swagger.pathParams "/a/{id}/b/{id}" = ["id"; "id"] /\
   Swagger.cfg_url
     (Swagger.request_config s "/a/{id}/b/{id}" "get" (call [("id", JS.VString "7")]))
   = "https://api.example.com/a/7/b/{id}" /\
   filled_url s "/a/{id}/b/{id}" [("id", JS.VString "7")]
   = "https://api.example.com/a/7/b/7" /\
   Swagger.cfg_url
     (Swagger.request_config s "/a/{id}/b/{id}" "get" (call [("id", JS.VString "7")]))
   <> filled_url s "/a/{id}/b/{id}" [("id", JS.VString "7")]) /\
  (let cfg :=
     Swagger.request_config (Swagger.mkServer [] "https://{id}.example.com" None)
       "/users/{id}" "get" (call users) in
   Swagger.cfg_url cfg = "https://42.example.com/users/{id}" /\
   JS.endsWith (Swagger.cfg_url cfg) "/users/42" = false) /\
  Swagger.cfg_url
    (Swagger.request_config s "/x{id}/{id}" "get" (call [("id", JS.VString "7")]))
  = "https://api.example.com/x7/{id}" /\
  Swagger.cfg_params
    (Swagger.request_config
       (Swagger.mkServer [] "https://api.example.com"
          (Some (mkAuth apiKey None None None (Some "secret") (Some "id") (Some query))))
       "/users/{id}" "get" (call users))
  = [("verbose", JS.VBool true); ("id", JS.VString "secret")].
Proof.
  cbv zeta. repeat split; try reflexivity. discriminate.
Qed.

(** ** Tokens that survive a replacement *)









Section Token.

Variable v : string.
Hypothesis v_word : word v = true.
Hypothesis v_not_empty : v <> "".











End Token.

(** ** Variables of the environment *)

Lemma word_run_spec (s w t : string) :
  Postman.word_run s = (w, t) -> s = w ++ t /\ word w = true.
Proof.
  revert w t. induction s as [|c s IH]; intros w t H.
  - inversion H; subst. split; reflexivity.
  - cbn [Postman.word_run] in H. destruct (JS.is_word_char c) eqn:Hc.
    + destruct (Postman.word_run s) as [w' t'] eqn:E. inversion H; subst.
      destruct (IH w' t eq_refl) as [-> Hw]. split; [reflexivity|].
      unfold word. cbn [every]. rewrite Hc. exact Hw.
    + inversion H; subst. split; reflexivity.
Qed.

Lemma word_run_stop (v : string) (c : ascii) (rest : string) :
  word v = true -> JS.is_word_char c = false ->
  Postman.word_run (v ++ String c rest) = (v, String c rest).
Proof.
  intros Hv Hc. induction v as [|d v IH].
  - cbn [append Postman.word_run]. rewrite Hc. reflexivity.
  - unfold word in Hv. cbn [every] in Hv. apply andb_prop in Hv. destruct Hv as [Hd Hv].
    cbn [append Postman.word_run]. rewrite Hd, (IH Hv). reflexivity.
Qed.

Lemma match_token_sound (s w : string) :
  Postman.match_token s = Some w ->
  word w = true /\ w <> "" /\ String.prefix (var_token w) s = true.
Proof.
  unfold Postman.match_token, JS.startsWith.
  destruct (String.prefix "{{" s) eqn:Hs; [|discriminate].
  destruct (Postman.word_run (JS.drop 2 s)) as [w' t] eqn:Hr.
  destruct (String.eqb_spec w' ""); [discriminate|]. cbn [negb andb].
  destruct (String.prefix "}}" t) eqn:Ht; [|discriminate].
  intro H. inversion H; subst w'. clear H.
  apply word_run_spec in Hr. destruct Hr as [Hd Hw].
  split; [exact Hw|]. split; [assumption|].
  apply prefix_split in Hs. apply prefix_split in Ht.
  change (String.length "{{") with 2%nat in Hs.
  rewrite Hs, Hd, Ht. unfold var_token.
  replace ("{{" ++ w ++ "}}" ++ JS.drop (String.length "}}") t)
    with (("{{" ++ w ++ "}}") ++ JS.drop (String.length "}}") t)
    by (rewrite !append_assoc; reflexivity).
  apply prefix_append.
Qed.

Lemma match_token_here (v rest : string) :
  word v = true -> v <> "" -> Postman.match_token (var_token v ++ rest) = Some v.
Proof.
  intros Hv Hne. unfold Postman.match_token, JS.startsWith, var_token.
  replace (("{{" ++ v ++ "}}") ++ rest) with ("{{" ++ v ++ "}}" ++ rest)
    by (rewrite !append_assoc; reflexivity).
  rewrite prefix_append.
  change (JS.drop 2 ("{{" ++ v ++ "}}" ++ rest)) with (v ++ String "}" (String "}" rest)).
  rewrite word_run_stop by (exact Hv || reflexivity).
  destruct (String.eqb_spec v ""); [contradiction|].
  change (String "}" (String "}" rest)) with ("}}" ++ rest).
  rewrite prefix_append. reflexivity.
Qed.

Lemma resolve_cons (env : JS.obj JS.value) (skip : nat) (c : ascii) (rest : string) :
  Postman.resolve env skip (String c rest)
  = match skip with
    | S k => Postman.resolve env k rest
    | O =>
        match Postman.match_token (String c rest) with
        | Some variableName =>
            Postman.lookup_variable env variableName
            ++ Postman.resolve env (String.length variableName + 3) rest
        | None => String c (Postman.resolve env 0 rest)
        end
    end.
Proof. reflexivity. Qed.

Lemma resolve_skip (env : JS.obj JS.value) (x y : string) :
  Postman.resolve env (String.length x) (x ++ y) = Postman.resolve env 0 y.
Proof.
  induction x as [|c x IH]; [reflexivity|].
  change (String c x ++ y) with (String c (x ++ y)). rewrite resolve_cons.
  exact IH.
Qed.


(** A token at the head is replaced by what the environment gives, and
    the scan goes on behind it. *)
Lemma resolve_head (env : JS.obj JS.value) (v rest : string) :
  word v = true -> v <> "" ->
  Postman.resolveVariables env (var_token v ++ rest)
  = Postman.lookup_variable env v ++ Postman.resolveVariables env rest.
Proof.
  intros Hv Hne. unfold Postman.resolveVariables.
  pose proof (match_token_here v rest Hv Hne) as Hm.
  assert (E : var_token v ++ rest = String "{" (("{" ++ v ++ "}}") ++ rest)).
  { unfold var_token. rewrite !append_assoc. reflexivity. }
  rewrite E in Hm |- *. rewrite resolve_cons, Hm. f_equal.
  replace (String.length v + 3)%nat with (String.length ("{" ++ v ++ "}}")).
  - apply resolve_skip.
  - cbn [append String.length]. rewrite length_append. simpl. lia.
Qed.

(** ** What the environment gives for a name *)

Lemma inherited_none (n : string) : ~ In n inherited_names -> JS.inherited n = None.
Proof.
  intro H. unfold JS.inherited.
  destruct (String.eqb_spec n "__proto__") as [->|_].
  { exfalso. apply H. unfold inherited_names. cbn [In].
    repeat (first [left; reflexivity | right]). }
  destruct (String.eqb_spec n "constructor") as [->|_].
  { exfalso. apply H. unfold inherited_names. cbn [In].
    repeat (first [left; reflexivity | right]). }
  destruct (existsb _ _) eqn:E; [|reflexivity].
  exfalso. apply existsb_exists in E. destruct E as (x & Hx & Heq).
  apply String.eqb_eq in Heq. subst x. apply H. unfold inherited_names.
  cbn [In] in Hx |- *. tauto.
Qed.

(** With an entry of its own, or under a name that is not inherited, a
    variable is what the entries say. *)
Lemma lookup_entry (env : JS.obj JS.value) (v : string) :
  (JS.obj_get env v = None -> ~ In v inherited_names) ->
  Postman.lookup_variable env v = entry_or_token env v.
Proof.
  intro H. unfold Postman.lookup_variable, entry_or_token.
  destruct (JS.obj_get env v) as [value|]; [reflexivity|].
  rewrite (inherited_none v (H eq_refl)). reflexivity.
Qed.

Lemma lookup_unset (env : JS.obj JS.value) (v : string) :
  (forall value, JS.obj_get env v = Some value -> JS.truthy value = false) ->
  (JS.obj_get env v = None -> ~ In v inherited_names) ->
  Postman.lookup_variable env v = var_token v.
Proof.
  intros Hf Hn. rewrite lookup_entry by exact Hn. unfold entry_or_token.
  destruct (JS.obj_get env v) as [value|]; [|reflexivity].
  rewrite (Hf value eq_refl). reflexivity.
Qed.







Example unresolved_token_is_kept :
  Postman.cfg_url
    (Postman.request_config
       (Postman.mkServer [] [("baseUrl", JS.VString "https://api.test")] None)
       (Postman.mkPmRequest None (Some "{{baseUrl}}/users/{{userId}}/posts/:id") None)
       [("id", JS.VString "7"); ("page-size", JS.VNumber 10)] JS.VUndefined None)
  = "https://api.test/users/{{userId}}/posts/7".
Proof. reflexivity. Qed.

Example caller_fills_unresolved_token :
  Postman.cfg_url
    (Postman.request_config (Postman.mkServer [] [] None)
       (Postman.mkPmRequest None (Some "{{host}}/users/{{userId}}") None)
       [("userId", JS.VString "7")] JS.VUndefined None)
  = "{{host}}/users/7".
Proof. reflexivity. Qed.

(** With a limit below one the OpenAPI scan stops after the first
    operation it looks at. *)
Example openapi_search_limit_zero :
  let s := Swagger.mkServer
             [("/pets", Some [("get", Some (mkOperation None None None None None None));
                              ("post", Some (mkOperation None None None None None None))])]
             "https://api.example.com" None in
  Swagger.search_endpoints s (Swagger.mkSearchInput "pets" 0)
  = Returned (Swagger.Hits "pets" 1 [Swagger.mkHit "get-/pets" "GET" "/pets" "" "" []]).
Proof. reflexivity. Qed.

(** ** The primitives on examples *)

Example base64_of_credentials : JS.base64 "user:pass" = "dXNlcjpwYXNz".
Proof. reflexivity. Qed.

Example base64_is_padded : JS.base64 "a:b1" = "YTpiMQ==".
Proof. reflexivity. Qed.

(** An encoded text holds no dollar sign: as a replacement text it is
    inserted as it is. *)
Lemma encode_no_dollar (s : string) :
  every (fun c => negb (Ascii.eqb c "$"%char)) (JS.encodeURIComponent s) = true.
Proof.
  induction s as [|c s IH]; [reflexivity|].
  simpl JS.encodeURIComponent. rewrite every_append, IH, andb_true_r.
  destruct c as [[] [] [] [] [] [] [] []]; reflexivity.
Qed.

Example encode_reserved : JS.encodeURIComponent "a b/c:{d}" = "a%20b%2Fc%3A%7Bd%7D".
Proof. reflexivity. Qed.

Example number_to_string : JS.to_string (JS.VNumber (-42)) = "-42".
Proof. reflexivity. Qed.

Example split_keeps_empty_words : JS.split " " "a  b" = ["a"; ""; "b"].
Proof. reflexivity. Qed.

Example replace_first_only : JS.replace "/a/{id}/b/{id}" "{id}" "7" = "/a/7/b/{id}".
Proof. reflexivity. Qed.

Example short_description_cut :
  Postman.short_description "abc" = "abc".
Proof. reflexivity. Qed.

Example folder_path_in_id :
  map Postman.id
    (Postman.parseAllRequests
       [Postman.Folder (Some "Users") [named "Get User"; Postman.Folder (Some "Admin") [named "Ban"]]])
  = ["usersget_user"; "users_adminban"].
Proof. reflexivity. Qed.
(* ================================================================== *)
(** * Further properties of the tools *)
(* ================================================================== *)

(** ** list_endpoints *)

Lemma listed_operations_app (input : Swagger.ListInput)
    (l1 l2 : list (string * string * Operation)) :
  listed_operations input (l1 ++ l2)
  = (listed_operations input l1 ++ listed_operations input l2)%list.
Proof. unfold listed_operations. rewrite filter_app, map_app. reflexivity. Qed.

Section OpenApiList.

Variable input : Swagger.ListInput.
Let L : nat := Z.to_nat (Swagger.list_limit input).
Hypothesis positive : (1 <= Swagger.list_limit input)%Z.

Lemma list_operations_prefix (path : string) (entries : PathItem)
    (endpoints : list Swagger.ListedEndpoint) :
  (List.length endpoints < L)%nat ->
  Swagger.list_operations input path entries endpoints
  = firstn L (endpoints ++ listed_operations input (item_operations path entries)).
Proof.
  revert endpoints.
  induction entries as [|[k [o|]] rest IH]; intros endpoints Hlt.
  - simpl. rewrite app_nil_r. symmetry. apply firstn_all2. lia.
  - simpl Swagger.list_operations. rewrite item_operations_cons.
    destruct (String.eqb k "$ref"); [apply IH; assumption|].
    rewrite listed_operations_app.
    unfold listed_operations at 1. simpl filter.
    unfold operation_listed at 1. simpl fst; simpl snd.
    destruct (Swagger.method_filtered input k); [apply IH; assumption|].
    destruct (Swagger.tag_filtered input o); [apply IH; assumption|].
    simpl map. unfold operation_entry at 1. simpl fst; simpl snd.
    destruct (reached (endpoints ++ [Swagger.listed k path o]) (Swagger.list_limit input))
      eqn:Hr.
    + apply reached_true in Hr. rewrite length_app in Hr. simpl in Hr.
      simpl app. symmetry. apply firstn_snoc_full.
      rewrite length_app. simpl. subst L. lia.
    + apply reached_false in Hr. rewrite length_app in Hr. simpl in Hr.
      rewrite IH by (rewrite length_app; simpl; subst L; lia).
      rewrite <- app_assoc. reflexivity.
  - simpl Swagger.list_operations. rewrite item_operations_cons. simpl app.
    apply IH. assumption.
Qed.

Lemma list_paths_prefix (ps : Paths) (endpoints : list Swagger.ListedEndpoint) :
  (List.length endpoints < L)%nat ->
  Swagger.list_paths input ps endpoints
  = firstn L (endpoints ++ listed_operations input (operations ps)).
Proof.
  revert endpoints.
  induction ps as [|[k [entries|]] rest IH]; intros endpoints Hlt.
  - simpl. rewrite app_nil_r. symmetry. apply firstn_all2. lia.
  - simpl Swagger.list_paths. rewrite operations_cons, listed_operations_app.
    rewrite list_operations_prefix by assumption.
    set (X := (endpoints ++ listed_operations input (item_operations k entries))%list).
    rewrite app_assoc. fold X.
    destruct (reached (firstn L X) (Swagger.list_limit input)) eqn:Hr.
    + apply reached_true in Hr. rewrite length_firstn in Hr.
      symmetry. apply firstn_app_long. subst L. lia.
    + apply reached_false in Hr. rewrite length_firstn in Hr.
      assert (HX : (List.length X < L)%nat) by (subst L; lia).
      rewrite (firstn_all2 X) by lia. apply IH. assumption.
  - simpl Swagger.list_paths. rewrite operations_cons. simpl app.
    apply IH. assumption.
Qed.

End OpenApiList.

(** X1.  With a limit of at least one, [list_endpoints] returns the first
    [limit] operations that pass the method and the tag filter, in the
    order of the document, and [total] is their number. *)
Theorem list_endpoints_prefix (s : Swagger.Server) (input : Swagger.ListInput) :
  (1 <= Swagger.list_limit input)%Z ->
  let endpoints :=
    firstn (Z.to_nat (Swagger.list_limit input))
      (listed_operations input (operations (Swagger.paths s))) in
  Swagger.list_endpoints s input
  = Returned (Swagger.Listing (List.length endpoints) endpoints).
Proof.
  intros Hpos endpoints. unfold Swagger.list_endpoints.
  rewrite (list_paths_prefix input Hpos) by (simpl; lia).
  reflexivity.
Qed.

Lemma list_endpoints_prefix_witness :
  Swagger.list_endpoints
    (Swagger.mkServer
       [("/pets", Some [("get", Some (mkOperation None None None (Some ["pets"]) None None));
                        ("post", Some (mkOperation None None None (Some ["admin"]) None None));
                        ("delete", Some (mkOperation None None None (Some ["pets"]) None None))])]
       "https://api.example.com" None)
    (Swagger.mkListInput None (Some "pets") 5)
  = Returned (Swagger.Listing 2
                [Swagger.mkListed "get-/pets" "GET" "/pets" "" "" ["pets"] false;
                 Swagger.mkListed "delete-/pets" "DELETE" "/pets" "" "" ["pets"] false]).
Proof.
  exact (list_endpoints_prefix
           (Swagger.mkServer
              [("/pets", Some [("get", Some (mkOperation None None None (Some ["pets"]) None None));
                               ("post", Some (mkOperation None None None (Some ["admin"]) None None));
                               ("delete", Some (mkOperation None None None (Some ["pets"]) None None))])]
              "https://api.example.com" None)
           (Swagger.mkListInput None (Some "pets") 5)
           ltac:(simpl; lia)).
Defined.

(** ** The hard limit of the two OpenAPI scans *)

Section OpenApiBound.

Variable limit : Z.
Let M : nat := Z.to_nat (Z.max 1 limit).

Lemma list_operations_bound (input : Swagger.ListInput) (path : string)
    (entries : PathItem) (endpoints : list Swagger.ListedEndpoint) :
  Swagger.list_limit input = limit ->
  (List.length endpoints < M)%nat ->
  (List.length (Swagger.list_operations input path entries endpoints) <= M)%nat.
Proof.
  intros Hl. revert endpoints.
  induction entries as [|[k [o|]] rest IH]; intros endpoints Hlt; simpl.
  - lia.
  - destruct (String.eqb k "$ref"); [apply IH; assumption|].
    destruct (Swagger.method_filtered input k); [apply IH; assumption|].
    destruct (Swagger.tag_filtered input o); [apply IH; assumption|].
    destruct (reached _ _) eqn:Hr.
    + rewrite length_app. simpl. lia.
    + apply reached_false in Hr. apply IH. subst M. lia.
  - apply IH. assumption.
Qed.

Lemma list_paths_bound (input : Swagger.ListInput) (ps : Paths)
    (endpoints : list Swagger.ListedEndpoint) :
  Swagger.list_limit input = limit ->
  (List.length endpoints < M)%nat ->
  (List.length (Swagger.list_paths input ps endpoints) <= M)%nat.
Proof.
  intros Hl. revert endpoints.
  induction ps as [|[k [entries|]] rest IH]; intros endpoints Hlt; simpl.
  - lia.
  - destruct (reached _ _) eqn:Hr.
    + apply list_operations_bound; assumption.
    + apply reached_false in Hr. apply IH. subst M. lia.
  - apply IH. assumption.
Qed.

Lemma search_operations_bound (input : Swagger.SearchInput) (path : string)
    (entries : PathItem) (results : list Swagger.SearchHit) :
  Swagger.search_limit input = limit ->
  (List.length results < M)%nat ->
  (List.length (Swagger.search_operations input path entries results) <= M)%nat.
Proof.
  intros Hl. revert results.
  induction entries as [|[k [o|]] rest IH]; intros results Hlt; simpl.
  - lia.
  - destruct (String.eqb k "$ref"); [apply IH; assumption|].
    destruct (reached _ _) eqn:Hr.
    + destruct (JS.includes _ _); [rewrite length_app; simpl|]; lia.
    + apply reached_false in Hr. apply IH. subst M. lia.
  - apply IH. assumption.
Qed.

Lemma search_paths_bound (input : Swagger.SearchInput) (ps : Paths)
    (results : list Swagger.SearchHit) :
  Swagger.search_limit input = limit ->
  (List.length results < M)%nat ->
  (List.length (Swagger.search_paths input ps results) <= M)%nat.
Proof.
  intros Hl. revert results.
  induction ps as [|[k [entries|]] rest IH]; intros results Hlt; simpl.
  - lia.
  - destruct (reached _ _) eqn:Hr.
    + apply search_operations_bound; assumption.
    + apply reached_false in Hr. apply IH. subst M. lia.
  - apply IH. assumption.
Qed.

End OpenApiBound.

(** X2.  Whatever the integer limit, zero and negative ones included, the two
    OpenAPI scans return at most [max 1 limit] entries, and [total] is
    the number of entries returned. *)
Theorem openapi_results_bounded (s : Swagger.Server) :
  (forall input, exists endpoints,
     Swagger.list_endpoints s input
     = Returned (Swagger.Listing (List.length endpoints) endpoints) /\
     (Z.of_nat (List.length endpoints) <= Z.max 1 (Swagger.list_limit input))%Z) /\
  (forall input, exists results,
     Swagger.search_endpoints s input
     = Returned (Swagger.Hits (Swagger.search_query input) (List.length results) results) /\
     (Z.of_nat (List.length results) <= Z.max 1 (Swagger.search_limit input))%Z).
Proof.
  split; intros input.
  - exists (Swagger.list_paths input (Swagger.paths s) []). split; [reflexivity|].
    pose proof (list_paths_bound (Swagger.list_limit input) input (Swagger.paths s) []
                  eq_refl) as H.
    simpl in H. lia.
  - exists (Swagger.search_paths input (Swagger.paths s) []). split; [reflexivity|].
    pose proof (search_paths_bound (Swagger.search_limit input) input (Swagger.paths s) []
                  eq_refl) as H.
    simpl in H. lia.
Qed.

(** ** The lookup of get_endpoint_details and make_api_call *)

Lemma find_in_item_first (input : Swagger.LookupInput) (path : string) (entries : PathItem) :
  option_map (fun found => (path, fst found, snd found))
    (Swagger.find_in_item input path entries)
  = hd_error (filter (operation_selected input) (item_operations path entries)).
Proof.
  induction entries as [|[k [o|]] rest IH].
  - reflexivity.
  - simpl Swagger.find_in_item. rewrite item_operations_cons.
    destruct (String.eqb k "$ref"); [exact IH|].
    simpl app. simpl filter. unfold operation_selected at 1. simpl fst; simpl snd.
    destruct (Swagger.selects input k path o); [reflexivity|exact IH].
  - simpl Swagger.find_in_item. rewrite item_operations_cons. exact IH.
Qed.

Lemma hd_error_app {A} (l1 l2 : list A) :
  hd_error (l1 ++ l2) = match hd_error l1 with Some x => Some x | None => hd_error l2 end.
Proof. destruct l1; reflexivity. Qed.

(** X3.  The lookup returns the first operation, in the order of the
    document, that has the requested id or the requested path and
    method: the two nested loops with their [break] are a search for the
    first match. *)
Theorem lookup_finds_first_match (input : Swagger.LookupInput) (ps : Paths) :
  Swagger.find_operation input ps
  = hd_error (filter (operation_selected input) (operations ps)).
Proof.
  induction ps as [|[k [entries|]] rest IH].
  - reflexivity.
  - simpl Swagger.find_operation. rewrite operations_cons, filter_app, hd_error_app.
    rewrite <- find_in_item_first, <- IH.
    destruct (Swagger.find_in_item input k entries) as [[m op]|]; reflexivity.
  - simpl Swagger.find_operation. rewrite operations_cons. exact IH.
Qed.

Lemma operation_id_selected (i m p : string) (op : Operation) :
  Swagger.selects (Swagger.mkLookup (Some i) None None) m p op = true <->
  operationIdOf m p op = i.
Proof.
  unfold Swagger.selects. simpl. rewrite orb_false_r.
  rewrite String.eqb_eq. split; congruence.
Qed.

Lemma lookup_by_listed_id (s : Swagger.Server) (p m : string) (op : Operation) :
  In (p, m, op) (operations (Swagger.paths s)) ->
  exists d,
    Swagger.get_endpoint_details s
      (Swagger.mkLookup (Some (operationIdOf m p op)) None None)
    = Returned (Swagger.Details d) /\
    Swagger.ed_operationId d = operationIdOf m p op.
Proof.
  intros Hin. unfold Swagger.get_endpoint_details.
  destruct (Swagger.find_operation _ (Swagger.paths s)) as [[[p' m'] op']|] eqn:Hf.
  - eexists. split; [reflexivity|].
    apply find_operation_some in Hf. destruct Hf as [_ Hsel].
    apply operation_id_selected in Hsel. exact Hsel.
  - exfalso.
    pose proof (proj1 (find_operation_none _ _) Hf p m op Hin) as Hsel.
    assert (Ht : Swagger.selects
                   (Swagger.mkLookup (Some (operationIdOf m p op)) None None) m p op = true)
      by (apply operation_id_selected; reflexivity).
    congruence.
Qed.

(** X4.  What the discovery tools return can be looked up: the
    [operationId] of every entry of [list_endpoints] and of every hit of
    [search_endpoints] is accepted by [get_endpoint_details], which
    answers with an operation of that id. *)
Theorem listed_ids_resolve (s : Swagger.Server) :
  (forall input total endpoints e,
     Swagger.list_endpoints s input = Returned (Swagger.Listing total endpoints) ->
     In e endpoints ->
     exists d,
       Swagger.get_endpoint_details s
         (Swagger.mkLookup (Some (Swagger.le_operationId e)) None None)
       = Returned (Swagger.Details d) /\
       Swagger.ed_operationId d = Swagger.le_operationId e) /\
  (forall input q total results h,
     Swagger.search_endpoints s input = Returned (Swagger.Hits q total results) ->
     In h results ->
     exists d,
       Swagger.get_endpoint_details s
         (Swagger.mkLookup (Some (Swagger.sh_operationId h)) None None)
       = Returned (Swagger.Details d) /\
       Swagger.ed_operationId d = Swagger.sh_operationId h).
Proof.
  split.
  - intros input total endpoints e Heq Hin.
    unfold Swagger.list_endpoints in Heq. injection Heq as _ <-.
    apply list_paths_sound in Hin. destruct Hin as [[]|(p & m & op & Hop & ->)].
    apply lookup_by_listed_id. exact Hop.
  - intros input q total results h Heq Hin.
    unfold Swagger.search_endpoints in Heq. injection Heq as _ _ <-.
    apply search_paths_sound in Hin. destruct Hin as [[]|(p & m & op & Hop & ->)].
    apply lookup_by_listed_id. exact Hop.
Qed.

Lemma listed_ids_resolve_witness :
  exists d,
    Swagger.get_endpoint_details
      (Swagger.mkServer
         [("/pets", Some [("get", Some (mkOperation None None None None None None))])]
         "https://api.example.com" None)
      (Swagger.mkLookup (Some "get-/pets") None None)
    = Returned (Swagger.Details d) /\
    Swagger.ed_operationId d = "get-/pets".
Proof.
  exact (proj1
           (listed_ids_resolve
              (Swagger.mkServer
                 [("/pets", Some [("get", Some (mkOperation None None None None None None))])]
                 "https://api.example.com" None))
           (Swagger.mkListInput None None 10) 1%nat
           [Swagger.mkListed "get-/pets" "GET" "/pets" "" "" [] false]
           (Swagger.mkListed "get-/pets" "GET" "/pets" "" "" [] false)
           eq_refl (or_introl eq_refl)).
Defined.

(** ** list_requests and the shortened description *)

Lemma substring_short (n : nat) (s : string) :
  (String.length s <= n)%nat -> String.substring 0 n s = s.
Proof.
  revert s. induction n as [|n IH]; intros [|c s] H; simpl in *; try reflexivity; try lia.
  f_equal. apply IH. lia.
Qed.

Lemma substring_length (n : nat) (s : string) :
  String.length (String.substring 0 n s) = Nat.min n (String.length s).
Proof.
  revert s. induction n as [|n IH]; intros [|c s]; simpl; try reflexivity.
  f_equal. apply IH.
Qed.

Lemma substring_is_prefix (n : nat) (s : string) :
  String.prefix (String.substring 0 n s) s = true.
Proof.
  revert s. induction n as [|n IH]; intros [|c s]; try reflexivity.
  cbn [String.substring]. rewrite prefix_cons, Ascii.eqb_refl. apply IH.
Qed.

(** X5.  The description shown by [list_requests] and [search_requests]
    is the description itself when it has at most 100 characters;
    otherwise it is its first 100 characters followed by three dots, 103
    characters in all. *)
Theorem short_description_bounds (d : string) :
  ((String.length d <= 100)%nat -> Postman.short_description d = d) /\
  ((100 < String.length d)%nat ->
   Postman.short_description d = String.substring 0 100 d ++ "..." /\
   String.prefix (String.substring 0 100 d) d = true /\
   String.length (Postman.short_description d) = 103%nat) /\
  (String.length (Postman.short_description d) <= 103)%nat.
Proof.
  unfold Postman.short_description.
  destruct (Nat.ltb_spec 100 (String.length d)) as [Hlong|Hshort].
  - split; [lia|]. split.
    + intros _. split; [reflexivity|]. split; [apply substring_is_prefix|].
      rewrite length_append, substring_length. simpl String.length. lia.
    + rewrite length_append, substring_length. simpl String.length. lia.
  - rewrite append_nil_r, substring_short by assumption.
    split; [reflexivity|]. split; [lia|]. lia.
Qed.

Lemma short_description_bounds_witness :
  Postman.short_description "List the users" = "List the users".
Proof.
  exact (proj1 (short_description_bounds "List the users") ltac:(simpl; lia)).
Defined.

Lemma in_firstn {A} (n : nat) (l : list A) (x : A) : In x (firstn n l) -> In x l.
Proof.
  revert l. induction n as [|n IH]; intros [|y l] H; simpl in *; try contradiction.
  destruct H as [H|H]; [left; exact H|right; apply IH; exact H].
Qed.

Lemma in_slice_0 {A} (limit : Z) (l : list A) (x : A) :
  In x (PostmanListing.slice_0 limit l) -> In x l.
Proof.
  unfold PostmanListing.slice_0. destruct (limit <? 0)%Z; apply in_firstn.
Qed.


Lemma in_filteredRequests (input : PostmanListing.ListInput)
    (requests : list Postman.Request) (req : Postman.Request) :
  In req (PostmanListing.filteredRequests input requests) <->
  In req requests /\
  (forall m, PostmanListing.list_method input = Some m -> m <> "" ->
             JS.toLowerCase (Postman.method req) = JS.toLowerCase m) /\
  (forall f, PostmanListing.list_folder input = Some f -> f <> "" ->
             JS.includes (JS.toLowerCase (Postman.folder req)) (JS.toLowerCase f) = true).
Proof.
  unfold PostmanListing.filteredRequests.
  destruct (JS.present (PostmanListing.list_method input)) eqn:Hm;
    destruct (JS.present (PostmanListing.list_folder input)) eqn:Hf.
  - apply present_value in Hm, Hf.
    destruct Hm as (m & Hm & Hm' & Hmt), Hf as (f & Hf & Hf' & Hft).
    rewrite Hmt, Hft, !filter_In, String.eqb_eq. rewrite Hm, Hf. split.
    + intros [[H1 H2] H3]. repeat split; [assumption| |]; intros x [= <-] _; assumption.
    + intros (H1 & H2 & H3). repeat split; [assumption|apply H2|apply H3]; auto.
  - apply present_value in Hm. destruct Hm as (m & Hm & Hm' & Hmt).
    rewrite Hmt, filter_In, String.eqb_eq, Hm. split.
    + intros [H1 H2]. repeat split; [assumption| |].
      * intros x [= <-] _. assumption.
      * intros f Hf1 Hf2. rewrite Hf1 in Hf. apply present_some in Hf2. congruence.
    + intros (H1 & H2 & _). split; [assumption|apply H2; auto].
  - apply present_value in Hf. destruct Hf as (f & Hf & Hf' & Hft).
    rewrite Hft, filter_In, Hf. split.
    + intros [H1 H2]. repeat split; [assumption| |].
      * intros m Hm1 Hm2. rewrite Hm1 in Hm. apply present_some in Hm2. congruence.
      * intros x [= <-] _. assumption.
    + intros (H1 & _ & H3). split; [assumption|apply H3; auto].
  - split.
    + intros H. repeat split; [assumption| |].
      * intros m Hm1 Hm2. rewrite Hm1 in Hm. apply present_some in Hm2. congruence.
      * intros f Hf1 Hf2. rewrite Hf1 in Hf. apply present_some in Hf2. congruence.
    + intros (H & _). assumption.
Qed.



(** ** search_requests *)

Lemma in_matching_requests (query : string) (reqs : list Postman.Request)
    (x : Postman.SearchHit * Q) :
  In x (matching_requests query reqs) ->
  exists req, In req reqs /\ fst x = Postman.hit req /\
              snd x = Postman.calculateRelevance query (Postman.searchText req) /\
              JS.includes (Postman.searchText req) query = true.
Proof.
  unfold matching_requests. rewrite in_map_iff. intros (req & <- & Hin).
  apply filter_In in Hin. destruct Hin as [Hin Hm].
  exists req. repeat split; assumption.
Qed.

Lemma ranked_collected (s : Postman.Server) (input : Postman.SearchInput) :
  Postman.ranked s input
  = Postman.sort
      (firstn (Z.to_nat (Z.max 1 (Postman.search_limit input)))
         (matching_requests (JS.toLowerCase (Postman.search_query input))
            (Postman.requests s))).
Proof.
  unfold Postman.ranked. rewrite collect_prefix by (simpl; lia). reflexivity.
Qed.

Lemma ranked_sound (s : Postman.Server) (input : Postman.SearchInput)
    (x : Postman.SearchHit * Q) :
  In x (Postman.ranked s input) ->
  exists req, In req (Postman.requests s) /\ fst x = Postman.hit req /\
              JS.includes (Postman.searchText req)
                (JS.toLowerCase (Postman.search_query input)) = true.
Proof.
  intros Hin. rewrite ranked_collected in Hin.
  apply (Permutation_in _ (sort_perm _)) in Hin.
  apply in_firstn in Hin. apply in_matching_requests in Hin.
  destruct Hin as (req & H1 & H2 & _ & H4). exists req. repeat split; assumption.
Qed.

(** X7.  [search_requests] returns [min (max 1 limit) n] hits, where [n]
    is the number of requests whose text contains the query in lower
    case; each hit is a request of the collection that matches.  With a
    limit of zero or less one hit is still returned when there is a
    match. *)
Theorem search_requests_count (s : Postman.Server) (input : Postman.SearchInput) :
  exists results,
    Postman.search_requests s input
    = Returned (Postman.Hits (Postman.search_query input) (List.length results) results) /\
    List.length results
    = Nat.min (Z.to_nat (Z.max 1 (Postman.search_limit input)))
        (List.length
           (filter
              (fun req =>
                 JS.includes (Postman.searchText req)
                   (JS.toLowerCase (Postman.search_query input)))
              (Postman.requests s))) /\
    forall h, In h results ->
      exists req, In req (Postman.requests s) /\ h = Postman.hit req /\
                  JS.includes (Postman.searchText req)
                    (JS.toLowerCase (Postman.search_query input)) = true.
Proof.
  exists (map fst (Postman.ranked s input)). split; [|split].
  - unfold Postman.search_requests. rewrite length_map. reflexivity.
  - rewrite length_map, ranked_collected.
    rewrite (Permutation_length (sort_perm _)), length_firstn.
    unfold matching_requests. rewrite length_map. reflexivity.
  - intros h Hin. apply in_map_iff in Hin. destruct Hin as (x & <- & Hin).
    apply ranked_sound. exact Hin.
Qed.

Lemma search_requests_count_witness :
  exists req,
    In req (Postman.requests (loaded [named "Get User"; named "Ban"])) /\
    Postman.mkHit "get_user" "Get User" "GET" "" "" "" = Postman.hit req /\
    JS.includes (Postman.searchText req) (JS.toLowerCase "USER") = true.
Proof.
  destruct (search_requests_count (loaded [named "Get User"; named "Ban"])
              (Postman.mkSearchInput "USER" 5)) as (results & Heq & _ & Hsound).
  apply Hsound. unfold Postman.search_requests in Heq. injection Heq as _ <-.
  vm_compute. left. reflexivity.
Defined.

Lemma includes_empty (text : string) : JS.includes text "" = true.
Proof. destruct text; reflexivity. Qed.

Lemma relevance_of_empty_query (text : string) :
  Postman.calculateRelevance "" text = (0 + 1 + (1 # 2))%Q.
Proof.
  unfold Postman.calculateRelevance. cbn [JS.split fold_left].
  unfold Postman.score_word. rewrite includes_empty.
  unfold JS.startsWith. rewrite prefix_nil, orb_true_r. reflexivity.
Qed.

Lemma sort_ties (v : Q) (l : list (Postman.SearchHit * Q)) :
  (forall x, In x l -> snd x = v) -> Postman.sort l = l.
Proof.
  induction l as [|a l IH]; intros H; [reflexivity|].
  cbn [Postman.sort fold_right]. fold (Postman.sort l).
  rewrite IH by (intros x Hx; apply H; right; exact Hx).
  destruct l as [|b rest]; [reflexivity|].
  cbn [Postman.insert]. unfold Postman.before.
  rewrite (H a), (H b) by (simpl; auto).
  replace (Qle_bool v v) with true; [reflexivity|].
  symmetry. apply Qle_bool_iff. apply Qle_refl.
Qed.

(** X8.  The empty query matches every request, each with relevance 1.5,
    so [search_requests] returns the first [max 1 limit] requests of the
    collection in their own order. *)
Theorem empty_query_lists_requests (s : Postman.Server) (input : Postman.SearchInput) :
  Postman.search_query input = "" ->
  let results :=
    firstn (Z.to_nat (Z.max 1 (Postman.search_limit input)))
      (map Postman.hit (Postman.requests s)) in
  Postman.search_requests s input
  = Returned (Postman.Hits "" (List.length results) results) /\
  forall text, (Postman.calculateRelevance "" text == 3 # 2)%Q.
Proof.
  intros Hq results. split.
  - unfold Postman.search_requests. cbv zeta. rewrite ranked_collected, Hq.
    change (JS.toLowerCase "") with "".
    assert (Hm : forall reqs,
               matching_requests "" reqs
               = map (fun req => (Postman.hit req, (0 + 1 + (1 # 2))%Q)) reqs).
    { intros reqs. unfold matching_requests.
      induction reqs as [|req rest IH]; [reflexivity|].
      cbn [filter]. rewrite includes_empty. cbn [map].
      rewrite relevance_of_empty_query, IH. reflexivity. }
    rewrite Hm, (sort_ties (0 + 1 + (1 # 2))%Q).
    + rewrite <- firstn_map, map_map. cbn [fst]. subst results.
      rewrite !length_firstn, !length_map. reflexivity.
    + intros x Hx. apply in_firstn in Hx. apply in_map_iff in Hx.
      destruct Hx as (req & <- & _). reflexivity.
  - intros text. rewrite relevance_of_empty_query. reflexivity.
Qed.

Lemma empty_query_lists_requests_witness :
  Postman.search_requests (loaded [named "Get User"; named "Ban"])
    (Postman.mkSearchInput "" 1)
  = Returned (Postman.Hits "" 1
                [Postman.mkHit "get_user" "Get User" "GET" "" "" ""]).
Proof.
  exact (proj1
           (empty_query_lists_requests (loaded [named "Get User"; named "Ban"])
              (Postman.mkSearchInput "" 1) eq_refl)).
Defined.

(** ** The bounds of the relevance *)

Lemma split_head_prefix (sep : ascii) (s : string) :
  exists w ws, JS.split sep s = w :: ws /\ String.prefix w s = true.
Proof.
  induction s as [|c s IH].
  - exists "", []. split; reflexivity.
  - cbn [JS.split]. destruct (Ascii.eqb c sep).
    + exists "", (JS.split sep s). split; [reflexivity|apply prefix_nil].
    + destruct IH as (w & ws & Hs & Hp). rewrite Hs.
      exists (String c w), ws. split; [reflexivity|].
      rewrite prefix_cons, Ascii.eqb_refl. exact Hp.
Qed.

Lemma split_words_included (sep : ascii) (s w : string) :
  In w (JS.split sep s) -> JS.includes s w = true.
Proof.
  induction s as [|c s IH]; intros Hin.
  - cbn [JS.split] in Hin. destruct Hin as [<-|[]]. reflexivity.
  - cbn [JS.split] in Hin. destruct (Ascii.eqb c sep).
    + destruct Hin as [<-|Hin]; [apply includes_empty|].
      apply includes_cons, IH, Hin.
    + destruct (split_head_prefix sep s) as (w0 & ws & Hs & Hp).
      rewrite Hs in Hin, IH. destruct Hin as [<-|Hin].
      * apply startsWith_includes. unfold JS.startsWith.
        rewrite prefix_cons, Ascii.eqb_refl. exact Hp.
      * apply includes_cons, IH. right. exact Hin.
Qed.

Lemma includes_trans (text query w : string) :
  JS.includes text query = true -> JS.includes query w = true ->
  JS.includes text w = true.
Proof.
  rewrite !includes_iff. intros (pre & post & ->) (pre' & post' & ->).
  exists (pre ++ pre'), (post' ++ post). rewrite !append_assoc. reflexivity.
Qed.

Lemma contribution_upper (text w : string) : (contribution text w <= 3 # 2)%Q.
Proof.
  destruct (contribution_cases text w) as (H0 & H1 & _).
  destruct (JS.includes text w).
  - destruct (H1 eq_refl) as [E|E]; rewrite E; unfold Qle; simpl; lia.
  - rewrite (H0 eq_refl). unfold Qle; simpl; lia.
Qed.

Lemma contribution_lower (text w : string) : (0 <= contribution text w)%Q.
Proof.
  destruct (contribution_cases text w) as (H0 & H1 & _).
  destruct (JS.includes text w).
  - destruct (H1 eq_refl) as [E|E]; rewrite E; unfold Qle; simpl; lia.
  - rewrite (H0 eq_refl). unfold Qle; simpl; lia.
Qed.

Lemma contribution_found (text w : string) :
  JS.includes text w = true -> (1 <= contribution text w)%Q.
Proof.
  intros H. destruct (contribution_cases text w) as (_ & H1 & _).
  destruct (H1 H) as [E|E]; rewrite E; unfold Qle; simpl; lia.
Qed.

Lemma inject_succ (n : nat) :
  (inject_Z (Z.of_nat (S n)) == 1 + inject_Z (Z.of_nat n))%Q.
Proof.
  rewrite Nat2Z.inj_succ. unfold Z.succ. rewrite inject_Z_plus. ring.
Qed.

Lemma total_upper (text : string) (ws : list string) :
  (total (map (contribution text) ws) <= (3 # 2) * inject_Z (Z.of_nat (List.length ws)))%Q.
Proof.
  induction ws as [|w ws IH].
  - unfold Qle; simpl; lia.
  - cbn [map total fold_right List.length]. fold (total (map (contribution text) ws)).
    rewrite inject_succ.
    setoid_replace ((3 # 2) * (1 + inject_Z (Z.of_nat (List.length ws))))%Q
      with ((3 # 2) + (3 # 2) * inject_Z (Z.of_nat (List.length ws)))%Q by ring.
    apply Qplus_le_compat; [apply contribution_upper|exact IH].
Qed.

Lemma total_nonneg (text : string) (ws : list string) :
  (0 <= total (map (contribution text) ws))%Q.
Proof.
  induction ws as [|w ws IH].
  - unfold Qle; simpl; lia.
  - cbn [map total fold_right]. fold (total (map (contribution text) ws)).
    setoid_replace 0%Q with (0 + 0)%Q by ring.
    apply Qplus_le_compat; [apply contribution_lower|exact IH].
Qed.

Lemma total_lower (text : string) (ws : list string) :
  (forall w, In w ws -> JS.includes text w = true) ->
  (inject_Z (Z.of_nat (List.length ws)) <= total (map (contribution text) ws))%Q.
Proof.
  induction ws as [|w ws IH]; intros H.
  - unfold Qle; simpl; lia.
  - cbn [map total fold_right List.length]. fold (total (map (contribution text) ws)).
    rewrite inject_succ.
    apply Qplus_le_compat.
    + apply contribution_found, H. left. reflexivity.
    + apply IH. intros x Hx. apply H. right. exact Hx.
Qed.

(** X9.  The relevance lies between zero and 1.5 times the number of
    words of the query.  When the text contains the whole query, as it
    does for every request a search keeps, each word counts: the
    relevance is at least the number of words, so at least one. *)
Theorem relevance_bounds (query text : string) :
  let words := inject_Z (Z.of_nat (List.length (JS.split " " query))) in
  (0 <= Postman.calculateRelevance query text)%Q /\
  (Postman.calculateRelevance query text <= (3 # 2) * words)%Q /\
  (JS.includes text query = true ->
   (words <= Postman.calculateRelevance query text)%Q /\
   (1 <= Postman.calculateRelevance query text)%Q).
Proof.
  intros words. unfold Postman.calculateRelevance.
  assert (E : (fold_left (Postman.score_word text) (JS.split " " query) 0
               == total (map (contribution text) (JS.split " " query)))%Q).
  { rewrite relevance_from. ring. }
  split; [|split].
  - rewrite E. apply total_nonneg.
  - rewrite E. apply total_upper.
  - intros Hin.
    assert (Hw : (words <= fold_left (Postman.score_word text) (JS.split " " query) 0)%Q).
    { rewrite E. apply total_lower. intros w Hw.
      apply (includes_trans text query w Hin).
      apply (split_words_included " "%char). exact Hw. }
    split; [exact Hw|].
    apply Qle_trans with words; [|exact Hw].
    subst words. pose proof (split_not_nil " "%char query) as Hne.
    destruct (JS.split " " query) as [|w ws]; [congruence|].
    cbn [List.length]. rewrite inject_succ.
    setoid_replace 1%Q with (1 + 0)%Q at 1 by ring.
    apply Qplus_le_compat; [apply Qle_refl|].
    unfold Qle; simpl. lia.
Qed.

Lemma relevance_bounds_witness :
  (inject_Z (Z.of_nat (List.length (JS.split " " "get user")))
   <= Postman.calculateRelevance "get user" "get user by id")%Q.
Proof.
  exact (proj1 (proj2 (proj2 (relevance_bounds "get user" "get user by id")) eq_refl)).
Defined.

(** ** Looking up what the Postman tools return *)

Lemma lookup_by_request_id (s : Postman.Server) (req : Postman.Request) :
  In req (Postman.requests s) ->
  exists d,
    Postman.get_request_details s (Postman.mkLookup (Some (Postman.id req)) None)
    = Returned (Postman.Details d) /\
    Postman.rd_id d = Postman.id req.
Proof.
  intros Hin. unfold Postman.get_request_details, Postman.find_request.
  destruct (find _ (Postman.requests s)) as [found|] eqn:Hf.
  - eexists. split; [reflexivity|]. cbn [Postman.rd_id].
    apply find_some in Hf. destruct Hf as [_ Hsel].
    unfold Postman.selects in Hsel. cbn in Hsel. rewrite orb_false_r in Hsel.
    apply String.eqb_eq in Hsel. exact Hsel.
  - exfalso. pose proof (find_none _ _ Hf req Hin) as Hsel.
    unfold Postman.selects in Hsel. cbn in Hsel.
    rewrite String.eqb_refl in Hsel. discriminate.
Qed.

(** X10.  What the Postman discovery tools return can be looked up: the
    id of every hit of [search_requests] and of every entry of
    [list_requests] is accepted by [get_request_details], which answers
    with a request of that id. *)
Theorem found_ids_resolve (s : Postman.Server) :
  (forall input q total results h,
     Postman.search_requests s input = Returned (Postman.Hits q total results) ->
     In h results ->
     exists d,
       Postman.get_request_details s (Postman.mkLookup (Some (Postman.sh_id h)) None)
       = Returned (Postman.Details d) /\
       Postman.rd_id d = Postman.sh_id h) /\
  (forall input listing r,
     PostmanListing.list_requests s input = Returned listing ->
     In r (PostmanListing.listing_requests listing) ->
     exists d,
       Postman.get_request_details s (Postman.mkLookup (Some (PostmanListing.lr_id r)) None)
       = Returned (Postman.Details d) /\
       Postman.rd_id d = PostmanListing.lr_id r).
Proof.
  split.
  - intros input q total results h Heq Hin.
    unfold Postman.search_requests in Heq. injection Heq as _ _ <-.
    apply in_map_iff in Hin. destruct Hin as (x & <- & Hin).
    apply ranked_sound in Hin. destruct Hin as (req & Hreq & -> & _).
    apply lookup_by_request_id. exact Hreq.
  - intros input listing r Heq Hin.
    unfold PostmanListing.list_requests in Heq. injection Heq as <-.
    cbn [PostmanListing.listing_requests] in Hin.
    apply in_map_iff in Hin. destruct Hin as (req & <- & Hin).
    apply in_slice_0 in Hin. apply in_filteredRequests in Hin.
    apply lookup_by_request_id. apply Hin.
Qed.

Lemma found_ids_resolve_witness :
  exists d,
    Postman.get_request_details (loaded [named "Get User"])
      (Postman.mkLookup (Some "get_user") None)
    = Returned (Postman.Details d) /\
    Postman.rd_id d = "get_user".
Proof.
  exact (proj1 (found_ids_resolve (loaded [named "Get User"]))
           (Postman.mkSearchInput "user" 5) "user" 1%nat
           [Postman.mkHit "get_user" "Get User" "GET" "" "" ""]
           (Postman.mkHit "get_user" "Get User" "GET" "" "" "")
           eq_refl (or_introl eq_refl)).
Defined.

(** ** parseAllRequests *)

Lemma Item_nested_ind (P : Postman.Item -> Prop) :
  (forall itemName r, P (Postman.Leaf itemName r)) ->
  (forall itemName items, Forall P items -> P (Postman.Folder itemName items)) ->
  forall item, P item.
Proof.
  intros HL HF. fix IH 1. intros [itemName r|itemName items].
  - apply HL.
  - apply HF. induction items as [|i items IHl]; constructor; [apply IH|exact IHl].
Qed.

Lemma slug_chars (s : string) : every slug_char (Postman.slug s) = true.
Proof.
  unfold Postman.slug, JS.toLowerCase.
  induction s as [|c s IH]; [reflexivity|].
  cbn [JS.map_chars every]. rewrite IH, andb_true_r.
  destruct c as [[] [] [] [] [] [] [] []]; reflexivity.
Qed.

Lemma parseItem_ids (item : Postman.Item) :
  forall folderPath req,
    In req (Postman.parseItem item folderPath) ->
    every slug_char (Postman.id req) = true /\
    (Postman.id req = Postman.slug (Postman.folder req ++ Postman.name req) \/
     Postman.name req = "Unnamed Request").
Proof.
  induction item as [itemName r|itemName items IH] using Item_nested_ind;
    intros folderPath req Hin.
  - destruct r as [r|]; [|destruct Hin].
    destruct Hin as [<-|[]]. cbn [Postman.id Postman.folder Postman.name].
    split; [apply slug_chars|].
    destruct itemName as [n|]; [|right; reflexivity].
    cbn [JS.tpl JS.or_else]. destruct (String.eqb n ""); [right|left]; reflexivity.
  - cbn [Postman.parseItem] in Hin. apply in_flat_map in Hin.
    destruct Hin as (subItem & Hsub & Hin).
    rewrite Forall_forall in IH. exact (IH subItem Hsub _ req Hin).
Qed.

(** X11.  The id of a parsed request holds only lower-case letters,
    digits and underscores.  It is the slug of the folder path followed
    directly by the name, with nothing between them; the one exception
    is an item without a name, which is shown as "Unnamed Request". *)
Theorem request_ids_are_slugs (collection : list Postman.Item) (req : Postman.Request) :
  In req (Postman.parseAllRequests collection) ->
  every slug_char (Postman.id req) = true /\
  (Postman.id req = Postman.slug (Postman.folder req ++ Postman.name req) \/
   Postman.name req = "Unnamed Request").
Proof.
  unfold Postman.parseAllRequests. intros Hin. apply in_flat_map in Hin.
  destruct Hin as (item & _ & Hin). exact (parseItem_ids item "" req Hin).
Qed.

Lemma request_ids_are_slugs_witness :
  every slug_char "users_adminban" = true /\
  ("users_adminban" = Postman.slug ("Users/Admin" ++ "Ban") \/ "Ban" = "Unnamed Request").
Proof.
  exact (request_ids_are_slugs
           [Postman.Folder (Some "Users") [Postman.Folder (Some "Admin") [named "Ban"]]]
           (Postman.mkRequest "users_adminban" "Ban" "GET" "" "" "Users/Admin"
              (Postman.mkPmRequest (Some "GET") None None))
           (or_introl eq_refl)).
Defined.

Lemma concat_snoc (sep : string) (l : list string) (s : string) :
  l <> [] -> String.concat sep (l ++ [s]) = String.concat sep l ++ sep ++ s.
Proof.
  induction l as [|x l IH]; intros Hne; [congruence|].
  destruct l as [|y l]; [reflexivity|].
  change (String.concat sep ((x :: y :: l) ++ [s]))
    with (x ++ sep ++ String.concat sep ((y :: l) ++ [s])).
  rewrite IH by discriminate.
  change (String.concat sep (x :: y :: l)) with (x ++ sep ++ String.concat sep (y :: l)).
  rewrite !append_assoc. reflexivity.
Qed.

Lemma concat_empty (sep : string) (l : list string) :
  (forall a, In a l -> a <> "") -> String.concat sep l = "" -> l = [].
Proof.
  destruct l as [|x l]; intros H E; [reflexivity|]. exfalso.
  assert (Hx : x <> "") by (apply H; left; reflexivity).
  destruct x as [|c x]; [congruence|].
  destruct l; discriminate E.
Qed.

Lemma parseItem_folders (item : Postman.Item) :
  forall ancestors,
    folders_named item = true ->
    (forall a, In a ancestors -> a <> "") ->
    map (fun req => (Postman.folder req, Postman.request req))
      (Postman.parseItem item (JS.join "/" ancestors))
    = map (fun x => (JS.join "/" (fst x), snd x)) (leaves item ancestors).
Proof.
  induction item as [itemName r|itemName items IH] using Item_nested_ind;
    intros ancestors Hnamed Hanc.
  - destruct r as [r|]; reflexivity.
  - cbn [folders_named] in Hnamed. apply andb_true_iff in Hnamed.
    destruct Hnamed as [Hname Hitems].
    apply present_value in Hname. destruct Hname as (n & -> & Hn & _).
    cbn [Postman.parseItem leaves JS.tpl].
    assert (Hpath :
              (if String.eqb (JS.join "/" ancestors) "" then n
               else JS.join "/" ancestors ++ "/" ++ n)
              = JS.join "/" (ancestors ++ [n])%list).
    { destruct (String.eqb_spec (JS.join "/" ancestors) "") as [E|E].
      - apply concat_empty in E; [|exact Hanc]. subst ancestors. reflexivity.
      - unfold JS.join. rewrite concat_snoc; [reflexivity|].
        intros ->. apply E. reflexivity. }
    rewrite Hpath.
    assert (Hanc' : forall a, In a (ancestors ++ [n])%list -> a <> "").
    { intros a Ha. apply in_app_or in Ha. destruct Ha as [Ha|[<-|[]]]; auto. }
    rewrite forallb_forall in Hitems. rewrite Forall_forall in IH.
    clear Hpath. induction items as [|i items IHl]; [reflexivity|].
    cbn [flat_map]. rewrite !map_app.
    rewrite (IH i) by (try apply Hitems; simpl; auto).
    rewrite IHl; [reflexivity| |].
    + intros x Hx. apply IH. right. exact Hx.
    + intros x Hx. apply Hitems. right. exact Hx.
Qed.

(** X12.  When every folder of the collection has a name that is not
    empty, the parsed requests are the leaves that carry a request, in
    depth-first order, and the [folder] of each is the names of the
    folders around it joined by slashes. *)
Theorem folder_is_path (collection : list Postman.Item) :
  forallb folders_named collection = true ->
  map (fun req => (Postman.folder req, Postman.request req))
    (Postman.parseAllRequests collection)
  = map (fun x => (JS.join "/" (fst x), snd x))
      (flat_map (fun item => leaves item []) collection).
Proof.
  unfold Postman.parseAllRequests. intros H. rewrite forallb_forall in H.
  induction collection as [|item rest IH]; [reflexivity|].
  cbn [flat_map]. rewrite !map_app.
  rewrite <- (parseItem_folders item []); [|apply H; left; reflexivity|intros a []].
  rewrite IH; [reflexivity|]. intros x Hx. apply H. right. exact Hx.
Qed.

Lemma folder_is_path_witness :
  map (fun req => (Postman.folder req, Postman.request req))
    (Postman.parseAllRequests
       [Postman.Folder (Some "Users") [named "Get"; Postman.Folder (Some "Admin") [named "Ban"]]])
  = [("Users", Postman.mkPmRequest (Some "GET") None None);
     ("Users/Admin", Postman.mkPmRequest (Some "GET") None None)].
Proof.
  exact (folder_is_path
           [Postman.Folder (Some "Users")
              [named "Get"; Postman.Folder (Some "Admin") [named "Ban"]]]
           eq_refl).
Defined.

(** ** resolveVariables and loadEnvironment *)

Lemma resolve_unset (env : JS.obj JS.value) :
  (forall k v, JS.obj_get env k = Some v -> JS.truthy v = false) ->
  forall text skip,
    (forall n, In n inherited_names -> JS.includes text (var_token n) = false) ->
    Postman.resolve env skip text = JS.drop skip text.
Proof.
  intros Henv. induction text as [|c rest IH]; intros skip Hown.
  - destruct skip; reflexivity.
  - assert (Hrest : forall n, In n inherited_names ->
                      JS.includes rest (var_token n) = false).
    { intros n Hn. apply (includes_false_cons c). apply Hown. exact Hn. }
    rewrite resolve_cons. destruct skip as [|k]; [|cbn [JS.drop]; apply IH; exact Hrest].
    cbn [JS.drop].
    destruct (Postman.match_token (String c rest)) as [w|] eqn:Hm.
    + apply match_token_sound in Hm. destruct Hm as (_ & _ & Hp).
      assert (Hl : Postman.lookup_variable env w = var_token w).
      { apply lookup_unset; [apply Henv|]. intros _ Hw.
        pose proof (Hown w Hw) as Hf.
        rewrite (startsWith_includes (String c rest) (var_token w) Hp) in Hf.
        discriminate. }
      rewrite Hl, IH by exact Hrest. apply prefix_split in Hp.
      etransitivity; [|symmetry; exact Hp]. f_equal.
      unfold var_token. rewrite !length_append. cbn [String.length].
      replace (2 + (String.length w + 2))%nat with (S (String.length w + 3)) by lia.
      reflexivity.
    + rewrite IH by exact Hrest. reflexivity.
Qed.

(** X13.  When the environment gives no variable a truthy value (it is
    empty, or its values are empty strings, zero, false or null), the
    resolution of variables changes nothing: every token, known or not,
    stays in the text as it is written.  The text is one whose tokens
    name no inherited property. *)
Theorem unset_variables_stay (env : JS.obj JS.value) (text : string) :
  (forall k v, JS.obj_get env k = Some v -> JS.truthy v = false) ->
  own_tokens text = true ->
  Postman.resolveVariables env text = text.
Proof.
  intros Henv Hown. unfold Postman.resolveVariables.
  rewrite resolve_unset; [reflexivity|exact Henv|].
  intros n Hn. unfold own_tokens in Hown. rewrite forallb_forall in Hown.
  apply negb_true_iff. apply Hown. exact Hn.
Qed.

Lemma unset_variables_stay_witness :
  Postman.resolveVariables [("id", JS.VString "")] "{{host}}/users/{{id}}"
  = "{{host}}/users/{{id}}".
Proof.
  apply unset_variables_stay; [|reflexivity]. intros k v H. cbn [JS.obj_get] in H.
  destruct (String.eqb "id" k); [injection H as <-; reflexivity|discriminate H].
Defined.

Lemma obj_get_app {V} (a b : JS.obj V) (k : string) :
  JS.obj_get (a ++ b)%list k
  = match JS.obj_get a k with Some v => Some v | None => JS.obj_get b k end.
Proof.
  induction a as [|[k' v'] a IH]; [reflexivity|].
  cbn [app JS.obj_get]. destruct (String.eqb k' k); [reflexivity|exact IH].
Qed.

Lemma obj_get_fold_set {V} (variables env : JS.obj V) (k : string) :
  JS.obj_get
    (fold_left (fun environment variable =>
                  JS.obj_set environment (fst variable) (snd variable))
       variables env) k
  = match JS.obj_get (rev variables) k with
    | Some v => Some v
    | None => JS.obj_get env k
    end.
Proof.
  revert env. induction variables as [|[k0 v0] rest IH]; intros env; [reflexivity|].
  cbn [fold_left rev fst snd]. rewrite IH, obj_get_app.
  destruct (JS.obj_get (rev rest) k); [reflexivity|].
  cbn [JS.obj_get]. destruct (String.eqb_spec k0 k) as [->|Hne].
  - apply obj_get_set_same.
  - apply obj_get_set_other. exact Hne.
Qed.

(** X14.  After [loadEnvironment] a variable has the value of the last
    entry of the file that has its key; a variable the file does not
    mention keeps the value it had, since the environment is not emptied
    first.  The requests and the default credentials are untouched.  The
    key is not [__proto__], to which an assignment makes no property. *)
Theorem environment_last_value_wins (variables : list (string * JS.value))
    (s : Postman.Server) (k : string) :
  k <> "__proto__" ->
  let s' := PostmanListing.loadEnvironment (Some variables) s in
  JS.obj_get (Postman.environment s') k
  = match JS.obj_get (rev variables) k with
    | Some v => Some v
    | None => JS.obj_get (Postman.environment s) k
    end /\
  Postman.requests s' = Postman.requests s /\
  Postman.defaultAuth s' = Postman.defaultAuth s /\
  PostmanListing.loadEnvironment None s = s.
Proof.
  intros _. cbv zeta.
  cbn [PostmanListing.loadEnvironment Postman.environment Postman.requests
         Postman.defaultAuth].
  split; [apply obj_get_fold_set|]. repeat split.
Qed.

Lemma environment_last_value_wins_witness :
  JS.obj_get
    (Postman.environment
       (PostmanListing.loadEnvironment
          (Some [("host", JS.VString "a.test"); ("port", JS.VNumber 80);
                 ("host", JS.VString "b.test")])
          (Postman.mkServer [] [("port", JS.VNumber 8080); ("user", JS.VString "u")] None)))
    "user"
  = Some (JS.VString "u").
Proof.
  exact (proj1
           (environment_last_value_wins
              [("host", JS.VString "a.test"); ("port", JS.VNumber 80);
               ("host", JS.VString "b.test")]
              (Postman.mkServer [] [("port", JS.VNumber 8080); ("user", JS.VString "u")] None)
              "user" ltac:(discriminate))).
Defined.

(** X15.  Loading and resolving compose: a token whose variable the
    loaded file gives a truthy value last is replaced by that value as a
    string, and the rest of the text is resolved in the same way.  The
    variable is not [__proto__]. *)
Theorem loaded_variable_is_resolved (variables : list (string * JS.value))
    (s : Postman.Server) (k : string) (v : JS.value) (rest : string) :
  word k = true -> k <> "" -> k <> "__proto__" ->
  JS.obj_get (rev variables) k = Some v -> JS.truthy v = true ->
  let env := Postman.environment (PostmanListing.loadEnvironment (Some variables) s) in
  Postman.resolveVariables env (var_token k ++ rest)
  = JS.to_string v ++ Postman.resolveVariables env rest.
Proof.
  intros Hw Hk _ Hget Ht env. rewrite resolve_head by assumption. f_equal.
  unfold Postman.lookup_variable. subst env.
  cbn [PostmanListing.loadEnvironment Postman.environment].
  rewrite obj_get_fold_set, Hget, Ht. reflexivity.
Qed.

Lemma loaded_variable_is_resolved_witness :
  Postman.resolveVariables
    (Postman.environment
       (PostmanListing.loadEnvironment
          (Some [("host", JS.VString "a.test"); ("host", JS.VString "b.test")])
          (loaded [])))
    (var_token "host" ++ "/users")
  = "b.test/users".
Proof.
  exact (loaded_variable_is_resolved
           [("host", JS.VString "a.test"); ("host", JS.VString "b.test")]
           (loaded []) "host" (JS.VString "b.test") "/users"
           eq_refl ltac:(discriminate) ltac:(discriminate) eq_refl eq_refl).
Defined.

(** ** The headers of executeRequest *)

Lemma obj_get_as_values (o : JS.obj string) (k : string) :
  JS.obj_get (Postman.as_values o) k = option_map JS.VString (JS.obj_get o k).
Proof.
  induction o as [|[k' v'] o IH]; [reflexivity|].
  cbn [Postman.as_values map JS.obj_get fst snd].
  destruct (String.eqb k' k); [reflexivity|exact IH].
Qed.

Lemma add_header_other (headers : JS.obj JS.value) (kv : string * JS.value) (k : string) :
  fst kv <> k \/ JS.includes (JS.toLowerCase k) "header" = false ->
  JS.obj_get (Postman.add_header headers kv) k = JS.obj_get headers k.
Proof.
  intros H. unfold Postman.add_header.
  destruct (Postman.defined (snd kv)); [|reflexivity]. cbn [andb].
  destruct (JS.includes (JS.toLowerCase (fst kv)) "header") eqn:Hh; [|reflexivity].
  apply obj_get_set_other. intros E. destruct H as [H|H]; [exact (H E)|].
  rewrite E in Hh. congruence.
Qed.

Lemma fold_add_header_other (parameters headers : JS.obj JS.value) (k : string) :
  ~ In k (map fst parameters) \/ JS.includes (JS.toLowerCase k) "header" = false ->
  JS.obj_get (fold_left Postman.add_header parameters headers) k = JS.obj_get headers k.
Proof.
  revert headers. induction parameters as [|kv rest IH]; intros headers H; [reflexivity|].
  cbn [fold_left]. rewrite IH.
  - apply add_header_other. destruct H as [H|H]; [left|right; exact H].
    intros E. apply H. left. exact E.
  - destruct H as [H|H]; [left|right; exact H].
    intros E. apply H. right. exact E.
Qed.

Lemma fold_add_header_sent (parameters headers : JS.obj JS.value)
    (k : string) (v : JS.value) :
  NoDup (map fst parameters) -> In (k, v) parameters ->
  Postman.defined v = true -> JS.includes (JS.toLowerCase k) "header" = true ->
  JS.obj_get (fold_left Postman.add_header parameters headers) k = Some v.
Proof.
  intros Hnd Hin Hv Hh. revert headers Hnd Hin.
  induction parameters as [|kv rest IH]; intros headers Hnd Hin; [contradiction|].
  cbn [fold_left]. inversion Hnd as [|x l Hnotin Hnd']; subst.
  destruct Hin as [->|Hin].
  - rewrite fold_add_header_other by (left; exact Hnotin).
    unfold Postman.add_header. cbn [fst snd]. rewrite Hv, Hh. apply obj_get_set_same.
  - apply IH; assumption.
Qed.

(** X16.  A request with a truthy body always leaves with a truthy
    [Content-Type] header.  No caller parameter can set that header,
    since [Content-Type] does not contain the text [header]: it is
    [application/json] unless the credentials put a header of that name,
    whatever the parameters are.  Without a body no [Content-Type] is
    added and no data is sent. *)
Theorem content_type_default (s : Postman.Server) (r : Postman.PmRequest)
    (parameters : JS.obj JS.value) (body : JS.value) (auth : option AuthConfig) :
  let config := Postman.request_config s r parameters body auth in
  let credentials := getAuthHeaders (Postman.defaultAuth s) auth in
  (JS.truthy body = true ->
   (exists v, JS.obj_get (Postman.cfg_headers config) "Content-Type" = Some v /\
              JS.truthy v = true) /\
   (JS.obj_get credentials "Content-Type" = None ->
    JS.obj_get (Postman.cfg_headers config) "Content-Type"
    = Some (JS.VString "application/json"))) /\
  (JS.truthy body = false ->
   Postman.cfg_data config = None /\
   JS.obj_get (Postman.cfg_headers config) "Content-Type"
   = option_map JS.VString (JS.obj_get credentials "Content-Type")).
Proof.
  intros config credentials. subst config. unfold Postman.request_config.
  cbn [Postman.cfg_headers Postman.cfg_data].
  set (headers := fold_left Postman.add_header parameters _).
  assert (Hh : JS.obj_get headers "Content-Type"
               = option_map JS.VString (JS.obj_get credentials "Content-Type")).
  { subst headers. rewrite fold_add_header_other by (right; reflexivity).
    apply obj_get_as_values. }
  split; intros Hb; rewrite Hb; cbn [andb].
  - split.
    + destruct (JS.obj_get headers "Content-Type") as [v|] eqn:Hg.
      * destruct (JS.truthy v) eqn:Hv; cbn [negb].
        -- exists v. split; assumption.
        -- eexists. split; [apply obj_get_set_same|reflexivity].
      * cbn [negb]. eexists. split; [apply obj_get_set_same|reflexivity].
    + intros Hc. rewrite Hc in Hh. cbn [option_map] in Hh. rewrite Hh. cbn [negb].
      apply obj_get_set_same.
  - split; [reflexivity|exact Hh].
Qed.

Lemma content_type_default_witness :
  JS.obj_get
    (Postman.cfg_headers
       (Postman.request_config (loaded []) (Postman.mkPmRequest (Some "POST") None None)
          [("Content-Type", JS.VString "text/plain")] (JS.VString "{}") None))
    "Content-Type"
  = Some (JS.VString "application/json").
Proof.
  exact (proj2
           (proj1
              (content_type_default (loaded []) (Postman.mkPmRequest (Some "POST") None None)
                 [("Content-Type", JS.VString "text/plain")] (JS.VString "{}") None)
              eq_refl)
           eq_refl).
Defined.

(** X17.  A caller parameter with a defined value whose name contains
    [header], in any case, is sent as a request header under its own
    name and with its own value. *)
Theorem header_parameters_are_sent (s : Postman.Server) (r : Postman.PmRequest)
    (parameters : JS.obj JS.value) (body : JS.value) (auth : option AuthConfig)
    (k : string) (v : JS.value) :
  NoDup (map fst parameters) -> In (k, v) parameters ->
  Postman.defined v = true -> JS.includes (JS.toLowerCase k) "header" = true ->
  JS.obj_get (Postman.cfg_headers (Postman.request_config s r parameters body auth)) k
  = Some v.
Proof.
  intros Hnd Hin Hv Hh. unfold Postman.request_config. cbn [Postman.cfg_headers].
  set (headers := fold_left Postman.add_header parameters _).
  assert (Hg : JS.obj_get headers k = Some v)
    by (subst headers; apply fold_add_header_sent; assumption).
  destruct (JS.truthy body && _); [|exact Hg].
  rewrite obj_get_set_other; [exact Hg|].
  intros E. rewrite <- E in Hh. discriminate Hh.
Qed.

Lemma header_parameters_are_sent_witness :
  JS.obj_get
    (Postman.cfg_headers
       (Postman.request_config (loaded []) (Postman.mkPmRequest (Some "GET") None None)
          [("X-Header-Trace", JS.VString "t1"); ("page", JS.VNumber 2)] JS.VUndefined None))
    "X-Header-Trace"
  = Some (JS.VString "t1").
Proof.
  refine (header_parameters_are_sent (loaded []) (Postman.mkPmRequest (Some "GET") None None)
            [("X-Header-Trace", JS.VString "t1"); ("page", JS.VNumber 2)] JS.VUndefined None
            "X-Header-Trace" (JS.VString "t1") _ (or_introl eq_refl) eq_refl eq_refl).
  repeat constructor; simpl; intuition discriminate.
Defined.

(** ** Where the credentials go *)

(** X18.  The two simple servers put a credential in one place at most:
    the headers and the query parameters of the credentials hold one
    entry between them, or none.  A header that is not named
    [Authorization] is an API key sent in a header. *)
Theorem credentials_in_one_place (defaultAuth auth : option AuthConfig) :
  (List.length (getAuthHeaders defaultAuth auth)
   + List.length (getAuthQueryParams defaultAuth auth) <= 1)%nat /\
  forall n v,
    In (n, v) (getAuthHeaders defaultAuth auth) ->
    n = "Authorization" \/
    exists a, resolveAuth auth defaultAuth = Some a /\ type a = apiKey /\
              apiKeyIn a = Some header /\ apiKeyName a = Some n.
Proof.
  unfold getAuthHeaders, getAuthQueryParams.
  destruct (resolveAuth auth defaultAuth) as [a|]; [|split; [simpl; lia|intros n v []]].
  destruct (type a) eqn:Ht.
  - split; [simpl; lia|intros n v []].
  - destruct (JS.present (username a) && JS.present (password a)).
    + split; [simpl; lia|]. intros n v [[= <- _]|[]]. left. reflexivity.
    + split; [simpl; lia|intros n v []].
  - destruct (JS.present (token a)).
    + split; [simpl; lia|]. intros n v [[= <- _]|[]]. left. reflexivity.
    + split; [simpl; lia|intros n v []].
  - destruct (JS.present (apiKeyValue a)) eqn:Hk; cbn [andb];
      [|destruct (apiKeyIn a) as [[]|]; split; try (simpl; lia); intros n v []].
    destruct (JS.present (apiKeyName a)) eqn:Hn;
      [|destruct (apiKeyIn a) as [[]|]; split; try (simpl; lia); intros n v []].
    destruct (apiKeyIn a) as [[]|] eqn:Hi; (split; [simpl; lia|]);
      [|intros n v []|intros n v []].
    intros n v [[= <- _]|[]]. right. exists a.
    apply present_value in Hn. destruct Hn as (name & Hn & _ & Ht').
    rewrite Ht'. repeat split; assumption.
  - destruct (JS.present (token a)).
    + split; [simpl; lia|]. intros n v [[= <- _]|[]]. left. reflexivity.
    + split; [simpl; lia|intros n v []].
Qed.

Lemma credentials_in_one_place_witness :
  "X-Key" = "Authorization" \/
  exists a,
    resolveAuth None
      (Some (mkAuth apiKey None None None (Some "k") (Some "X-Key") (Some header)))
    = Some a /\
    type a = apiKey /\ apiKeyIn a = Some header /\ apiKeyName a = Some "X-Key".
Proof.
  exact (proj2
           (credentials_in_one_place
              (Some (mkAuth apiKey None None None (Some "k") (Some "X-Key") (Some header)))
              None)
           "X-Key" "k" (or_introl eq_refl)).
Defined.

(** X19.  An explicit [auth] of type [none] means two different things.
    [make_api_call] of the OpenAPI server treats it as no [auth] at all,
    so the default credentials are used.  [make_request] of the Postman
    server passes it on, and it then suppresses the default credentials:
    the request is the one a server without default credentials sends. *)
Theorem explicit_none (a : AuthConfig) :
  type a = none ->
  (forall s targetPath targetMethod lookup parameters body,
     Swagger.request_config s targetPath targetMethod
       (Swagger.mkCallInput lookup parameters body (Some a))
     = Swagger.request_config s targetPath targetMethod
         (Swagger.mkCallInput lookup parameters body None)) /\
  (forall s r parameters body,
     Postman.request_config s r parameters body (Some a)
     = Postman.request_config
         (Postman.mkServer (Postman.requests s) (Postman.environment s) None)
         r parameters body None).
Proof.
  intros Ht. split.
  - intros. unfold Swagger.request_config. cbn [Swagger.call_auth Swagger.call_parameters
      Swagger.call_body]. unfold Swagger.call_credentials. rewrite Ht. reflexivity.
  - intros. unfold Postman.request_config, Postman.final_url.
    cbn [Postman.defaultAuth Postman.environment].
    unfold getAuthHeaders, getAuthQueryParams. cbn [resolveAuth]. rewrite Ht. reflexivity.
Qed.

Lemma explicit_none_witness :
  Swagger.cfg_headers
    (Swagger.request_config (open_server bearer_token) "/ping" "get"
       (Swagger.mkCallInput (Swagger.mkLookup (Some "ping") None None) None JS.VUndefined
          (Some (mkAuth none None None None None None None))))
  = [("Authorization", "Bearer secret")].
Proof.
  exact (f_equal Swagger.cfg_headers
           (proj1 (explicit_none (mkAuth none None None None None None None) eq_refl)
              (open_server bearer_token) "/ping" "get"
              (Swagger.mkLookup (Some "ping") None None) None JS.VUndefined)).
Defined.

(** X20.  The legacy OpenAPI server sends an API key in a header named
    [api_key] whenever the operation requires some security scheme,
    whatever name and place the credentials give.  An API key meant for
    the query string therefore leaves twice, in that header and in the
    query parameter. *)
Theorem legacy_api_key_header (defaultAuth auth : option AuthConfig)
    (specSecurity : option (list SecurityRequirement)) (op : Operation)
    (a : AuthConfig) (key : string) :
  resolveAuth auth defaultAuth = Some a ->
  type a = apiKey -> apiKeyValue a = Some key -> key <> "" ->
  Legacy.requiredSchemes specSecurity (Some op) <> [] ->
  Legacy.call_headers defaultAuth specSecurity auth op = [("api_key", key)] /\
  (forall name, apiKeyName a = Some name -> name <> "" -> apiKeyIn a = Some query ->
                Legacy.call_query defaultAuth auth = [(name, key)]).
Proof.
  intros Hr Ht Hk Hne Hreq. split.
  - unfold Legacy.call_headers, Legacy.getAuthHeaders. rewrite Hr.
    destruct (Legacy.requiredSchemes specSecurity (Some op)); [congruence|].
    rewrite Ht, Hk. apply present_some in Hne. rewrite Hne. reflexivity.
  - intros name Hn Hne' Hq. unfold Legacy.call_query.
    apply (query_key_resolved defaultAuth auth a key name); assumption.
Qed.

Lemma legacy_api_key_header_witness :
  Legacy.call_headers (Some key_in_query) None None
    (mkOperation None None None None None (Some [[("petstore_auth", [])]]))
  = [("api_key", "secret")].
Proof.
  refine (proj1
            (legacy_api_key_header (Some key_in_query) None None
               (mkOperation None None None None None (Some [[("petstore_auth", [])]]))
               key_in_query "secret" eq_refl eq_refl eq_refl _ _));
    discriminate.
Defined.

(** ** The tool names of the legacy Postman server *)

Lemma every_collapse (P : ascii -> bool) (s : string) :
  every P s = true -> every P (LegacyPostman.collapse s) = true.
Proof.
  induction s as [|c s IH]; intros H; [reflexivity|].
  cbn [every] in H. apply andb_true_iff in H. destruct H as [Hc Hs].
  cbn [LegacyPostman.collapse].
  destruct (Ascii.eqb c "_" && JS.startsWith s "_"); [apply IH; exact Hs|].
  cbn [every]. rewrite Hc, IH by exact Hs. reflexivity.
Qed.

Lemma every_trim_left (P : ascii -> bool) (s : string) :
  every P s = true -> every P (LegacyPostman.trim_left s) = true.
Proof.
  induction s as [|c s IH]; intros H; [reflexivity|].
  cbn [LegacyPostman.trim_left]. destruct (Ascii.eqb c "_"); [|exact H].
  cbn [every] in H. apply andb_true_iff in H. apply IH, H.
Qed.

Lemma every_trim_right (P : ascii -> bool) (s : string) :
  every P s = true -> every P (LegacyPostman.trim_right s) = true.
Proof.
  induction s as [|c s IH]; intros H; [reflexivity|].
  cbn [every] in H. apply andb_true_iff in H. destruct H as [Hc Hs].
  cbn [LegacyPostman.trim_right].
  destruct (Ascii.eqb c "_" && String.eqb (LegacyPostman.trim_right s) ""); [reflexivity|].
  cbn [every]. rewrite Hc, IH by exact Hs. reflexivity.
Qed.

Lemma trim_left_head (s : string) :
  match LegacyPostman.trim_left s with
  | String c _ => Ascii.eqb c "_" = false
  | EmptyString => True
  end.
Proof.
  induction s as [|c s IH]; [exact I|].
  cbn [LegacyPostman.trim_left]. destruct (Ascii.eqb c "_") eqn:E; [exact IH|exact E].
Qed.

Lemma trim_right_head (c : ascii) (rest : string) :
  Ascii.eqb c "_" = false ->
  LegacyPostman.trim_right (String c rest) = String c (LegacyPostman.trim_right rest).
Proof. intros E. cbn [LegacyPostman.trim_right]. rewrite E. reflexivity. Qed.

Lemma slug_char_letter (c : ascii) :
  slug_char c = true -> Ascii.eqb c "_" = false -> JS.is_digit c = false ->
  JS.is_lower c = true.
Proof.
  unfold slug_char. intros H Hu Hd. rewrite Hu, Hd in H.
  rewrite !orb_false_r in H. exact H.
Qed.

(** X21.  The name [generateUniqueToolName] derives from a base name,
    before a suffix makes it unique, is a valid identifier: it is not
    empty, it holds only lower-case letters, digits and underscores, and
    it starts with a lower-case letter. *)
Theorem tool_name_is_identifier (baseName : string) :
  every slug_char (LegacyPostman.toolNameOf baseName) = true /\
  match LegacyPostman.toolNameOf baseName with
  | String c _ => JS.is_lower c = true
  | EmptyString => False
  end.
Proof.
  unfold LegacyPostman.toolNameOf.
  set (t := LegacyPostman.trim_right
              (LegacyPostman.trim_left (LegacyPostman.collapse (Postman.slug baseName)))).
  assert (Ht : every slug_char t = true).
  { subst t. apply every_trim_right, every_trim_left, every_collapse, slug_chars. }
  assert (Hh : match t with
               | String c _ => Ascii.eqb c "_" = false
               | EmptyString => True
               end).
  { subst t.
    pose proof (trim_left_head (LegacyPostman.collapse (Postman.slug baseName))) as H.
    destruct (LegacyPostman.trim_left _) as [|c rest]; [exact I|].
    rewrite trim_right_head by exact H. exact H. }
  destruct t as [|c rest]; [split; reflexivity|].
  cbn [every] in Ht. apply andb_true_iff in Ht. destruct Ht as [Hc Hrest].
  destruct (JS.is_digit c) eqn:Hd.
  - change (String.eqb ("api_" ++ String c rest) "") with false. cbv iota.
    split; [|reflexivity].
    rewrite every_append. cbn [every]. rewrite Hc, Hrest. reflexivity.
  - change (String.eqb (String c rest) "") with false. cbv iota.
    split.
    + cbn [every]. rewrite Hc, Hrest. reflexivity.
    + apply slug_char_letter; assumption.
Qed.

Lemma append_inj_l (a x y : string) : a ++ x = a ++ y -> x = y.
Proof.
  induction a as [|c a IH]; intros H; [exact H|].
  cbn [append] in H. injection H as H. apply IH, H.
Qed.

Lemma to_int_not_nil (z : Z) :
  Z.to_int z <> Decimal.Pos Decimal.Nil /\ Z.to_int z <> Decimal.Neg Decimal.Nil.
Proof.
  destruct z as [|p|p]; cbn [Z.to_int]; split; try discriminate;
    intros [= E]; exact (DecimalPos.Unsigned.to_uint_nonnil p E).
Qed.

Lemma number_string_inj (a b : Z) :
  JS.to_string (JS.VNumber a) = JS.to_string (JS.VNumber b) -> a = b.
Proof.
  cbn [JS.to_string]. intros H. apply DecimalZ.to_int_inj.
  assert (E : NilZero.int_of_string (NilZero.string_of_int (Z.to_int a))
              = NilZero.int_of_string (NilZero.string_of_int (Z.to_int b)))
    by (rewrite H; reflexivity).
  rewrite !NilZero.isi in E by apply to_int_not_nil.
  injection E as E. exact E.
Qed.

Lemma candidate_inj (toolName : string) (i j : nat) :
  candidate toolName i = candidate toolName j -> i = j.
Proof.
  destruct i as [|i], j as [|j]; cbn [candidate]; intros H.
  - reflexivity.
  - exfalso. apply (f_equal String.length) in H.
    rewrite !length_append in H. cbn [String.length] in H. lia.
  - exfalso. apply (f_equal String.length) in H.
    rewrite !length_append in H. cbn [String.length] in H. lia.
  - apply append_inj_l in H. cbn [append] in H. injection H as H.
    apply (number_string_inj (Z.of_nat (S i)) (Z.of_nat (S j))) in H. lia.
Qed.

Lemma in_used (used : list string) (uniqueName : string) :
  existsb (String.eqb uniqueName) used = true <-> In uniqueName used.
Proof.
  rewrite existsb_exists. split.
  - intros (x & Hx & E). apply String.eqb_eq in E. subst. exact Hx.
  - intros H. exists uniqueName. split; [exact H|apply String.eqb_refl].
Qed.

Lemma candidates_fit (toolName : string) (used : list string) (n : nat) :
  (forall j, (j < n)%nat -> In (candidate toolName j) used) ->
  (n <= List.length used)%nat.
Proof.
  intros H.
  assert (Hnd : NoDup (map (candidate toolName) (seq 0 n))).
  { apply NoDup_map_NoDup_ForallPairs; [|apply seq_NoDup].
    intros x y _ _. apply candidate_inj. }
  apply NoDup_incl_length with (l' := used) in Hnd.
  - rewrite length_map, length_seq in Hnd. exact Hnd.
  - intros x Hx. apply in_map_iff in Hx. destruct Hx as (j & <- & Hj).
    apply in_seq in Hj. apply H. lia.
Qed.

Lemma unique_fresh (used : list string) (toolName : string) :
  forall fuel i,
    (forall j, (j < i)%nat -> In (candidate toolName j) used) ->
    (List.length used <= i + fuel)%nat ->
    ~ In (LegacyPostman.unique fuel used toolName (candidate toolName i)
            (Z.of_nat i + 1)) used.
Proof.
  induction fuel as [|fuel IH]; intros i Hbelow Hlen.
  - cbn [LegacyPostman.unique].
    destruct (existsb _ used) eqn:E.
    + apply in_used in E. exfalso.
      assert (H : (S i <= List.length used)%nat).
      { apply (candidates_fit toolName). intros j Hj.
        destruct (Nat.eq_dec j i) as [->|Hne]; [exact E|apply Hbelow; lia]. }
      lia.
    + intros Hin. apply in_used in Hin. congruence.
  - cbn [LegacyPostman.unique].
    destruct (existsb _ used) eqn:E.
    + apply in_used in E.
      replace (toolName ++ "_" ++ JS.to_string (JS.VNumber (Z.of_nat i + 1)))
        with (candidate toolName (S i))
        by (cbn [candidate]; rewrite Nat2Z.inj_succ; reflexivity).
      replace (Z.of_nat i + 1 + 1)%Z with (Z.of_nat (S i) + 1)%Z by lia.
      apply IH; [|lia]. intros j Hj.
      destruct (Nat.eq_dec j i) as [->|Hne]; [exact E|apply Hbelow; lia].
    + intros Hin. apply in_used in Hin. congruence.
Qed.

Lemma generated_name_fresh (used : list string) (baseName : string) :
  ~ In (LegacyPostman.generateUniqueToolName used baseName) used.
Proof.
  unfold LegacyPostman.generateUniqueToolName.
  apply (unique_fresh used (LegacyPostman.toolNameOf baseName)
           (S (List.length used)) 0); [intros j Hj; lia|lia].
Qed.

Lemma registerItem_distinct (item : Postman.Item) :
  forall prefix used,
    NoDup used -> NoDup (LegacyPostman.registerItem item prefix used).
Proof.
  induction item as [itemName r|itemName items IH] using Item_nested_ind;
    intros prefix used Hnd.
  - destruct r as [r|]; [|exact Hnd]. cbn [LegacyPostman.registerItem].
    apply NoDup_app; [exact Hnd|repeat constructor; intros []|].
    intros a Ha [<-|[]]. exact (generated_name_fresh used _ Ha).
  - cbn [LegacyPostman.registerItem].
    generalize (Postman.slug (prefix ++ JS.tpl itemName ++ "_")). intros folderPrefix.
    revert used Hnd. induction items as [|i items IHl]; intros used Hnd; [exact Hnd|].
    cbn [fold_left]. inversion IH as [|x l Hi Hitems]; subst.
    apply IHl; [exact Hitems|]. apply Hi. exact Hnd.
Qed.

(** X22.  The legacy Postman server never gives two tools the same name:
    the [while] loop of [generateUniqueToolName] ends on a name that is
    not among the names in use, so the names registered for a collection
    are pairwise distinct. *)
Theorem legacy_tool_names_distinct :
  (forall used baseName,
     existsb (String.eqb (LegacyPostman.generateUniqueToolName used baseName)) used
     = false) /\
  (forall collection, NoDup (LegacyPostman.registerTools collection)).
Proof.
  split.
  { intros used baseName. destruct (existsb _ used) eqn:E; [|reflexivity].
    apply in_used in E. destruct (generated_name_fresh used baseName E). }
  intros collection. unfold LegacyPostman.registerTools.
  assert (H : forall used, NoDup used ->
                NoDup (fold_left
                         (fun used item => LegacyPostman.registerItem item "" used)
                         collection used)).
  { induction collection as [|item rest IH]; intros used Hnd; [exact Hnd|].
    cbn [fold_left]. apply IH. apply registerItem_distinct. exact Hnd. }
  apply H. constructor.
Qed.

(** ** The search of the legacy OpenAPI server *)

Lemma legacy_search_operations_scored (input : Swagger.SearchInput) (path : string)
    (entries : PathItem) (results : list Swagger.SearchHit) :
  LegacySearch.search_operations input path entries (map (scored input) results)
  = map (scored input) (Swagger.search_operations input path entries results).
Proof.
  revert results. induction entries as [|[k [o|]] rest IH]; intros results.
  - reflexivity.
  - cbn [LegacySearch.search_operations Swagger.search_operations].
    destruct (String.eqb k "$ref"); [apply IH|]. cbv zeta.
    assert (E : (map (scored input) results
                   ++ [(Swagger.hit k path o,
                        Postman.calculateRelevance
                          (JS.toLowerCase (Swagger.search_query input))
                          (Swagger.searchText k path o))])%list
                = map (scored input) (results ++ [Swagger.hit k path o])%list)
      by (rewrite map_app; reflexivity).
    rewrite E. clear E.
    destruct (JS.includes (Swagger.searchText k path o)
                (JS.toLowerCase (Swagger.search_query input))).
    + unfold reached. rewrite length_map.
      destruct (_ <=? _)%Z; [reflexivity|apply IH].
    + unfold reached. rewrite length_map.
      destruct (_ <=? _)%Z; [reflexivity|apply IH].
  - cbn [LegacySearch.search_operations Swagger.search_operations]. apply IH.
Qed.

Lemma legacy_search_paths_scored (input : Swagger.SearchInput) (ps : Paths)
    (results : list Swagger.SearchHit) :
  LegacySearch.search_paths input ps (map (scored input) results)
  = map (scored input) (Swagger.search_paths input ps results).
Proof.
  revert results. induction ps as [|[k [entries|]] rest IH]; intros results.
  - reflexivity.
  - cbn [LegacySearch.search_paths Swagger.search_paths]. cbv zeta.
    rewrite legacy_search_operations_scored.
    unfold reached. rewrite length_map.
    destruct (_ <=? _)%Z; [reflexivity|apply IH].
  - cbn [LegacySearch.search_paths Swagger.search_paths]. apply IH.
Qed.

Lemma legacy_insert_perm (a : Swagger.SearchHit * Q) (l : list (Swagger.SearchHit * Q)) :
  Permutation (LegacySearch.insert a l) (a :: l).
Proof.
  induction l as [|b l IH]; cbn [LegacySearch.insert]; [reflexivity|].
  destruct (LegacySearch.before a b); [reflexivity|].
  rewrite IH. apply perm_swap.
Qed.

Lemma legacy_sort_perm (l : list (Swagger.SearchHit * Q)) :
  Permutation (LegacySearch.sort l) l.
Proof.
  induction l as [|a l IH]; [reflexivity|].
  cbn [LegacySearch.sort fold_right]. fold (LegacySearch.sort l).
  rewrite legacy_insert_perm. apply perm_skip. exact IH.
Qed.

Lemma legacy_insert_sorted (a : Swagger.SearchHit * Q) (l : list (Swagger.SearchHit * Q)) :
  StronglySorted hit_outranks l -> StronglySorted hit_outranks (LegacySearch.insert a l).
Proof.
  induction l as [|b l IH]; cbn [LegacySearch.insert]; intro Hs.
  - constructor; constructor.
  - apply StronglySorted_inv in Hs. destruct Hs as [Hl Hb].
    destruct (LegacySearch.before a b) eqn:Hab.
    + unfold LegacySearch.before in Hab. apply Qle_bool_iff in Hab.
      constructor; [constructor; assumption|].
      constructor; [exact Hab|].
      eapply Forall_impl; [|exact Hb]. intros c Hc.
      unfold hit_outranks in *. eapply Qle_trans; eassumption.
    + assert (Hba : hit_outranks b a).
      { unfold hit_outranks. apply Qlt_le_weak. apply Qnot_le_lt. intro Hle.
        apply Qle_bool_iff in Hle. unfold LegacySearch.before in Hab. congruence. }
      constructor; [apply IH; assumption|].
      eapply Permutation_Forall; [symmetry; apply legacy_insert_perm|].
      constructor; assumption.
Qed.

Lemma legacy_sort_sorted (l : list (Swagger.SearchHit * Q)) :
  StronglySorted hit_outranks (LegacySearch.sort l).
Proof.
  induction l as [|a l IH]; [constructor|].
  cbn [LegacySearch.sort fold_right]. fold (LegacySearch.sort l).
  apply legacy_insert_sorted. exact IH.
Qed.

Lemma legacy_insert_with_score (v : Q) (a : Swagger.SearchHit * Q)
    (l : list (Swagger.SearchHit * Q)) :
  hits_with_score v (LegacySearch.insert a l) = hits_with_score v (a :: l).
Proof.
  unfold hits_with_score. induction l as [|b l IH]; [reflexivity|].
  cbn [LegacySearch.insert]. destruct (LegacySearch.before a b) eqn:Hab; [reflexivity|].
  cbn [filter] in IH |- *. rewrite IH.
  destruct (Qeq_bool (snd a) v) eqn:Ha; [|reflexivity].
  destruct (Qeq_bool (snd b) v) eqn:Hb; [|reflexivity].
  exfalso. apply Qeq_bool_iff in Ha. apply Qeq_bool_iff in Hb.
  assert (Hle : (snd b <= snd a)%Q) by (rewrite Ha, Hb; apply Qle_refl).
  apply Qle_bool_iff in Hle. unfold LegacySearch.before in Hab. congruence.
Qed.

Lemma legacy_sort_stable (v : Q) (l : list (Swagger.SearchHit * Q)) :
  hits_with_score v (LegacySearch.sort l) = hits_with_score v l.
Proof.
  induction l as [|a l IH]; [reflexivity|].
  cbn [LegacySearch.sort fold_right]. fold (LegacySearch.sort l).
  rewrite legacy_insert_with_score. unfold hits_with_score in *.
  cbn [filter]. rewrite IH. reflexivity.
Qed.

(** X23.  For the same document and input the legacy [search_endpoints]
    returns the hits the simple server returns, as many, in another
    order: the scan and its cut at the limit are the same, and the
    legacy server then sorts what the scan kept by falling relevance,
    the relevance of a hit being that of the query in the text of the
    hit.  The sort is stable: hits of one relevance keep the order of the
    scan. *)
Theorem legacy_search_same_hits (s : Swagger.Server) (input : Swagger.SearchInput) :
  let results := Swagger.search_paths input (Swagger.paths s) [] in
  let ranked := LegacySearch.sort (map (scored input) results) in
  Swagger.search_endpoints s input
  = Returned (Swagger.Hits (Swagger.search_query input) (List.length results) results) /\
  LegacySearch.ranked (Swagger.paths s) input = ranked /\
  LegacySearch.search_endpoints (Swagger.paths s) input
  = Returned (Swagger.Hits (Swagger.search_query input) (List.length results)
                (map fst ranked)) /\
  Permutation (map fst ranked) results /\
  StronglySorted hit_outranks ranked /\
  forall v, hits_with_score v ranked = hits_with_score v (map (scored input) results).
Proof.
  intros results ranked.
  assert (Hr : LegacySearch.ranked (Swagger.paths s) input = ranked).
  { unfold LegacySearch.ranked.
    change (@nil (Swagger.SearchHit * Q)) with (map (scored input) []).
    rewrite legacy_search_paths_scored. reflexivity. }
  assert (Hp : Permutation (map fst ranked) results).
  { subst ranked. rewrite (Permutation_map fst (legacy_sort_perm _)).
    rewrite map_map. cbn [scored fst]. rewrite map_id. reflexivity. }
  split; [reflexivity|]. split; [exact Hr|]. split; [|split; [exact Hp|split]].
  - unfold LegacySearch.search_endpoints. cbv zeta. rewrite Hr.
    rewrite <- (Permutation_length Hp), length_map. reflexivity.
  - apply legacy_sort_sorted.
  - intro v. apply legacy_sort_stable.
Qed.

(** ** The prefixed inputs of the legacy Postman server *)

Lemma add_prefixed_named (prefix name : string) (target : JS.obj JS.value) (v : JS.value) :
  Postman.defined v = true ->
  LegacyRequest.add_prefixed prefix target (prefix ++ name, v) = JS.obj_set target name v.
Proof.
  intros Hv. unfold LegacyRequest.add_prefixed, JS.startsWith. cbn [fst snd].
  rewrite prefix_append, Hv, replace_head. reflexivity.
Qed.

Lemma add_prefixed_other (prefix name : string) (target : JS.obj JS.value)
    (kv : string * JS.value) :
  fst kv <> prefix ++ name ->
  JS.obj_get (LegacyRequest.add_prefixed prefix target kv) name = JS.obj_get target name.
Proof.
  intros Hne. unfold LegacyRequest.add_prefixed, JS.startsWith.
  destruct (String.prefix prefix (fst kv)) eqn:Hp; [|reflexivity].
  destruct (Postman.defined (snd kv)); [|reflexivity].
  apply prefix_split in Hp. rewrite Hp, replace_head. cbn [append].
  apply obj_get_set_other. intros E. apply Hne. rewrite Hp, E. reflexivity.
Qed.

Lemma fold_prefixed_other (prefix name : string) (input target : JS.obj JS.value) :
  ~ In (prefix ++ name) (map fst input) ->
  JS.obj_get (fold_left (LegacyRequest.add_prefixed prefix) input target) name
  = JS.obj_get target name.
Proof.
  revert target. induction input as [|kv rest IH]; intros target Hn; [reflexivity|].
  cbn [fold_left]. rewrite IH by (intros E; apply Hn; right; exact E).
  apply add_prefixed_other. intros E. apply Hn. left. exact E.
Qed.

Lemma fold_prefixed_sent (prefix name : string) (input target : JS.obj JS.value)
    (v : JS.value) :
  NoDup (map fst input) -> In (prefix ++ name, v) input -> Postman.defined v = true ->
  JS.obj_get (fold_left (LegacyRequest.add_prefixed prefix) input target) name = Some v.
Proof.
  intros Hnd Hin Hv. revert target Hnd Hin.
  induction input as [|kv rest IH]; intros target Hnd Hin; [contradiction|].
  cbn [fold_left]. inversion Hnd as [|x l Hnotin Hnd']; subst.
  destruct Hin as [->|Hin].
  - rewrite fold_prefixed_other by exact Hnotin.
    rewrite add_prefixed_named by exact Hv. apply obj_get_set_same.
  - apply IH; assumption.
Qed.

(** X24.  In the legacy Postman server an input [query_NAME] with a
    defined value is sent as the query parameter [NAME], in place of an
    API key of that name, and an input [header_NAME] as the header
    [NAME], in place of a credential header of that name.  The header
    [Content-Type] can be set in this way; the default
    [application/json] replaces it only when the request has a body and
    the value given is falsy.  [NAME] is not [__proto__]. *)
Theorem legacy_prefixed_inputs (defaultAuth auth : option AuthConfig)
    (input : JS.obj JS.value) (body : JS.value) (name : string) (v : JS.value) :
  NoDup (map fst input) -> Postman.defined v = true -> name <> "__proto__" ->
  (In ("query_" ++ name, v) input ->
   JS.obj_get (LegacyRequest.queryParams defaultAuth input auth) name = Some v) /\
  (In ("header_" ++ name, v) input ->
   name <> "Content-Type" \/ JS.truthy v = true \/ JS.truthy body = false ->
   JS.obj_get (LegacyRequest.headers defaultAuth input body auth) name = Some v).
Proof.
  intros Hnd Hv _. split.
  - intros Hin. unfold LegacyRequest.queryParams.
    apply fold_prefixed_sent; assumption.
  - intros Hin Hc. unfold LegacyRequest.headers.
    set (headers := fold_left _ input _).
    assert (Hg : JS.obj_get headers name = Some v)
      by (subst headers; apply fold_prefixed_sent; assumption).
    destruct (String.eqb_spec name "Content-Type") as [->|Hne].
    + rewrite Hg. destruct Hc as [Hc|[Hc|Hc]]; [congruence| |].
      * rewrite Hc, andb_false_r. exact Hg.
      * rewrite Hc. exact Hg.
    + destruct (JS.truthy body && _); [|exact Hg].
      rewrite obj_get_set_other; [exact Hg|]. intros E. apply Hne. symmetry. exact E.
Qed.

Lemma legacy_prefixed_inputs_witness :
  JS.obj_get
    (LegacyRequest.headers None
       [("header_Content-Type", JS.VString "text/plain"); ("path_id", JS.VString "7")]
       (JS.VString "hello") None)
    "Content-Type"
  = Some (JS.VString "text/plain").
Proof.
  refine (proj2
            (legacy_prefixed_inputs None None
               [("header_Content-Type", JS.VString "text/plain"); ("path_id", JS.VString "7")]
               (JS.VString "hello") "Content-Type" (JS.VString "text/plain") _ eq_refl _)
            (or_introl eq_refl) (or_intror (or_introl eq_refl))).
  - repeat constructor; simpl; intuition discriminate.
  - discriminate.
Defined.

(** ** The filters of list_endpoints *)

(** X25.  What passing the filters of [list_endpoints] means.  The
    method filter compares without regard to case; the tag filter asks
    for the tag itself among the tags of the operation, so an operation
    without tags never passes it; an absent or empty filter lets every
    operation pass. *)
Theorem list_filters_meaning (input : Swagger.ListInput) (p m : string) (op : Operation) :
  operation_listed input (p, m, op) = true <->
  (forall f, Swagger.list_method input = Some f -> f <> "" ->
             JS.toLowerCase m = JS.toLowerCase f) /\
  (forall t, Swagger.list_tag input = Some t -> t <> "" -> In t (tagsOf op)).
Proof.
  unfold operation_listed, Swagger.method_filtered, Swagger.tag_filtered, tagsOf.
  cbn [fst snd]. rewrite andb_true_iff, !negb_true_iff.
  match goal with
  | |- (?a /\ ?b) <-> (?c /\ ?d) => cut ((a <-> c) /\ (b <-> d)); [tauto|split]
  end.
  - destruct (Swagger.list_method input) as [f|]; [|split; [discriminate|reflexivity]].
    destruct (JS.present (Some f)) eqn:Hp; cbn [andb].
    + apply present_some in Hp. rewrite negb_false_iff, String.eqb_eq. split.
      * intros E x [= <-] _. exact E.
      * intros H. apply H; [reflexivity|exact Hp].
    + split; [|reflexivity]. intros _ x [= <-] Hx. apply present_some in Hx. congruence.
  - destruct (Swagger.list_tag input) as [t|]; [|split; [discriminate|reflexivity]].
    destruct (JS.present (Some t)) eqn:Hp; cbn [andb].
    + apply present_some in Hp. destruct (tags op) as [ts|].
      * rewrite negb_false_iff, existsb_exists. split.
        -- intros (x & Hx & E) y [= <-] _. apply String.eqb_eq in E. subst. exact Hx.
        -- intros H. exists t. split; [apply H; [reflexivity|exact Hp]|apply String.eqb_refl].
      * split; [discriminate|]. intros H. destruct (H t eq_refl Hp).
    + split; [|reflexivity]. intros _ x [= <-] Hx. apply present_some in Hx. congruence.
Qed.

Lemma list_filters_meaning_witness :
  let input := Swagger.mkListInput (Some "GET") (Some "pets") 5 in
  let op := mkOperation None None None (Some ["pets"; "store"]) None None in
  (forall f, Swagger.list_method input = Some f -> f <> "" ->
             JS.toLowerCase "get" = JS.toLowerCase f) /\
  (forall t, Swagger.list_tag input = Some t -> t <> "" -> In t (tagsOf op)).
Proof.
  exact (proj1
           (list_filters_meaning (Swagger.mkListInput (Some "GET") (Some "pets") 5)
              "/pets" "get" (mkOperation None None None (Some ["pets"; "store"]) None None))
           eq_refl).
Defined.
